(** * jw-scraping: the JWPUB extraction pipeline

    A shallow embedding of the TypeScript services of the repository
    (crypto.ts, discovery.ts, parsing.ts, database.ts, the search engines
    of the two Bible scripts and the pubCard of the orchestrator) together
    with the properties the specification states about them and further
    properties read off the code.

    Conventions.
    - A JavaScript string is the list of its UTF-16 code units ([list N]).
    - A [Uint8Array] is a list of octets ([list N], every element below 256).
    - A JavaScript exception is a value of [exn]; a function that may throw
      returns a [result]. *)

From Stdlib Require Import NArith ZArith List Ascii String Lia Bool.
From Stdlib Require Import DecimalString HexadecimalString DecimalN HexadecimalN DecimalPos.
From Stdlib Require Import Sorted.
From stdpp Require Import base decidable option list gmap.
Import ListNotations.

#[local] Set Warnings "-register-all".

Local Open Scope N_scope.
Local Open Scope list_scope.

(** ** JavaScript strings *)

Module JS.

Abbreviation jsstring := (list N).

(** A string literal of the source, as code units. *)
Definition js (s : string) : jsstring :=
  map N_of_ascii (list_ascii_of_string s).

(** Exceptions a call may throw, named after the JavaScript error it
    stands for. *)
Inductive exn : Type :=
| InvalidCharacterError          (* atob on a string that is not base64 *)
| TypeError                      (* property read on null or undefined *)
| DataError                      (* SubtleCrypto.importKey: bad key data *)
| OperationError                 (* SubtleCrypto.decrypt: bad input or padding *)
| PakoError (msg : jsstring).    (* thrown by pako's inflate *)

Inductive result (A : Type) : Type :=
| Ok (a : A)
| Throw (e : exn).
Arguments Ok {A} a.
Arguments Throw {A} e.

Definition bind {A B} (r : result A) (k : A -> result B) : result B :=
  match r with
  | Ok a => k a
  | Throw e => Throw e
  end.

(** [s.length] *)
Definition strlen (s : jsstring) : N := N.of_nat (length s).

(** [s.startsWith(p)] *)
Fixpoint startsWith (s p : jsstring) : bool :=
  match p, s with
  | [], _ => true
  | _ :: _, [] => false
  | c :: p', d :: s' => (c =? d) && startsWith s' p'
  end.

(** [s.replace(pat, rep)] for a string pattern: the first occurrence of
    [pat] is replaced (the replacements of the source hold no [$]). *)
Fixpoint replace (s pat rep : jsstring) : jsstring :=
  if startsWith s pat then rep ++ drop (length pat) s
  else match s with
       | [] => []
       | c :: s' => c :: replace s' pat rep
       end.

(** [s.split(sep)] for a one-character separator: never an empty array. *)
Fixpoint split (s : jsstring) (sep : N) : list jsstring :=
  match s with
  | [] => [[]]
  | c :: s' =>
      if c =? sep then [] :: split s' sep
      else match split s' sep with
           | [] => [[c]]
           | w :: ws => (c :: w) :: ws
           end
  end.

(** [a.pop()]: the last element, [undefined] on an empty array. *)
Definition pop {A} (a : list A) : option A := last a.

(** [s.slice(from, to)] for indices within [0, 2^53). *)
Definition slice (s : jsstring) (from to : nat) : jsstring :=
  take (to - from) (drop from s).

(** White space and line terminators (ECMAScript WhiteSpace and
    LineTerminator): what [trim] strips and what [\s] matches. *)
Definition isWhiteSpace (c : N) : bool :=
  ((0x09 <=? c) && (c <=? 0x0D)) || (c =? 0x20) || (c =? 0xA0)
  || (c =? 0x1680) || ((0x2000 <=? c) && (c <=? 0x200A))
  || (c =? 0x2028) || (c =? 0x2029) || (c =? 0x202F) || (c =? 0x205F)
  || (c =? 0x3000) || (c =? 0xFEFF).

Fixpoint trimStart (s : jsstring) : jsstring :=
  match s with
  | c :: s' => if isWhiteSpace c then trimStart s' else s
  | [] => []
  end.

Definition trimEnd (s : jsstring) : jsstring := rev (trimStart (rev s)).

(** [s.trim()] *)
Definition trim (s : jsstring) : jsstring := trimEnd (trimStart s).

(** [s.replace(/\s+/g, ' ')]; [inws] tells that the previous character
    belonged to the run being replaced. *)
Fixpoint replaceSpaces (inws : bool) (s : jsstring) : jsstring :=
  match s with
  | [] => []
  | c :: s' =>
      if isWhiteSpace c then
        if inws then replaceSpaces true s' else 32 :: replaceSpaces true s'
      else c :: replaceSpaces false s'
  end.

(** [s.split(/\s+/)] *)
Fixpoint splitSpaces (inws : bool) (s : jsstring) : list jsstring :=
  match s with
  | [] => [[]]
  | c :: s' =>
      if isWhiteSpace c then
        if inws then splitSpaces true s' else [] :: splitSpaces true s'
      else match splitSpaces false s' with
           | w :: ws => (c :: w) :: ws
           | [] => [[c]]
           end
  end.

(** [String(n)] for a non-negative integer. *)
Definition String_ (n : N) : jsstring :=
  js (DecimalString.NilZero.string_of_uint (N.to_uint n)).

(** [n.toString(16)] for a non-negative integer. *)
Definition toString16 (n : N) : jsstring :=
  js (HexadecimalString.NilZero.string_of_uint (N.to_hex_uint n)).

(** [s.padStart(target, pad)] for a one-character filler. *)
Definition padStart (s : jsstring) (target : nat) (pad : N) : jsstring :=
  repeat pad (target - length s) ++ s.

(** [x || y] on strings: the empty string is the only falsy one. *)
Definition orElse (x y : jsstring) : jsstring :=
  match x with [] => y | _ => x end.

(** [TextEncoder.encode]: the UTF-8 encoding of the string, a lone
    surrogate encoded as U+FFFD. *)
Definition utf8_of_code_point (cp : N) : list N :=
  if cp <? 0x80 then [cp]
  else if cp <? 0x800 then
    [N.lor 0xC0 (N.shiftr cp 6); N.lor 0x80 (N.land cp 0x3F)]
  else if cp <? 0x10000 then
    [N.lor 0xE0 (N.shiftr cp 12);
     N.lor 0x80 (N.land (N.shiftr cp 6) 0x3F);
     N.lor 0x80 (N.land cp 0x3F)]
  else
    [N.lor 0xF0 (N.land (N.shiftr cp 18) 0x07);
     N.lor 0x80 (N.land (N.shiftr cp 12) 0x3F);
     N.lor 0x80 (N.land (N.shiftr cp 6) 0x3F);
     N.lor 0x80 (N.land cp 0x3F)].

Definition isHighSurrogate (c : N) : bool := (0xD800 <=? c) && (c <=? 0xDBFF).
Definition isLowSurrogate (c : N) : bool := (0xDC00 <=? c) && (c <=? 0xDFFF).

Fixpoint TextEncoder_encode (s : jsstring) : list N :=
  match s with
  | [] => []
  | c :: s' =>
      if isHighSurrogate c then
        match s' with
        | d :: s'' =>
            if isLowSurrogate d then
              utf8_of_code_point
                (0x10000 + N.shiftl (c - 0xD800) 10 + (d - 0xDC00))
                ++ TextEncoder_encode s''
            else utf8_of_code_point 0xFFFD ++ TextEncoder_encode s'
        | [] => utf8_of_code_point 0xFFFD
        end
      else if isLowSurrogate c then
        utf8_of_code_point 0xFFFD ++ TextEncoder_encode s'
      else utf8_of_code_point (N.land c 0xFFFF) ++ TextEncoder_encode s'
  end.

End JS.

(** ** SHA-256 (FIPS 180-4), the digest behind [crypto.subtle.digest] *)

Module Sha256.

Definition add32 (x y : N) : N := (x + y) mod 2 ^ 32.
Definition not32 (x : N) : N := N.lxor x 0xFFFFFFFF.
Definition rotr (n x : N) : N :=
  N.lor (N.shiftr x n) (N.shiftl x (32 - n) mod 2 ^ 32).

Definition Ch (x y z : N) : N := N.lxor (N.land x y) (N.land (not32 x) z).
Definition Maj (x y z : N) : N :=
  N.lxor (N.lxor (N.land x y) (N.land x z)) (N.land y z).
Definition Sigma0 (x : N) : N := N.lxor (N.lxor (rotr 2 x) (rotr 13 x)) (rotr 22 x).
Definition Sigma1 (x : N) : N := N.lxor (N.lxor (rotr 6 x) (rotr 11 x)) (rotr 25 x).
Definition sigma0 (x : N) : N := N.lxor (N.lxor (rotr 7 x) (rotr 18 x)) (N.shiftr x 3).
Definition sigma1 (x : N) : N := N.lxor (N.lxor (rotr 17 x) (rotr 19 x)) (N.shiftr x 10).

(** The constants of the standard are fractional parts of roots of the
    first primes, and are computed here as the standard defines them. *)
Definition isPrime (n : N) : bool :=
  forallb (fun d => negb (n mod N.of_nat d =? 0)) (seq 2 (N.to_nat n - 2)).

(** The first sixty-four primes: those up to 311. *)
Definition primes : list N := filter isPrime (map N.of_nat (seq 2 310)).

(** The integer part of the [k]-th root of [n], for a root below 2^40. *)
Definition root (k n : N) : N :=
  fold_left (fun r i => if (r + 2 ^ i) ^ k <=? n then r + 2 ^ i else r)
            (map N.of_nat (rev (seq 0 40))) 0.

(** The first 32 bits of the fractional part of the [k]-th root of [p]. *)
Definition fractional32 (k p : N) : N := root k (p * 2 ^ (32 * k)) mod 2 ^ 32.

(** The round constants: cube roots of the first sixty-four primes. *)
Definition K : list N := Eval vm_compute in map (fractional32 3) primes.

(** The eight working variables, also the chaining value. *)
Record hash : Type := Hash { ha : N; hb : N; hc : N; hd : N;
                             he : N; hf : N; hg : N; hh : N }.

(** The initial hash value: square roots of the first eight primes. *)
Definition H0 : hash :=
  Eval vm_compute in
    let h i := nth i (map (fractional32 2) primes) 0 in
    Hash (h 0%nat) (h 1%nat) (h 2%nat) (h 3%nat) (h 4%nat) (h 5%nat) (h 6%nat) (h 7%nat).

(** One round on the working variables, with round constant [k] and
    schedule word [w]. *)
Definition round (v : hash) (k w : N) : hash :=
  let t1 := add32 (add32 (add32 (add32 (hh v) (Sigma1 (he v)))
                                (Ch (he v) (hf v) (hg v))) k) w in
  let t2 := add32 (Sigma0 (ha v)) (Maj (ha v) (hb v) (hc v)) in
  Hash (add32 t1 t2) (ha v) (hb v) (hc v) (add32 (hd v) t1) (he v) (hf v) (hg v).

(** The message schedule as a sliding window of sixteen words: the head
    is W(t), the new last word is W(t+16). *)
Definition next_window (ws : list N) : list N :=
  let w i := nth i ws 0 in
  tl ws ++ [add32 (add32 (add32 (sigma1 (w 14%nat)) (w 9%nat))
                         (sigma0 (w 1%nat))) (w 0%nat)].

Definition rounds (v : hash) (ws : list N) : hash :=
  fst (fold_left (fun '(v, ws) k => (round v k (nth 0 ws 0), next_window ws))
                 K (v, ws)).

Definition word_of_bytes (b : list N) : N :=
  fold_left (fun acc x => acc * 256 + x) b 0.

Definition bytes_of_word (w : N) : list N :=
  [N.shiftr w 24 mod 256; N.shiftr w 16 mod 256; N.shiftr w 8 mod 256; w mod 256].

Fixpoint words_of_bytes (n : nat) (b : list N) : list N :=
  match n with
  | O => []
  | S n' => word_of_bytes (take 4 b) :: words_of_bytes n' (drop 4 b)
  end.

(** Compression of one 64-byte block into the chaining value. *)
Definition compress (h : hash) (block : list N) : hash :=
  let v := rounds h (words_of_bytes 16 block) in
  Hash (add32 (ha h) (ha v)) (add32 (hb h) (hb v))
       (add32 (hc h) (hc v)) (add32 (hd h) (hd v))
       (add32 (he h) (he v)) (add32 (hf h) (hf v))
       (add32 (hg h) (hg v)) (add32 (hh h) (hh v)).

(** Padding: a 1 bit, zeros, and the bit length as a 64-bit big-endian
    integer, to a multiple of 64 bytes. *)
Definition pad (msg : list N) : list N :=
  let len := N.of_nat (length msg) in
  let zeros := N.to_nat ((64 + 55 - len mod 64) mod 64) in
  let bits := len * 8 in
  msg ++ [0x80] ++ repeat 0 zeros
      ++ bytes_of_word (N.shiftr bits 32 mod 2 ^ 32) ++ bytes_of_word (bits mod 2 ^ 32).

Fixpoint blocks (n : nat) (b : list N) : list (list N) :=
  match n with
  | O => []
  | S n' => take 64 b :: blocks n' (drop 64 b)
  end.

Definition bytes_of_hash (h : hash) : list N :=
  bytes_of_word (ha h) ++ bytes_of_word (hb h) ++ bytes_of_word (hc h)
    ++ bytes_of_word (hd h) ++ bytes_of_word (he h) ++ bytes_of_word (hf h)
    ++ bytes_of_word (hg h) ++ bytes_of_word (hh h).

(** The 32-byte digest of a byte string. *)
Definition digest (msg : list N) : list N :=
  let p := pad msg in
  bytes_of_hash (fold_left compress (blocks (length p / 64) p) H0).

End Sha256.

(** ** AES (FIPS 197): the inverse cipher

    The block cipher behind [crypto.subtle.decrypt], on lists of bytes.
    The S-box is computed from its definition over GF(2^8). *)

Module Aes.

(** Multiplication by [x] in GF(2^8), modulo x^8 + x^4 + x^3 + x + 1. *)
Definition xtime (a : N) : N :=
  let b := 2 * a in if 256 <=? b then N.lxor (b - 256) 0x1B else b.

(** The product of two field elements, bit by bit of the second. *)
Fixpoint mul_bits (bits : nat) (a b : N) : N :=
  match bits with
  | O => 0
  | S bits' =>
      N.lxor (if N.odd b then a else 0) (mul_bits bits' (xtime a) (b / 2))
  end.

Definition mul (a b : N) : N := mul_bits 8 a b.

(** The multiplicative inverse, [a^254]; 0 for 0. *)
Definition inverse (a : N) : N :=
  let a2 := mul a a in
  let a4 := mul a2 a2 in
  let a8 := mul a4 a4 in
  let a16 := mul a8 a8 in
  let a32 := mul a16 a16 in
  let a64 := mul a32 a32 in
  let a128 := mul a64 a64 in
  mul a128 (mul a64 (mul a32 (mul a16 (mul a8 (mul a4 a2))))).

Definition rotl8 (b : N) (k : N) : N :=
  N.land (N.lor (N.shiftl b k) (N.shiftr b (8 - k))) 255.

(** SubBytes on one byte: the inverse followed by the affine map. *)
Definition subByte (a : N) : N :=
  let b := inverse a in
  N.lxor (N.lxor (N.lxor (N.lxor (N.lxor b (rotl8 b 1)) (rotl8 b 2)) (rotl8 b 3)) (rotl8 b 4)) 0x63.

(** InvSubBytes on one byte: the inverse affine map followed by the
    inverse. *)
Definition invSubByte (a : N) : N :=
  inverse (N.lxor (N.lxor (N.lxor (rotl8 a 1) (rotl8 a 3)) (rotl8 a 6)) 0x05).

Definition xorBytes (x y : list N) : list N := zip_with N.lxor x y.

(** AddRoundKey on the 16 bytes of the state. *)
Definition addRoundKey (s k : list N) : list N :=
  map (fun i => N.lxor (default 0 (s !! i)) (default 0 (k !! i))) (seq 0 16).

(** The key schedule: the words [w_0 .. w_(4(Nr+1)-1)], four bytes
    each, for a key of [nk] words. *)
Definition rotWord (w : list N) : list N := drop 1 w ++ take 1 w.

Fixpoint rcon (j : nat) : N :=
  match j with
  | O | S O => 1
  | S j' => xtime (rcon j')
  end.

Fixpoint expand (steps : nat) (nk i : nat) (w : list (list N)) : list (list N) :=
  match steps with
  | O => w
  | S steps' =>
      let prev := default [] (w !! (i - 1)%nat) in
      let temp :=
        if (i mod nk =? 0)%nat then
          xorBytes (map subByte (rotWord prev)) [rcon (i / nk); 0; 0; 0]
        else if (6 <? nk)%nat && (i mod nk =? 4)%nat then map subByte prev
        else prev in
      expand steps' nk (S i) (w ++ [xorBytes (default [] (w !! (i - nk)%nat)) temp])
  end.

Fixpoint words (key : list N) (n : nat) : list (list N) :=
  match n with
  | O => []
  | S n' => take 4 key :: words (drop 4 key) n'
  end.

Definition keyExpansion (key : list N) : list (list N) :=
  let nk := (length key / 4)%nat in
  let nr := (nk + 6)%nat in
  expand (4 * (nr + 1) - nk) nk nk (words key nk).

(** The round key of a round: four words. *)
Definition roundKey (w : list (list N)) (round : nat) : list N :=
  concat (take 4 (drop (4 * round) w)).

(** The state is the block in the order of its bytes: byte [r + 4c] is
    row [r] of column [c]. *)
Definition invShiftRows (s : list N) : list N :=
  map (fun i => let r := (i mod 4)%nat in let c := (i / 4)%nat in
                default 0 (s !! (r + 4 * ((c + 4 - r) mod 4))%nat))
      (seq 0 16).

Definition invMixColumn (col : list N) : list N :=
  match col with
  | [a0; a1; a2; a3] =>
      [N.lxor (N.lxor (mul 0x0E a0) (mul 0x0B a1)) (N.lxor (mul 0x0D a2) (mul 0x09 a3));
       N.lxor (N.lxor (mul 0x09 a0) (mul 0x0E a1)) (N.lxor (mul 0x0B a2) (mul 0x0D a3));
       N.lxor (N.lxor (mul 0x0D a0) (mul 0x09 a1)) (N.lxor (mul 0x0E a2) (mul 0x0B a3));
       N.lxor (N.lxor (mul 0x0B a0) (mul 0x0D a1)) (N.lxor (mul 0x09 a2) (mul 0x0E a3))]
  | _ => col
  end.

Definition invMixColumns (s : list N) : list N :=
  concat (map (fun c => invMixColumn (take 4 (drop (4 * c) s))) (seq 0 4)).

Fixpoint invRounds (w : list (list N)) (round : nat) (s : list N) : list N :=
  match round with
  | O => s
  | S round' =>
      invRounds w round'
        (invMixColumns (addRoundKey (map invSubByte (invShiftRows s)) (roundKey w round)))
  end.

(** The inverse cipher (FIPS 197, 5.3) on one block. *)
Definition invCipher (key block : list N) : list N :=
  let w := keyExpansion key in
  let nr := (length key / 4 + 6)%nat in
  let s := invRounds w (nr - 1) (addRoundKey block (roundKey w nr)) in
  addRoundKey (map invSubByte (invShiftRows s)) (roundKey w 0).
End Aes.

(** ** Platform functions used by [CryptoService] *)

Module Platform.
Import JS.

(** *** [atob]: forgiving base64 decoding (WHATWG Infra) *)

Definition isAsciiWhitespace (c : N) : bool :=
  (c =? 0x09) || (c =? 0x0A) || (c =? 0x0C) || (c =? 0x0D) || (c =? 0x20).

Definition base64_value (c : N) : option N :=
  if (65 <=? c) && (c <=? 90) then Some (c - 65)
  else if (97 <=? c) && (c <=? 122) then Some (c - 97 + 26)
  else if (48 <=? c) && (c <=? 57) then Some (c - 48 + 52)
  else if c =? 43 then Some 62
  else if c =? 47 then Some 63
  else None.

(** Four sextets give three octets; a final group of two or three
    sextets gives one or two, its spare bits dropped. *)
Fixpoint base64_octets (v : list N) : list N :=
  match v with
  | a :: b :: c :: d :: rest =>
      [a * 4 + b / 16; (b mod 16) * 16 + c / 4; (c mod 4) * 64 + d]
        ++ base64_octets rest
  | [a; b; c] => [a * 4 + b / 16; (b mod 16) * 16 + c / 4]
  | [a; b] => [a * 4 + b / 16]
  | _ => []
  end.

Definition strip_padding (s : jsstring) : jsstring :=
  if (length s mod 4 =? 0)%nat then
    match rev s with
    | 61 :: 61 :: r => rev r
    | 61 :: r => rev r
    | _ => s
    end
  else s.

Definition atob (data : jsstring) : result jsstring :=
  let s := strip_padding (filter (fun c => negb (isAsciiWhitespace c)) data) in
  if (length s mod 4 =? 1)%nat then Throw InvalidCharacterError
  else match mapM base64_value s with
       | Some v => Ok (base64_octets v)
       | None => Throw InvalidCharacterError
       end.

(** *** [SubtleCrypto]: AES-CBC key import and decryption (W3C Web
    Cryptography API), over the AES inverse cipher of one block. *)

Section AesCbc.
(** The AES inverse cipher (FIPS 197) on one 16-byte block, under a
    16, 24 or 32-byte key. *)
Variable aes_inv_cipher : list N -> list N -> list N.

Definition importKey (raw : list N) : result (list N) :=
  let n := length raw in
  if ((n =? 16) || (n =? 24) || (n =? 32))%nat then Ok raw
  else Throw DataError.

Definition xor_block (x y : list N) : list N := zip_with N.lxor x y.

(** CBC decryption (NIST SP 800-38A, 6.2): each plaintext block is the
    deciphered block xored with the previous ciphertext block. *)
Fixpoint cbc_decrypt (n : nat) (key prev data : list N) : list N :=
  match n with
  | O => []
  | S n' =>
      let c := take 16 data in
      xor_block (aes_inv_cipher key c) prev
        ++ cbc_decrypt n' key c (drop 16 data)
  end.

(** Removal of the padding: the last octet [p] must be in 1..16 and
    the last [p] octets must all be [p]. *)
Definition unpad (padded : list N) : option (list N) :=
  match last padded with
  | None => None
  | Some p =>
      let k := N.to_nat p in
      if (1 <=? p) && (p <=? 16)
         && forallb (N.eqb p) (drop (length padded - k) padded)
         && (k <=? length padded)%nat
      then Some (take (length padded - k) padded)
      else None
  end.

Definition decrypt (key iv data : list N) : result (list N) :=
  if negb (length iv =? 16)%nat then Throw OperationError
  else if negb (length data mod 16 =? 0)%nat then Throw OperationError
  else match unpad (cbc_decrypt (length data / 16) key iv data) with
       | Some plaintext => Ok plaintext
       | None => Throw OperationError
       end.
End AesCbc.

End Platform.

(** ** [CryptoService] (src/services/crypto.ts) *)

Module CryptoService.
Import JS Platform.

(** [generateSHA256]: the digest of the UTF-8 encoded text. *)
Definition generateSHA256 (text : jsstring) : list N :=
  Sha256.digest (TextEncoder_encode text).

Definition isHexDigit (c : N) : bool :=
  ((48 <=? c) && (c <=? 57)) || ((97 <=? c) && (c <=? 102))
  || ((65 <=? c) && (c <=? 70)).

Definition hexDigitValue (c : N) : N :=
  if c <=? 57 then c - 48 else if c <=? 70 then c - 55 else c - 87.

(** [parseInt(s, 16)] on a string of hexadecimal digits. *)
Definition parseInt16 (s : jsstring) : N :=
  fold_left (fun acc c => acc * 16 + hexDigitValue c) s 0.

(** [hexToBytes]: non-hexadecimal characters are dropped; a trailing odd
    digit is ignored. *)
Definition hexToBytes (hex : jsstring) : list N :=
  let clean := filter isHexDigit hex in
  map (fun i => parseInt16 (slice clean (i * 2) (i * 2 + 2)) mod 256)
      (seq 0 (length clean / 2)).

(** [bytesToHex] *)
Definition bytesToHex (bytes : list N) : jsstring :=
  concat (map (fun b => padStart (toString16 b) 2 48) bytes).

(** [xorBuffers]: [buf2] is read cyclically; reading an empty [buf2]
    gives [undefined], which xors as 0. *)
Definition xorBuffers (buf1 buf2 : list N) : list N :=
  imap (fun i byte =>
          N.lxor byte (default 0 (buf2 !! (i mod length buf2)%nat)) mod 256)
       buf1.

Record KeyAndIv : Type := { key : jsstring; iv : jsstring }.

Definition masterKeyBase64 : jsstring :=
  js "MTFjYmI1NTg3ZTMyODQ2ZDRjMjY3OTBjNjMzZGEyODlmNjZmZTU4NDJhM2E1ODVjZTFiYzNhMjk0YWY1YWRhNw==".

(** [getDeriveKeyAndIv] *)
Definition getDeriveKeyAndIv (pubCard : jsstring) : result KeyAndIv :=
  bind (atob masterKeyBase64) (fun masterKeyHex =>
    let hashBytes := generateSHA256 pubCard in
    let keyBytes := hexToBytes masterKeyHex in
    let xored := xorBuffers hashBytes keyBytes in
    let fullKeyHex := bytesToHex xored in
    Ok {| key := slice fullKeyHex 0 32; iv := slice fullKeyHex 32 64 |}).

(** What pako's [inflate] gives: the decompressed bytes; no result
    ([undefined]) when the input ends before the stream does; or the
    message it throws. *)
Inductive inflated : Type :=
| Inflated (out : list N)
| NoResult
| Rejected (msg : jsstring).

Section DecryptAndInflate.
Variable aes_inv_cipher : list N -> list N -> list N.
(** pako's [inflate] on an input that begins with the two bytes of a
    gzip header or of a zlib header with a right check value. *)
Variable pako_stream : list N -> inflated.
(** [new TextDecoder().decode]: UTF-8 decoding, which never throws. *)
Variable TextDecoder_decode : list N -> jsstring.

(** pako's [inflate]: an input of fewer than two bytes ends before the
    header does; two first bytes that are no gzip magic number and, read
    as a number with the first byte high, no multiple of 31 are an
    incorrect header check. *)
Definition pako_inflate (data : list N) : inflated :=
  match data with
  | b0 :: b1 :: _ =>
      if (b0 =? 0x1F) && (b1 =? 0x8B) then pako_stream data
      else if (b0 * 256 + b1) mod 31 =? 0 then pako_stream data
      else Rejected (js "incorrect header check")
  | _ => NoResult
  end.

(** [decryptAndInflate]; [decode(undefined)] is the empty string. *)
Definition decryptAndInflate (data : list N) (keyHex ivHex : jsstring)
  : result jsstring :=
  bind (importKey (hexToBytes keyHex)) (fun cryptoKey =>
  bind (decrypt aes_inv_cipher cryptoKey (hexToBytes ivHex) data) (fun decrypted =>
  match pako_inflate decrypted with
  | Inflated decompressed => Ok (TextDecoder_decode decompressed)
  | NoResult => Ok []
  | Rejected msg => Throw (PakoError msg)
  end)).
End DecryptAndInflate.

End CryptoService.

(** ** [EpubSearchEngine] (src/bible_epub_poc.ts) *)

Module EpubSearchEngine.
Import JS.

Record BibleNode : Type :=
  { id : jsstring; title : jsstring; text : jsstring; html : jsstring }.

(** [index]: word -> ids of the nodes holding it; [nodes]: id -> node. *)
Record engine : Type :=
  { index : gmap jsstring (list jsstring); nodes : gmap jsstring BibleNode }.

Definition empty_engine : engine := {| index := empty; nodes := empty |}.

(** Length of the match of [[^>]+>] at the start of [s], if any. *)
Fixpoint tagBody (s : jsstring) : option nat :=
  match s with
  | [] => None
  | c :: s' => if c =? 62 then Some 0%nat else S <$> tagBody s'
  end.

(** [s.replace(/<[^>]+>/g, ' ')]; [skip] characters of a match that was
    already replaced remain to be passed over. *)
Fixpoint replaceTags (skip : nat) (s : jsstring) : jsstring :=
  match s with
  | [] => []
  | c :: s' =>
      match skip with
      | S k => replaceTags k s'
      | O =>
          if c =? 60 then
            match tagBody s' with
            | Some (S n) => 32 :: replaceTags (S (S n)) s'
            | _ => c :: replaceTags O s'
            end
          else c :: replaceTags O s'
      end
  end.

(** The class of combining marks, U+0300 to U+036F. *)
Definition isCombiningMark (c : N) : bool := (0x300 <=? c) && (c <=? 0x36F).

(** The punctuation class of [tokenize]: full stop, comma, semicolon,
    colon, quotation mark, the two guillemets, parentheses, exclamation
    and question marks. *)
Definition isPunctuation (c : N) : bool :=
  (c =? 46) || (c =? 44) || (c =? 59) || (c =? 58) || (c =? 34)
  || (c =? 0xAB) || (c =? 0xBB) || (c =? 40) || (c =? 41) || (c =? 33)
  || (c =? 63).

(** [map.set(k, v)] on a [Map] whose iteration order matters: an existing
    key keeps its place, a new key goes last. *)
Fixpoint map_set (k : jsstring) (v : N) (m : list (jsstring * N))
  : list (jsstring * N) :=
  match m with
  | [] => [(k, v)]
  | (k', v') :: m' =>
      if decide (k' = k) then (k, v) :: m' else (k', v') :: map_set k v m'
  end.

(** [map.get(k) || 0] *)
Fixpoint map_get_or_0 (k : jsstring) (m : list (jsstring * N)) : N :=
  match m with
  | [] => 0
  | (k', v') :: m' => if decide (k' = k) then v' else map_get_or_0 k m'
  end.

(** [entries.sort((a, b) => b[1] - a[1])]: a stable sort by descending
    score. *)
Fixpoint insert_desc (x : jsstring * N) (l : list (jsstring * N))
  : list (jsstring * N) :=
  match l with
  | [] => [x]
  | y :: l' => if snd x <? snd y then y :: insert_desc x l' else x :: l
  end.

Definition sort_desc (l : list (jsstring * N)) : list (jsstring * N) :=
  foldr insert_desc [] l.

Record hit : Type := { score : N; node : option BibleNode }.

Section Unicode.
(** [String.prototype.toLowerCase] and [normalize("NFD")]. *)
Variables toLowerCase normalizeNFD : jsstring -> jsstring.

(** [tokenize] *)
Definition tokenize (text : jsstring) : list jsstring :=
  filter (fun w => (2 <? length w)%nat)
    (splitSpaces false
       (filter (fun c => negb (isPunctuation c))
          (filter (fun c => negb (isCombiningMark c))
             (normalizeNFD (toLowerCase text))))).

(** The body of [words.forEach] in [addNode]. *)
Definition addWord (id : jsstring) (index : gmap jsstring (list jsstring))
           (word : jsstring) : gmap jsstring (list jsstring) :=
  let index1 :=
    match index !! word with
    | None => <[word := []]> index
    | Some _ => index
    end in
  match index1 !! word with
  | Some ids =>
      if bool_decide (id ∈ ids) then index1
      else <[word := ids ++ [id]]> index1
  | None => index1
  end.

(** [addNode] *)
Definition addNode (e : engine) (id title html : jsstring) : engine :=
  let text := trim (replaceSpaces false (replaceTags O html)) in
  let nodes1 := <[id := {| id := id; title := title; text := text; html := html |}]> (nodes e) in
  let words := tokenize text in
  {| index := fold_left (addWord id) words (index e); nodes := nodes1 |}.

(** [search] *)
Definition search (e : engine) (query : jsstring) : list hit :=
  let tokens := tokenize query in
  match tokens with
  | [] => []
  | _ =>
      let results :=
        fold_left
          (fun results token =>
             let matches := default [] (index e !! token) in
             fold_left
               (fun results id => map_set id (map_get_or_0 id results + 1) results)
               matches results)
          tokens [] in
      map (fun '(id, score) => {| score := score; node := nodes e !! id |})
          (sort_desc results)
  end.
End Unicode.

End EpubSearchEngine.

(** ** [DiscoveryService] (src/services/discovery.ts) *)

Module DiscoveryService.
Import JS.

(** The values [response.json()] yields, and [undefined]. A number is an
    integer here; an object lists its own properties. [VBuiltin] is a
    function or an object of the host: JSON yields none, but it is what a
    property inherited from a prototype holds. *)
Inductive value : Type :=
| VUndefined
| VNull
| VBool (b : bool)
| VNumber (n : Z)
| VString (s : jsstring)
| VArray (items : list value)
| VObject (props : list (jsstring * value))
| VBuiltin.

(** Truthiness: what [if (v)] and [v || w] test. *)
Definition truthy (v : value) : bool :=
  match v with
  | VUndefined | VNull => false
  | VBool b => b
  | VNumber n => negb (n =? 0)%Z
  | VString s => negb (bool_decide (s = []))
  | VArray _ | VObject _ | VBuiltin => true
  end.

Definition or_else (v w : value) : value := if truthy v then v else w.

Fixpoint lookup_prop (k : jsstring) (props : list (jsstring * value)) : value :=
  match props with
  | [] => VUndefined
  | (k', v) :: props' => if decide (k' = k) then v else lookup_prop k props'
  end.

(** The index a property key denotes, among the first [n]. *)
Definition index_of_key (k : jsstring) (n : nat) : option nat :=
  find (fun i => bool_decide (String_ (N.of_nat i) = k)) (seq 0 n).

(** [v.k] and [v[0]] for the names the source writes out ([files],
    [JWPUB], [EPUB], [0], [file], [url]): an own property of an object, an
    element or the length of an array or a string, since no prototype of
    the host has a property of one of these names; it throws on [null] and
    [undefined]. *)
Definition get (v : value) (k : jsstring) : result value :=
  match v with
  | VUndefined | VNull => Throw TypeError
  | VBool _ | VNumber _ | VBuiltin => Ok VUndefined
  | VString s =>
      if decide (k = js "length") then Ok (VNumber (Z.of_nat (length s)))
      else match index_of_key k (length s) with
           | Some i => Ok (from_option (fun c => VString [c]) VUndefined (s !! i))
           | None => Ok VUndefined
           end
  | VArray items =>
      if decide (k = js "length") then Ok (VNumber (Z.of_nat (length items)))
      else match index_of_key k (length items) with
           | Some i => Ok (default VUndefined (items !! i))
           | None => Ok VUndefined
           end
  | VObject props => Ok (lookup_prop k props)
  end.

(** [v?.[k]]: [undefined] on [null] and [undefined], so it never throws. *)
Definition get_opt (v : value) (k : jsstring) : value :=
  match get v k with
  | Ok w => w
  | Throw _ => VUndefined
  end.

(** Whether a value has an own property of the name. *)
Definition has_own (v : value) (k : jsstring) : bool :=
  match v with
  | VObject props => bool_decide (k ∈ props.*1)
  | VArray items =>
      bool_decide (k = js "length") || bool_decide (is_Some (index_of_key k (length items)))
  | VString s =>
      bool_decide (k = js "length") || bool_decide (is_Some (index_of_key k (length s)))
  | _ => false
  end.

(** The properties of [Object.prototype], which every object inherits;
    each holds a function, [__proto__] gives the prototype itself. *)
Definition objectPrototypeNames : list jsstring :=
  map js ["constructor"; "__defineGetter__"; "__defineSetter__"; "hasOwnProperty";
          "__lookupGetter__"; "__lookupSetter__"; "isPrototypeOf";
          "propertyIsEnumerable"; "toString"; "valueOf"; "__proto__";
          "toLocaleString"]%string.

(** [langData.F?.[0]?.file?.url || langData.F?.[0]?.url], for a truthy
    [langData]. *)
Definition file_url (langData : value) (format : jsstring) : value :=
  let first := get_opt (get_opt langData format) (js "0") in
  or_else (get_opt (get_opt first (js "file")) (js "url"))
          (get_opt first (js "url")).

Record DiscoveredPublication : Type :=
  { pub : jsstring; issue : jsstring; language : jsstring;
    jwpubUrl : value; epubUrl : value }.

(** What one [fetch] round trip gives the loop: [fetch] rejects, or it
    resolves to a response with a status and a body that [json()] parses
    or rejects. *)
Inductive fetched : Type :=
| FetchRejects
| Response (status : Z) (json : option value).

(** The variables of the loop. *)
Record state : Type :=
  { discovered : list DiscoveredPublication;
    currentMonth : N;
    currentYear : N;
    notFoundCount : N }.

Definition issueDate (s : state) : jsstring :=
  String_ (currentYear s) ++ padStart (String_ (currentMonth s)) 2 48.

Section Discover.
Variables (pub_ language_ : jsstring).
(** Whether a value that is no plain object (an array, a string, a
    number, a boolean, a function) finds a property of the name on the
    prototype of its kind; these names differ between versions of the
    host. *)
Variable prototypeHas : value -> jsstring -> bool.

Definition inherits (v : value) (k : jsstring) : bool :=
  match v with
  | VUndefined | VNull => false
  | VObject _ => bool_decide (k ∈ objectPrototypeNames)
  | _ => bool_decide (k ∈ objectPrototypeNames) || prototypeHas v k
  end.

(** [v?.[k]] for a key computed at run time: an own property or,
    without one, what the prototype chain holds under the name. *)
Definition get_computed_opt (v : value) (k : jsstring) : value :=
  if has_own v k then get_opt v k
  else if inherits v k then VBuiltin
  else VUndefined.

(** The [try] block: the publications and the counter after it, given
    what the fetch produced. An exception anywhere in it is caught and
    counts as a miss. *)
Definition attempt (s : state) (r : fetched)
  : list DiscoveredPublication * N :=
  let miss := (discovered s, notFoundCount s + 1) in
  match r with
  | FetchRejects => miss
  | Response status body =>
      if (status =? 200)%Z then
        match body with
        | None => miss
        | Some data =>
            match get data (js "files") with
            | Throw _ => miss
            | Ok files =>
                let langData := get_computed_opt files language_ in
                (if truthy langData then
                   discovered s ++
                     [{| pub := pub_; issue := issueDate s;
                         language := language_;
                         jwpubUrl := file_url langData (js "JWPUB");
                         epubUrl := file_url langData (js "EPUB") |}]
                 else discovered s, 0)
            end
        end
      else if (status =? 404)%Z then miss
      else miss
  end.

(** One turn of the [while] loop: the attempt, then the step to the
    next issue. *)
Definition turn (s : state) (r : fetched) : state :=
  let '(found, count) := attempt s r in
  let month := if decide (pub_ = js "mwb") then currentMonth s + 2
               else currentMonth s + 1 in
  if 12 <? month
  then {| discovered := found; currentMonth := month - 12;
          currentYear := currentYear s + 1; notFoundCount := count |}
  else {| discovered := found; currentMonth := month;
          currentYear := currentYear s; notFoundCount := count |}.

(** The state before the loop; [month] is [now.getMonth() + 1]. *)
Definition start (month : N) : state :=
  {| discovered := [];
     currentMonth := if decide (pub_ = js "mwb")
                     then (if month mod 2 =? 0 then month - 1 else month)
                     else month;
     currentYear := 2025;
     notFoundCount := 0 |}.

(** The [while] loop against the responses [responses i] of the i-th
    request, from request [i] on; [None] when [fuel] turns do not reach
    the end of the loop. *)
Fixpoint loop (maxNotFound : N) (responses : nat -> fetched)
         (fuel i : nat) (s : state) : option (list DiscoveredPublication) :=
  if notFoundCount s <? maxNotFound then
    match fuel with
    | O => None
    | S fuel' =>
        loop maxNotFound responses fuel' (S i) (turn s (responses i))
    end
  else Some (discovered s).

Definition maxNotFound : N := 1.

(** [discover], in the month [month] of the year. *)
Definition discover (month : N) (responses : nat -> fetched) (fuel : nat)
  : option (list DiscoveredPublication) :=
  loop maxNotFound responses fuel O (start month).
End Discover.

End DiscoveryService.

(** ** The document tree of node-html-parser *)

Module Dom.
Import JS.

(** Attributes in source order, each under its name as the document
    spells it, values decoded. *)
Abbreviation attributes := (list (jsstring * jsstring)).

Inductive node : Type :=
| TextNode (rawText : jsstring)
| HTMLElement (rawTagName : jsstring) (attrs : attributes) (childNodes : list node).

(** A reference to an element of a tree: the child indices from the root. *)
Abbreviation path := (list nat).

Definition tagName (n : node) : option jsstring :=
  match n with
  | HTMLElement t _ _ => Some t
  | TextNode _ => None
  end.

Definition attrs_of (n : node) : attributes :=
  match n with
  | HTMLElement _ a _ => a
  | TextNode _ => []
  end.

Definition with_attrs (n : node) (a : attributes) : node :=
  match n with
  | HTMLElement t _ cs => HTMLElement t a cs
  | TextNode _ => n
  end.

(** [name.toLowerCase()] on an attribute name; the names the parser
    accepts are made of ASCII characters. *)
Definition lowerName (k : jsstring) : jsstring :=
  map (fun c => if (65 <=? c) && (c <=? 90) then c + 32 else c) k.

(** [el.attrs[k]]: the parser's loop over the attributes writes each
    under its name in lower case, so that of two spellings of a name the
    later one is read. *)
Fixpoint attr_get (a : attributes) (k : jsstring) : option jsstring :=
  match a with
  | [] => None
  | (k', v) :: a' =>
      match attr_get a' k with
      | Some w => Some w
      | None => if decide (lowerName k' = k) then Some v else None
      end
  end.

(** The first attribute whose name is [k] up to case takes the value
    and keeps its spelling and its place; without one, [k] goes last. *)
Fixpoint attr_set (a : attributes) (k v : jsstring) : attributes :=
  match a with
  | [] => [(k, v)]
  | (k', v') :: a' =>
      if decide (lowerName k' = lowerName k) then (k', v) :: a'
      else (k', v') :: attr_set a' k v
  end.

(** Only an attribute spelled exactly [k] is deleted. *)
Definition attr_remove (a : attributes) (k : jsstring) : attributes :=
  filter (fun kv => kv.1 <> k) a.

(** [el.getAttribute(k)], [undefined] as [None] *)
Definition getAttribute (el : node) (k : jsstring) : option jsstring :=
  attr_get (attrs_of el) (lowerName k).

(** [el.getAttribute(k) || ''] *)
Definition getAttributeOrEmpty (el : node) (k : jsstring) : jsstring :=
  default [] (getAttribute el k).

(** [el.setAttribute(k, v)] *)
Definition setAttribute (el : node) (k v : jsstring) : node :=
  with_attrs el (attr_set (attrs_of el) k v).

(** [el.removeAttribute(k)]: the name is compared as it is written, so
    that [removeAttribute('width')] leaves an attribute [WIDTH]. *)
Definition removeAttribute (el : node) (k : jsstring) : node :=
  with_attrs el (attr_remove (attrs_of el) k).

(** [new Set(tokens)] in insertion order, and [set.add(c)]. *)
Definition set_add (c : jsstring) (set : list jsstring) : list jsstring :=
  if bool_decide (c ∈ set) then set else set ++ [c].

Definition set_of (tokens : list jsstring) : list jsstring :=
  fold_left (fun set c => set_add c set) tokens [].

(** [tokens.join(' ')] *)
Fixpoint join_space (tokens : list jsstring) : jsstring :=
  match tokens with
  | [] => []
  | [t] => t
  | t :: ts => t ++ 32 :: join_space ts
  end.

(** [el.classList.add(c)]: the token set of the [class] attribute (split
    at white space, nothing when the attribute is absent or empty) gets
    [c], and the attribute is rewritten from the set. *)
Definition classList_add (el : node) (c : jsstring) : node :=
  let tokens :=
    match getAttribute el (js "class") with
    | None | Some [] => []
    | Some cls => splitSpaces false cls
    end in
  setAttribute el (js "class") (join_space (set_add c (set_of tokens))).

(** The node at the end of a path. *)
Fixpoint lookup_path (n : node) (p : path) {struct p} : option node :=
  match p with
  | [] => Some n
  | i :: p' =>
      match n with
      | HTMLElement _ _ cs =>
          match cs !! i with
          | Some c => lookup_path c p'
          | None => None
          end
      | TextNode _ => None
      end
  end.

(** In-place change of the element a path refers to. *)
Fixpoint update_path (f : node -> node) (n : node) (p : path) {struct p} : node :=
  match p with
  | [] => f n
  | i :: p' =>
      match n with
      | HTMLElement t a cs =>
          HTMLElement t a (alter (fun c => update_path f c p') i cs)
      | TextNode _ => n
      end
  end.

(** The descendant elements of a node in document order, by reference. *)
Fixpoint element_paths (n : node) : list path :=
  match n with
  | TextNode _ => []
  | HTMLElement _ _ cs =>
      (fix children (i : nat) (cs : list node) {struct cs} : list path :=
         match cs with
         | [] => []
         | c :: cs' =>
             match c with
             | HTMLElement _ _ _ => [[i]]
             | TextNode _ => []
             end ++ map (cons i) (element_paths c) ++ children (S i) cs'
         end) O cs
  end.

Definition has_tag (root : node) (tag : jsstring) (p : path) : bool :=
  bool_decide ((lookup_path root p ≫= tagName) = Some tag).

(** [root.querySelectorAll(tag)] for a type selector. *)
Definition querySelectorAll (root : node) (tag : jsstring) : list path :=
  filter (fun p => has_tag root tag p) (element_paths root).

(** [root.querySelector(tag)]: the first match, [null] as [None]. *)
Definition querySelector (root : node) (tag : jsstring) : option path :=
  head (querySelectorAll root tag).

(** [n.rawText]: the text of the descendants, a [br] element read as a
    line feed. *)
Fixpoint rawText (n : node) : jsstring :=
  match n with
  | TextNode t => t
  | HTMLElement tag _ cs =>
      if decide (tag = js "br") then [10]
      else concat (map rawText cs)
  end.

Section Entities.
(** Decoding of character references in text ([he.decode]). *)
Variable decode : jsstring -> jsstring.

(** [n.textContent] *)
Definition textContent (n : node) : jsstring := decode (rawText n).
End Entities.

End Dom.

(** ** [ParsingService] (src/services/parsing.ts) *)

Module ParsingService.
Import JS Dom.

Inductive reference_type : Type := bible | publication | video.
Inductive asset_type : Type := image | video_asset.

Record ExtractedReference : Type :=
  { ref_type : reference_type; link : jsstring; ref_text : jsstring }.

Record ExtractedAsset : Type :=
  { fileName : jsstring; altText : jsstring; asset_kind : asset_type }.

Record StructuredContent : Type :=
  { id : jsstring;
    title : jsstring;
    references : list ExtractedReference;
    assets : list ExtractedAsset;
    html : jsstring;
    paragraphs : list jsstring }.

#[global] Instance reference_type_eq_dec : EqDecision reference_type.
Proof. solve_decision. Defined.

(** The body of [images.forEach]: the asset an image yields and the
    image as the handler leaves it. *)
Definition fileNameOf (src : jsstring) : jsstring :=
  orElse (default [] (pop (split (replace src (js "jwpub-media://") []) 47))) src.

Definition assetOfImage (img : node) : ExtractedAsset :=
  let src := getAttributeOrEmpty img (js "src") in
  let alt := getAttributeOrEmpty img (js "alt") in
  {| fileName := fileNameOf src; altText := alt; asset_kind := image |}.

Definition rewriteImage (img : node) : node :=
  let src := getAttributeOrEmpty img (js "src") in
  let img1 := setAttribute img (js "src") (js "./assets/" ++ fileNameOf src) in
  let img2 := removeAttribute img1 (js "width") in
  let img3 := removeAttribute img2 (js "height") in
  classList_add img3 (js "jw-image").

(** [images.forEach(...)]: every image, reached through its reference
    into the tree, is read, recorded and rewritten in place. *)
Definition forEachImage (root : node) (images : list path)
  : node * list ExtractedAsset :=
  fold_left
    (fun '(root, assets) p =>
       match lookup_path root p with
       | Some img => (update_path rewriteImage root p, assets ++ [assetOfImage img])
       | None => (root, assets)
       end)
    images (root, []).

Definition videoAsset (v : ExtractedReference) : ExtractedAsset :=
  {| fileName := link v; altText := ref_text v; asset_kind := video_asset |}.

Section Parse.
(** node-html-parser: [parse], [toString] and the decoding of character
    references behind [textContent]. *)
Variable parse : jsstring -> node.
Variable toString : node -> jsstring.
Variable decode : jsstring -> jsstring.

(** The body of [links.forEach]: the references an anchor yields. *)
Definition referencesOfAnchor (a : node) : list ExtractedReference :=
  let href := getAttributeOrEmpty a (js "href") in
  let dataVideo := getAttributeOrEmpty a (js "data-video") in
  let text := trim (textContent decode a) in
  (if startsWith href (js "bible://") then
     [{| ref_type := bible; link := href; ref_text := text |}]
   else if startsWith href (js "jwpub://") then
     [{| ref_type := publication; link := href; ref_text := text |}]
   else [])
  ++
  (if startsWith href (js "webpubvid://") || startsWith dataVideo (js "webpubvid://") then
     [{| ref_type := video; link := orElse dataVideo href;
         ref_text := orElse text (js "Video") |}]
   else []).

(** [root.querySelector(tag)?.textContent?.trim()], [undefined] as the
    empty string (both are falsy). *)
Definition firstText (root : node) (tag : jsstring) : jsstring :=
  match querySelector root tag ≫= lookup_path root with
  | Some el => trim (textContent decode el)
  | None => []
  end.

(** The nodes a list of references denotes. *)
Definition deref (root : node) (ps : list path) : list node :=
  omap (lookup_path root) ps.

(** [parseDocument] *)
Definition parseDocument (html : jsstring) (docId : jsstring) : StructuredContent :=
  let root := parse html in
  let title := orElse (firstText root (js "h1")) (firstText root (js "h2")) in
  let links := querySelectorAll root (js "a") in
  let references := concat (map referencesOfAnchor (deref root links)) in
  let images := querySelectorAll root (js "img") in
  let '(root1, assets) := forEachImage root images in
  let assets1 :=
    assets ++ map videoAsset (filter (fun r => ref_type r = video) references) in
  let paragraphs :=
    filter (fun t => (0 < length t)%nat)
           (map (fun p => trim (textContent decode p))
                (deref root1 (querySelectorAll root1 (js "p")))) in
  {| id := docId; title := title; references := references;
     assets := assets1; html := toString root1; paragraphs := paragraphs |}.
End Parse.

End ParsingService.

(** ** A reference instance of the parser interface

    [parse] and [toString] for plain markup (elements with quoted or bare
    attributes, void elements, text), after node-html-parser: enough to run
    [parseDocument] on concrete documents. Tag names are lowered;
    attribute names, text and attribute values are kept as written. *)

Module HtmlReference.
Import JS Dom.

Definition isLetter (c : N) : bool :=
  ((65 <=? c) && (c <=? 90)) || ((97 <=? c) && (c <=? 122)).
Definition isDigit (c : N) : bool := (48 <=? c) && (c <=? 57).
Definition isNameChar (c : N) : bool :=
  isLetter c || isDigit c || (c =? 45) || (c =? 46) || (c =? 58) || (c =? 95).

Definition asciiLower (s : jsstring) : jsstring :=
  map (fun c => if (65 <=? c) && (c <=? 90) then c + 32 else c) s.

Definition voidTags : list jsstring :=
  map js ["area"; "base"; "br"; "col"; "embed"; "hr"; "img"; "input";
          "link"; "meta"; "param"; "source"; "track"; "wbr"]%string.

Definition isVoid (tag : jsstring) : bool := bool_decide (tag ∈ voidTags).

(** *** Serialization *)

Definition quoteAttribute (v : jsstring) : jsstring :=
  34 :: concat (map (fun c => if c =? 34 then js "&quot;" else [c]) v) ++ [34].

Definition attrsToString (a : attributes) : jsstring :=
  concat (map (fun '(k, v) =>
                 match v with
                 | [] => 32 :: k
                 | _ => 32 :: k ++ 61 :: quoteAttribute v
                 end) a).

(** The root is the element with the empty tag name: it prints as its
    children. *)
Fixpoint toString (n : node) : jsstring :=
  match n with
  | TextNode t => t
  | HTMLElement tag a cs =>
      let inner := concat (map toString cs) in
      match tag with
      | [] => inner
      | _ =>
          if isVoid tag then 60 :: tag ++ attrsToString a ++ [62]
          else 60 :: tag ++ attrsToString a ++ 62 :: inner
                  ++ 60 :: 47 :: tag ++ [62]
      end
  end.

(** *** Parsing *)

Fixpoint span (p : N -> bool) (s : jsstring) : jsstring * jsstring :=
  match s with
  | c :: s' => if p c then let '(a, b) := span p s' in (c :: a, b) else ([], s)
  | [] => ([], [])
  end.

(** The inside of a tag up to its closing [>], quoted text skipped, and
    what follows the tag. *)
Fixpoint tagText (quote : option N) (s : jsstring) : option (jsstring * jsstring) :=
  match s with
  | [] => None
  | c :: s' =>
      let keep q := (fun '(a, b) => (c :: a, b)) <$> tagText q s' in
      match quote with
      | Some q => if c =? q then keep None else keep quote
      | None =>
          if c =? 62 then Some ([], s')
          else if (c =? 34) || (c =? 39) then keep (Some c)
          else keep None
      end
  end.

(** The attributes of a tag as they are written. *)
Fixpoint writtenAttrs (fuel : nat) (s : jsstring) : attributes :=
  match fuel with
  | O => []
  | S fuel' =>
      let s := trimStart s in
      let '(name, rest) := span (fun c => isNameChar c) s in
      match name, rest with
      | [], [] => []
      | [], _ :: rest' => writtenAttrs fuel' rest'
      | _, _ =>
          match trimStart rest with
          | 61 :: v =>
              match trimStart v with
              | q :: v' =>
                  if (q =? 34) || (q =? 39) then
                    let '(value, after) := span (fun c => negb (c =? q)) v' in
                    (name, value) :: writtenAttrs fuel' (tl after)
                  else
                    let '(value, after) :=
                      span (fun c => negb (isWhiteSpace c)) (q :: v') in
                    (name, value) :: writtenAttrs fuel' after
              | [] => [(name, [])]
              end
          | _ => (name, []) :: writtenAttrs fuel' rest
          end
      end
  end.

(** [attrs[key] = attrs[key] || val]: a name written twice in one
    spelling keeps its place and its first value that is not empty. *)
Fixpoint addAttribute (a : attributes) (k v : jsstring) : attributes :=
  match a with
  | [] => [(k, v)]
  | (k', v') :: a' =>
      if decide (k' = k) then (k', orElse v' v) :: a'
      else (k', v') :: addAttribute a' k v
  end.

Definition parseAttrs (fuel : nat) (s : jsstring) : attributes :=
  fold_left (fun a '(k, v) => addAttribute a k v) (writtenAttrs fuel s) [].

Inductive token : Type :=
| Text (t : jsstring)
| Open (tag : jsstring) (a : attributes)
| Close (tag : jsstring).

Definition flush (text : jsstring) (ts : list token) : list token :=
  match text with
  | [] => ts
  | _ => Text (rev text) :: ts
  end.

(** The tokens of a document; [text] holds the pending text, reversed. *)
Fixpoint tokenize (fuel : nat) (s text : jsstring) : list token :=
  match fuel, s with
  | O, _ | _, [] => flush text []
  | S fuel', c :: s' =>
      let plain := tokenize fuel' s' (c :: text) in
      if c =? 60 then
        let '(closing, s1) :=
          match s' with
          | 47 :: s1 => (true, s1)
          | _ => (false, s')
          end in
        let '(name, s2) := span isNameChar s1 in
        match name, tagText None s2 with
        | n0 :: _, Some (inside, after) =>
            if isLetter n0 then
              flush text
                ((if closing then Close (asciiLower name)
                  else Open (asciiLower name) (parseAttrs (S (length inside)) inside))
                   :: tokenize fuel' after [])
            else plain
        | _, _ => plain
        end
      else plain
  end.

(** An open element: its tag, its attributes and its children so far,
    last first. *)
Definition frame : Type := (jsstring * attributes * list node)%type.

Definition add_child (n : node) (f : frame) : frame :=
  let '(tag, a, cs) := f in (tag, a, n :: cs).

Definition close_frame (f : frame) : node :=
  let '(tag, a, cs) := f in HTMLElement tag a (rev cs).

(** Closes the open elements down to the innermost one named [tag]. *)
Fixpoint close_to (tag : jsstring) (f : frame) (stack : list frame)
  : frame * list frame :=
  match stack with
  | [] => (f, [])
  | g :: stack' =>
      if decide (f.1.1 = tag) then (add_child (close_frame f) g, stack')
      else close_to tag (add_child (close_frame f) g) stack'
  end.

Fixpoint build (ts : list token) (f : frame) (stack : list frame) : node :=
  match ts with
  | [] => close_frame (fold_left (fun f g => add_child (close_frame f) g) stack f)
  | Text t :: ts' => build ts' (add_child (TextNode t) f) stack
  | Open tag a :: ts' =>
      if isVoid tag then build ts' (add_child (HTMLElement tag a []) f) stack
      else build ts' (tag, a, []) (f :: stack)
  | Close tag :: ts' =>
      if bool_decide (tag ∈ map (fun g : frame => g.1.1) (removelast (f :: stack)))
      then let '(f', stack') := close_to tag f stack in build ts' f' stack'
      else build ts' f stack
  end.

Definition parse (html : jsstring) : node :=
  build (tokenize (length html) html []) ([], [], []) [].

(** Text without character references decodes to itself. *)
Definition decode (s : jsstring) : jsstring := s.

End HtmlReference.

(** ** [BibleSearchEngine] (the search script of the NWT Bible) *)

(** A [Map] from keys to numbers whose iteration order matters, as the
    [results] of a search: an entry list in insertion order. *)
Module ResultMap.
Section Entries.
Context {K : Type} `{EqDecision K}.

(** [map.set(k, v)]: an existing key keeps its place, a new key goes last. *)
Fixpoint map_set (k : K) (v : N) (m : list (K * N)) : list (K * N) :=
  match m with
  | [] => [(k, v)]
  | (k', v') :: m' =>
      if decide (k' = k) then (k, v) :: m' else (k', v') :: map_set k v m'
  end.

(** [map.get(k) || 0] *)
Fixpoint map_get_or_0 (k : K) (m : list (K * N)) : N :=
  match m with
  | [] => 0
  | (k', v') :: m' => if decide (k' = k) then v' else map_get_or_0 k m'
  end.

(** [entries.sort((a, b) => b[1] - a[1])]: a stable sort by descending
    score. *)
Fixpoint insert_desc (x : K * N) (l : list (K * N)) : list (K * N) :=
  match l with
  | [] => [x]
  | y :: l' => if snd x <? snd y then y :: insert_desc x l' else x :: l
  end.

Definition sort_desc (l : list (K * N)) : list (K * N) :=
  foldr insert_desc [] l.

(** The two nested [forEach] loops of [search]: every id of every
    token's posting list adds one to the id's score. *)
Definition tally (postings : list N -> list K) (tokens : list (list N))
  : list (K * N) :=
  fold_left
    (fun results token =>
       fold_left
         (fun results id => map_set id (map_get_or_0 id results + 1) results)
         (postings token) results)
    tokens [].
End Entries.
End ResultMap.

Module BibleSearchEngine.
Import JS ResultMap.

Record VerseIndex : Type :=
  { id : N; book : jsstring; chapter : jsstring; verse : jsstring;
    text : jsstring; html : jsstring }.

Record engine : Type :=
  { index : gmap jsstring (list N); verses : gmap N VerseIndex }.

Definition empty_engine : engine := {| index := empty; verses := empty |}.

(** The punctuation class of this engine's [tokenize]: that of
    [EpubSearchEngine] without the exclamation and question marks. *)
Definition isPunctuation (c : N) : bool :=
  (c =? 46) || (c =? 44) || (c =? 59) || (c =? 58) || (c =? 34)
  || (c =? 0xAB) || (c =? 0xBB) || (c =? 40) || (c =? 41).

(** A hit; [result_verse] is the [verse] of the source, [undefined] as
    [None]. *)
Record SearchResult : Type := { score : N; result_verse : option VerseIndex }.

Section Unicode.
Variables toLowerCase normalizeNFD : jsstring -> jsstring.

Definition tokenize (text : jsstring) : list jsstring :=
  filter (fun w => (2 <? length w)%nat)
    (splitSpaces false
       (filter (fun c => negb (isPunctuation c))
          (filter (fun c => negb (EpubSearchEngine.isCombiningMark c))
             (normalizeNFD (toLowerCase text))))).

(** The body of [words.forEach] in [addVerse]: the id is pushed without
    looking for it in the list. *)
Definition addWord (id : N) (index : gmap jsstring (list N))
           (word : jsstring) : gmap jsstring (list N) :=
  let index1 :=
    match index !! word with
    | None => <[word := []]> index
    | Some _ => index
    end in
  match index1 !! word with
  | Some ids => <[word := ids ++ [id]]> index1
  | None => index1
  end.

(** [addVerse] *)
Definition addVerse (e : engine) (id : N) (book chapter verse text html : jsstring)
  : engine :=
  let verses1 :=
    <[id := {| id := id; book := book; chapter := chapter; verse := verse;
               text := text; html := html |}]> (verses e) in
  {| index := fold_left (addWord id) (tokenize text) (index e); verses := verses1 |}.

(** [search] *)
Definition search (e : engine) (query : jsstring) : list SearchResult :=
  let tokens := tokenize query in
  match tokens with
  | [] => []
  | _ =>
      map (fun '(id, score) => {| score := score; result_verse := verses e !! id |})
          (sort_desc (tally (fun token => default [] (index e !! token)) tokens))
  end.
End Unicode.
End BibleSearchEngine.

(** ** [DatabaseService] (src/services/database.ts) *)

Module DatabaseService.
Import JS.

(** A cell of a result row, as sql.js hands it over; a number is an
    integer here. *)
Inductive SqlValue : Type :=
| SqlNull
| SqlNumber (n : Z)
| SqlString (s : jsstring)
| SqlBlob (bytes : list N).

(** One result set of [db.exec]: the column names and the rows. *)
Record QueryExecResult : Type :=
  { columns : list jsstring; values : list (list SqlValue) }.

(** The prototype of a row object: [Object.prototype] as for every
    object literal, or what an assignment to [__proto__] put in its
    place. *)
Inductive prototype : Type :=
| ObjectPrototype
| NullPrototype
| BlobPrototype (bytes : list N).

(** A row object: its own properties, a property that holds [undefined]
    as [Some None], and its prototype. *)
Record rowObject : Type :=
  { own : gmap jsstring (option SqlValue); proto : prototype }.

(** [{}] *)
Definition newObject : rowObject := {| own := empty; proto := ObjectPrototype |}.

Definition setOwn (obj : rowObject) (col : jsstring) (v : option SqlValue) : rowObject :=
  {| own := <[col := v]> (own obj); proto := proto obj |}.

Section Assignment.
(** [obj[col] = v] for an object whose prototype is a [Uint8Array] and
    that has no own property [col], [col] not being [__proto__]: the
    typed array and its prototypes decide, by the name and by the host,
    whether the property is made, the assignment dropped or a [TypeError]
    thrown ([None]). *)
Variable assignUnderBlob :
  list N -> rowObject -> jsstring -> option SqlValue -> option rowObject.

(** [obj[col] = v]; [None] when it throws. An own property takes the
    value. Without one, [__proto__] reaches the setter of
    [Object.prototype], which makes [null] or an object the prototype and
    ignores every other value, unless the prototype is [null] already:
    then [__proto__] is a name like any other and becomes an own
    property. *)
Definition assign (obj : rowObject) (col : jsstring) (v : option SqlValue)
  : option rowObject :=
  if decide (is_Some (own obj !! col)) then Some (setOwn obj col v)
  else if decide (col = js "__proto__") then
    match proto obj, v with
    | NullPrototype, _ => Some (setOwn obj col v)
    | _, Some SqlNull => Some {| own := own obj; proto := NullPrototype |}
    | _, Some (SqlBlob bytes) => Some {| own := own obj; proto := BlobPrototype bytes |}
    | _, _ => Some obj
    end
  else
    match proto obj with
    | BlobPrototype bytes => assignUnderBlob bytes obj col v
    | _ => Some (setOwn obj col v)
    end.

(** [columns.forEach((col, i) => { obj[col] = row[i]; })] from column
    [i] on. *)
Fixpoint setColumns (i : nat) (cols : list jsstring) (row : list SqlValue)
         (obj : rowObject) : option rowObject :=
  match cols with
  | [] => Some obj
  | col :: cols' =>
      match assign obj col (row !! i) with
      | Some obj' => setColumns (S i) cols' row obj'
      | None => None
      end
  end.

(** [executeQuery]; the database is what [db.exec] answers, [None] when
    it throws, and [executeQuery] throws with it. *)
Definition executeQuery (db : jsstring -> option (list QueryExecResult))
           (query : jsstring) : option (list rowObject) :=
  match db query with
  | None => None
  | Some results =>
      match results with
      | [] => Some []
      | first :: _ =>
          mapM (fun row => setColumns 0 (columns first) row newObject) (values first)
      end
  end.
End Assignment.
End DatabaseService.

(** ** The orchestrator ([main] of src/index.ts) *)

Module Pipeline.
Import JS DatabaseService.

(** [a.join(',')] on the decimal forms of bytes. *)
Fixpoint joinBytes (bytes : list N) : jsstring :=
  match bytes with
  | [] => []
  | [b] => String_ b
  | b :: bs => String_ b ++ 44 :: joinBytes bs
  end.

Section Template.
(** [String(x)] for a number that is no safe integer: the digits of
    the nearest double, in exponent form from 10^21 on. *)
Variable Number_toString : Z -> jsstring.

(** The string a template literal makes of a property value. *)
Definition templateString (v : option SqlValue) : jsstring :=
  match v with
  | None => js "undefined"
  | Some SqlNull => js "null"
  | Some (SqlNumber n) =>
      if (Z.abs n <? 2 ^ 53)%Z then
        if (n <? 0)%Z then 45 :: String_ (Z.to_N (- n)) else String_ (Z.to_N n)
      else Number_toString n
  | Some (SqlString s) => s
  | Some (SqlBlob bytes) => joinBytes bytes
  end.

(** [pubData.k] for the four names of the template, which no prototype
    has: [undefined] when the object has no such property of its own. *)
Definition field (pubData : rowObject) (k : jsstring) : option SqlValue :=
  default None (own pubData !! k).

(** The [pubCard] template of [main], on the first row of the
    Publication query; a property read on [undefined] throws. *)
Definition pubCard (rows : list rowObject) : result jsstring :=
  match rows with
  | [] => Throw TypeError
  | pubData :: _ =>
      Ok (templateString (field pubData (js "MepsLanguageIndex")) ++ 95 ::
          templateString (field pubData (js "Symbol")) ++ 95 ::
          templateString (field pubData (js "Year")) ++ 95 ::
          templateString (field pubData (js "IssueTagNumber")))
  end.
End Template.

(** [target.issue.substring(0, 4)] *)
Definition substring (s : jsstring) (from to : nat) : jsstring :=
  slice s (Nat.min from to) (Nat.max from to).

Definition issueYear (issue : jsstring) : jsstring := substring issue 0 4.
End Pipeline.

(** * Notions the properties are stated with *)

Module CryptoSpec.
Import JS.

Definition isByte (b : N) : Prop := b < 256.

(** The master key, as the hexadecimal text the embedded constant
    decodes to and as the bytes that text denotes. *)
Definition masterKeyHex : jsstring :=
  js "11cbb5587e32846d4c26790c633da289f66fe5842a3a585ce1bc3a294af5ada7".

Definition masterKey : list N :=
  [0x11; 0xcb; 0xb5; 0x58; 0x7e; 0x32; 0x84; 0x6d;
   0x4c; 0x26; 0x79; 0x0c; 0x63; 0x3d; 0xa2; 0x89;
   0xf6; 0x6f; 0xe5; 0x84; 0x2a; 0x3a; 0x58; 0x5c;
   0xe1; 0xbc; 0x3a; 0x29; 0x4a; 0xf5; 0xad; 0xa7].

(** The text of a buffer as the specification renders it: two
    hexadecimal digits a byte, the high one first, in small letters. *)
Definition hexDigit (d : N) : N := if d <? 10 then 48 + d else 87 + d.

Definition hexOfBytes (bytes : list N) : jsstring :=
  flat_map (fun b => [hexDigit (b / 16); hexDigit (b mod 16)]) bytes.

End CryptoSpec.

Module SearchSpec.
Import JS EpubSearchEngine.

(** Code units on which lower-casing and canonical decomposition change
    nothing: Basic Latin without the capital letters. *)
Definition isPlainAscii (c : N) : bool := (c <? 128) && negb ((65 <=? c) && (c <=? 90)).

(** What the engine needs of [toLowerCase] and [normalize]. *)
Definition fixesPlainAscii (f : jsstring -> jsstring) : Prop :=
  forall s, forallb isPlainAscii s = true -> f s = s.

(** The index of the scenario: node 1, then node 2. *)
Definition loveIndex (toLowerCase normalizeNFD : jsstring -> jsstring) : engine :=
  addNode toLowerCase normalizeNFD
    (addNode toLowerCase normalizeNFD empty_engine
       (js "1") (js "t") (js "<p>love and love</p>"))
    (js "2") (js "t2") (js "<p>love</p>").

Definition node1 : BibleNode :=
  {| id := js "1"; title := js "t"; text := js "love and love";
     html := js "<p>love and love</p>" |}.
Definition node2 : BibleNode :=
  {| id := js "2"; title := js "t2"; text := js "love";
     html := js "<p>love</p>" |}.
End SearchSpec.

Module DiscoverySpec.
Import JS DiscoveryService.

(** The responses the [try] block counts as a miss: a rejected fetch, a
    status other than 200, and a 200 whose body cannot be read. *)
Definition countsAsMiss (r : fetched) : bool :=
  match r with
  | FetchRejects => true
  | Response status body =>
      if (status =? 200)%Z then
        match body with
        | None => true
        | Some data =>
            match get data (js "files") with
            | Throw _ => true
            | Ok _ => false
            end
        end
      else true
  end.

Section Run.
Variables (pub_ language_ : jsstring) (prototypeHas : value -> jsstring -> bool).
Variables (month : N) (responses : nat -> fetched).

(** The loop variables after [n] turns. *)
Fixpoint state_at (n : nat) : state :=
  match n with
  | O => start pub_ month
  | S n' => turn pub_ language_ prototypeHas (state_at n') (responses n')
  end.

(** The length of the run of misses that ends with request [n - 1]. *)
Fixpoint missRun (n : nat) : N :=
  match n with
  | O => 0
  | S n' => if countsAsMiss (responses n') then missRun n' + 1 else 0
  end.
End Run.

Definition triple (d : DiscoveredPublication) : jsstring * jsstring * jsstring :=
  (pub d, issue d, language d).


Definition validMonth (s : state) : Prop := 1 <= currentMonth s <= 12.

Definition months : list N := map N.of_nat (seq 1 12).

(** Months since year 0: it grows with every turn. *)
Definition monthIndex (s : state) : N := 12 * currentYear s + currentMonth s.
End DiscoverySpec.

Module DomSpec.
Import JS Dom.

(** What a node shows of itself: its text, or its tag, its attributes
    and the number of its children. *)
Definition label (n : node) : jsstring + jsstring * attributes * nat :=
  match n with
  | TextNode t => inl t
  | HTMLElement t a cs => inr (t, a, length cs)
  end.

(** The paths to the elements among the children [cs], the first of
    which is child number [i]. *)
Definition child_paths : nat -> list node -> list path :=
  fix children (i : nat) (cs : list node) {struct cs} : list path :=
    match cs with
    | [] => []
    | c :: cs' =>
        match c with
        | HTMLElement _ _ _ => [[i]]
        | TextNode _ => []
        end ++ map (cons i) (element_paths c) ++ children (S i) cs'
    end.

Definition relabel (h : attributes -> attributes)
           (l : jsstring + jsstring * attributes * nat)
  : jsstring + jsstring * attributes * nat :=
  match l with
  | inl t => inl t
  | inr (t, a, k) => inr (t, h a, k)
  end.

(** The tree after [update_path g] at every path of [ps] in turn. *)
Definition update_all (g : node -> node) (ps : list path) (root : node) : node :=
  fold_left (fun r q => update_path g r q) ps root.

(** A change of the attributes alone. *)
Definition onAttrs (h : attributes -> attributes) (n : node) : node :=
  with_attrs n (h (attrs_of n)).

(** The attributes written under a name, in any letter case. *)
Definition named (a : attributes) (k : jsstring) : attributes :=
  filter (fun kv => lowerName kv.1 = k) a.

(** The value a reader of the markup finds under a name: HTML compares
    attribute names without regard to letter case and keeps the first
    attribute of a name. *)
Definition markupAttribute (a : attributes) (k : jsstring) : option jsstring :=
  snd <$> head (named a k).
End DomSpec.

Module ParsingSpec.
Import JS Dom DomSpec ParsingService.

(** The tokens [classList] starts from, and the value
    [classList.add(c)] gives the [class] attribute. *)
Definition tokensOf (cls : option jsstring) : list jsstring :=
  match cls with
  | None | Some [] => []
  | Some cls => splitSpaces false cls
  end.

Definition classValue (cls : option jsstring) (c : jsstring) : jsstring :=
  join_space (set_add c (set_of (tokensOf cls))).

Definition classWith (a : attributes) (c : jsstring) : jsstring :=
  classValue (attr_get a (js "class")) c.

(** [rewriteImage] on the attributes of the image. *)
Definition rewriteAttrs (a : attributes) : attributes :=
  let src := default [] (attr_get a (js "src")) in
  let a1 := attr_set a (js "src") (js "./assets/" ++ fileNameOf src) in
  let a3 := attr_remove (attr_remove a1 (js "width")) (js "height") in
  attr_set a3 (js "class") (classWith a3 (js "jw-image")).

(** The tree [parseDocument] serializes. *)
Definition normalize (root : node) : node :=
  (forEachImage root (querySelectorAll root (js "img"))).1.

(** The image assets [parseDocument] records. *)
Definition imageAssets (root : node) : list ExtractedAsset :=
  (forEachImage root (querySelectorAll root (js "img"))).2.

(** The link of a video reference as the specification words it: the
    [data-video] value when both attributes carry a value, the [href]
    value otherwise. *)
Definition linkAsSpecified (href dataVideo : jsstring) : jsstring :=
  match href, dataVideo with
  | _ :: _, _ :: _ => dataVideo
  | _, _ => href
  end.

Definition noSpace (t : jsstring) : Prop := forall c, c ∈ t -> isWhiteSpace c = false.

Definition noSpaceAtEnds (s : jsstring) : Prop :=
  (forall c, head s = Some c -> isWhiteSpace c = false)
  /\ (forall c, last s = Some c -> isWhiteSpace c = false).








End ParsingSpec.

Module HexSpec.
Import JS CryptoService.

(** The bytes a string of hexadecimal digits denotes, two digits a byte;
    a last digit without a partner denotes nothing. *)
Fixpoint bytesOfDigits (s : jsstring) : list N :=
  match s with
  | c1 :: c2 :: s' => (hexDigitValue c1 * 16 + hexDigitValue c2) :: bytesOfDigits s'
  | _ => []
  end.

(** The lower-case form of a hexadecimal digit. *)
Definition lowerHex (c : N) : N :=
  if (65 <=? c) && (c <=? 70) then c + 32 else c.

(** The longest prefix of even length. *)
Definition evenPrefix (s : jsstring) : jsstring :=
  take (2 * (length s / 2)) s.
End HexSpec.

Module IndexSpec.
Import JS.

(** How often [x] occurs in [l]. *)
Definition occurrences {A} `{EqDecision A} (x : A) (l : list A) : nat :=
  length (filter (eq x) l).

(** The sum of a list of naturals. *)
Definition total (l : list nat) : nat := foldr Nat.add O l.

(** The posting list of a word: [index.get(word) || []]. *)
Definition postings {K} (index : gmap jsstring (list K)) (w : jsstring) : list K :=
  default [] (index !! w).

(** What every sequence of [addNode] calls keeps of an [EpubSearchEngine]:
    no posting list names an id twice, every listed id has a node, and a
    node is stored under its own id. *)
Definition wellFormed (e : EpubSearchEngine.engine) : Prop :=
  (forall w, NoDup (postings (EpubSearchEngine.index e) w))
  /\ (forall w i, i ∈ postings (EpubSearchEngine.index e) w ->
        is_Some (EpubSearchEngine.nodes e !! i))
  /\ (forall i n, EpubSearchEngine.nodes e !! i = Some n -> EpubSearchEngine.id n = i).

(** Scores in descending order. *)
Definition descending (scores : list N) : Prop :=
  StronglySorted (fun a b => b <= a) scores.

(** [x] appended to [l] unless [l] holds it. *)
Definition addOnce {A} `{EqDecision A} (x : A) (l : list A) : list A :=
  if decide (x ∈ l) then l else l ++ [x].

Section Built.
Variables toLowerCase normalizeNFD : jsstring -> jsstring.

(** The engines a program can hold: the empty one and what [addNode]
    makes of them. *)
Inductive built : EpubSearchEngine.engine -> Prop :=
| built_empty : built EpubSearchEngine.empty_engine
| built_addNode e id title html :
    built e -> built (EpubSearchEngine.addNode toLowerCase normalizeNFD e id title html).
End Built.
End IndexSpec.

Module ResultMapSpec.
Import ResultMap.
Section Entries.
Context {K : Type} `{EqDecision K}.

(** The state of the results a search keeps: keys are distinct and are
    the ids with a positive score. *)
Definition tallied (m : list (K * N)) : Prop :=
  NoDup m.*1 /\ forall i, i ∈ m.*1 <-> 0 < map_get_or_0 i m.
End Entries.
End ResultMapSpec.

Module TextSpec.
Import JS.

(** A decimal digit. *)
Definition isDigit (c : N) : bool := (48 <=? c) && (c <=? 57).

(** The years whose decimal form has four digits. *)
Definition fourDigitYears : list N :=
  map (fun i => 1000 + N.of_nat i) (seq 0 (N.to_nat 9000)).
End TextSpec.

Module PipelineSpec.
Import JS DatabaseService.

(** The properties a row gives an object, from column [i] on: every
    column name with the cell under it, a later column of a name
    replacing an earlier one. *)
Fixpoint insertColumns (i : nat) (cols : list jsstring) (row : list SqlValue)
         (m : gmap jsstring (option SqlValue)) : gmap jsstring (option SqlValue) :=
  match cols with
  | [] => m
  | col :: cols' => insertColumns (S i) cols' row (<[col := row !! i]> m)
  end.

(** The columns of the Publication query. *)
Definition publicationColumns : list jsstring :=
  [js "MepsLanguageIndex"; js "Symbol"; js "Year"; js "IssueTagNumber"].

(** The row of a publication. *)
Definition publicationRow (lang : N) (symbol : jsstring) (year tag : N) : list SqlValue :=
  [SqlNumber (Z.of_N lang); SqlString symbol; SqlNumber (Z.of_N year); SqlNumber (Z.of_N tag)].

(** The pubCard of a publication. *)
Definition card (lang : N) (symbol : jsstring) (year tag : N) : jsstring :=
  String_ lang ++ 95 :: symbol ++ 95 :: String_ year ++ 95 :: String_ tag.
End PipelineSpec.

(** * Concrete inputs the properties are run on *)

Module Examples.
Import JS.

(** The responses of a run of [discover]: an issue with files for the
    language, an issue without, then a 404. *)
Definition files (url : string) : DiscoveryService.value :=
  DiscoveryService.VObject
    [(js "files",
      DiscoveryService.VObject
        [(js "S",
          DiscoveryService.VObject
            [(js "JWPUB",
              DiscoveryService.VArray
                [DiscoveryService.VObject
                   [(js "file",
                     DiscoveryService.VObject
                       [(js "url", DiscoveryService.VString (js url))])]])])])].

Definition otherLanguage : DiscoveryService.value :=
  DiscoveryService.VObject
    [(js "files",
      DiscoveryService.VObject [(js "E", DiscoveryService.VObject [])])].

Definition responses (i : nat) : DiscoveryService.fetched :=
  match i with
  | 0%nat => DiscoveryService.Response 200 (Some (files "https://cdn/mwb_S_202509.jwpub"))
  | 1%nat => DiscoveryService.Response 200 (Some otherLanguage)
  | _ => DiscoveryService.Response 404 None
  end.

(** No array, string, number or boolean has a property named like the
    language codes of the examples. *)
Definition noKindNames (v : DiscoveryService.value) (k : jsstring) : bool := false.

(** A decoder of plain ASCII, and pako on the zlib streams of stored
    blocks: stand-ins to run [decryptAndInflate]. *)
Definition asciiDecode (data : list N) : jsstring := data.

Definition adler32 (data : list N) : N :=
  let '(a, b) :=
    fold_left (fun '(a, b) x => let a' := (a + x) mod 65521 in (a', (b + a') mod 65521))
              data (1, 0) in
  b * 65536 + a.

(** The stored blocks at the head of [s]: their bytes and what follows
    the last block; [None] when [s] ends before they do or a block is of
    another kind. *)
Fixpoint storedBlocks (fuel : nat) (s out : list N) : option (list N * list N) :=
  match fuel, s with
  | S fuel', h :: l0 :: l1 :: n0 :: n1 :: rest =>
      let len := N.to_nat (l0 + 256 * l1) in
      if (N.land h 6 =? 0) && (l0 + 256 * l1 + (n0 + 256 * n1) =? 65535)
         && (len <=? length rest)%nat
      then
        if N.odd h then Some (out ++ take len rest, drop len rest)
        else storedBlocks fuel' (drop len rest) (out ++ take len rest)
      else None
  | _, _ => None
  end.

Definition storedInflate (data : list N) : CryptoService.inflated :=
  match storedBlocks (length data) (drop 2 data) [] with
  | Some (out, [c0; c1; c2; c3]) =>
      if ((c0 * 256 + c1) * 256 + c2) * 256 + c3 =? adler32 out
      then CryptoService.Inflated out
      else CryptoService.Rejected (js "incorrect data check")
  | _ => CryptoService.NoResult
  end.

(** A key and a vector, and under them the ciphertexts of: the zlib
    stream of [hi] in one stored block; the two letters [hi]; the first
    five bytes of that stream; nothing. *)
Definition keyHex : jsstring := js "000102030405060708090a0b0c0d0e0f".
Definition ivHex : jsstring := js "101112131415161718191a1b1c1d1e1f".


Definition cipherOfStream : list N :=
  [0x28; 0x6C; 0xE4; 0xD0; 0x07; 0x9C; 0xAF; 0x60;
   0x76; 0xB2; 0xE2; 0x3E; 0x98; 0xD5; 0x46; 0xFE].




(** The text with a double quote for every apostrophe. *)
Definition quoted (s : string) : jsstring :=
  map (fun c => if c =? 39 then 34 else c) (js s).

(** Documents for [parseDocument]. *)
Definition mediaImage : jsstring :=
  js "<p><img src='jwpub-media://x/y/z.jpg' alt='Z' width='3' height='4'></p>".
Definition bareImage : jsstring := js "<img alt='x'>".
Definition videoAnchor : jsstring := js "<a data-video='webpubvid://v'>x</a>".
Definition capitalImage : jsstring :=
  js "<p><img src='jwpub-media://x/y/z.jpg' alt='Z' WIDTH='3' HEIGHT='4'></p>".
Definition twoSources : jsstring := js "<img SRC='x.jpg' src=''>".

Definition parseDoc : jsstring -> jsstring -> ParsingService.StructuredContent :=
  ParsingService.parseDocument HtmlReference.parse HtmlReference.toString HtmlReference.decode.
End Examples.

Module MoreExamples.
Import JS.

(** A server that has every issue. *)
Definition alwaysFound (i : nat) : DiscoveryService.fetched :=
  DiscoveryService.Response 200 (Some (Examples.files "https://cdn/issue.jwpub")).

(** The loop variables in September 2025. *)
Definition september : DiscoveryService.state :=
  {| DiscoveryService.discovered := [];
     DiscoveryService.currentMonth := 9;
     DiscoveryService.currentYear := 2025;
     DiscoveryService.notFoundCount := 0 |}.

(** An index of two nodes, made without case folding or decomposition. *)
Definition twoNodes : EpubSearchEngine.engine :=
  SearchSpec.loveIndex (fun s => s) (fun s => s).

(** Documents for [parseDocument]. *)
Definition bibleAnchor : jsstring := js "<a href='bible://1:1:1'>Gen 1:1</a>".
Definition titled : jsstring := js "<h1> T </h1><p> a b </p><p> </p>".

(** A database with one publication, and one whose result names a
    column twice. *)
Definition publicationDb (query : jsstring)
  : option (list DatabaseService.QueryExecResult) :=
  Some [{| DatabaseService.columns := PipelineSpec.publicationColumns;
           DatabaseService.values :=
             [PipelineSpec.publicationRow 1 (js "mwb") 2025 202509] |}].

Definition repeatedColumn (query : jsstring)
  : option (list DatabaseService.QueryExecResult) :=
  Some [{| DatabaseService.columns := [js "a"; js "b"; js "a"];
           DatabaseService.values :=
             [[DatabaseService.SqlNumber 1; DatabaseService.SqlNumber 2;
               DatabaseService.SqlNumber 3]] |}].

(** A host on which an assignment below a typed array is dropped. *)
Definition dropsUnderBlob (bytes : list N) (obj : DatabaseService.rowObject)
           (col : jsstring) (v : option DatabaseService.SqlValue)
  : option DatabaseService.rowObject := Some obj.

(** A host whose numbers print as nothing: the pubCard of a publication
    does not ask it. *)
Definition noNumberText (n : Z) : jsstring := [].
End MoreExamples.

(** * Properties *)

Section CryptoProofs.
Import JS Platform CryptoService CryptoSpec HexSpec.

Lemma byte_enum (b : N) : b < 256 -> b ∈ map N.of_nat (seq 0 256).
Proof.
  intros Hb. apply list_elem_of_fmap. exists (N.to_nat b). split; [lia|].
  apply elem_of_seq. lia.
Qed.

Lemma byte_forall (P : N -> bool) :
  forallb P (map N.of_nat (seq 0 256)) = true -> forall b, b < 256 -> P b = true.
Proof.
  intros H b Hb. rewrite forallb_forall in H. apply H.
  apply list_elem_of_In, byte_enum, Hb.
Qed.

Lemma hex_of_byte_length b :
  b < 256 -> length (padStart (toString16 b) 2 48) = 2%nat.
Proof.
  intros Hb.
  apply (byte_forall (fun b => Nat.eqb (length (padStart (toString16 b) 2 48)) 2)) in Hb.
  - by apply Nat.eqb_eq.
  - vm_compute. reflexivity.
Qed.

Lemma hex_of_byte_digits b :
  b < 256 -> forallb isHexDigit (padStart (toString16 b) 2 48) = true.
Proof.
  intros Hb.
  apply (byte_forall (fun b => forallb isHexDigit (padStart (toString16 b) 2 48))) in Hb; [done|].
  vm_compute. reflexivity.
Qed.

Lemma bytesToHex_length bytes :
  Forall isByte bytes -> length (bytesToHex bytes) = (2 * length bytes)%nat.
Proof.
  unfold bytesToHex. induction 1 as [|b bs Hb _ IH]; [done|].
  cbn [map concat]. rewrite length_app, IH, hex_of_byte_length by exact Hb. simpl. lia.
Qed.

Lemma bytesToHex_digits bytes :
  Forall isByte bytes -> forallb isHexDigit (bytesToHex bytes) = true.
Proof.
  unfold bytesToHex. induction 1 as [|b bs Hb _ IH]; [done|].
  cbn [map concat]. rewrite forallb_app, IH, hex_of_byte_digits by exact Hb. done.
Qed.

Lemma lxor_byte a b : a < 256 -> b < 256 -> N.lxor a b < 256.
Proof.
  intros Ha Hb.
  destruct (N.eq_dec a 0) as [->|Ha0]; [by rewrite N.lxor_0_l|].
  destruct (N.eq_dec b 0) as [->|Hb0]; [by rewrite N.lxor_0_r|].
  destruct (N.eq_dec (N.lxor a b) 0) as [->|Hne]; [lia|].
  change 256 with (2 ^ 8) in *. apply N.log2_lt_pow2; [lia|].
  eapply N.le_lt_trans; [apply N.log2_lxor|].
  apply N.max_lub_lt; apply N.log2_lt_pow2; lia.
Qed.

Lemma digest_length msg : length (Sha256.digest msg) = 32%nat.
Proof. reflexivity. Qed.

Lemma digest_bytes msg : Forall isByte (Sha256.digest msg).
Proof.
  unfold Sha256.digest, Sha256.bytes_of_hash, Sha256.bytes_of_word.
  repeat (apply Forall_cons; split; [apply N.mod_lt; lia|]). apply Forall_nil_2.
Qed.

(** [xorBuffers] reads its second buffer cyclically. *)
Lemma xorBuffers_lookup buf1 buf2 i b :
  buf1 !! i = Some b ->
  xorBuffers buf1 buf2 !! i
  = Some (N.lxor b (default 0 (buf2 !! (i mod length buf2)%nat)) mod 256).
Proof. intros H. unfold xorBuffers. by rewrite list_lookup_imap, H. Qed.

Lemma xorBuffers_length buf1 buf2 : length (xorBuffers buf1 buf2) = length buf1.
Proof. apply length_imap. Qed.

Lemma xorBuffers_zip buf1 buf2 :
  Forall isByte buf1 -> Forall isByte buf2 -> length buf1 = length buf2 ->
  xorBuffers buf1 buf2 = zip_with N.lxor buf1 buf2.
Proof.
  intros H1 H2 Hlen. apply list_eq. intros i.
  rewrite lookup_zip_with.
  destruct (buf1 !! i) as [b|] eqn:Hb.
  - rewrite (xorBuffers_lookup _ _ _ _ Hb).
    assert (Hi : (i < length buf2)%nat) by (rewrite <- Hlen; eapply lookup_lt_Some, Hb).
    rewrite Nat.mod_small by exact Hi.
    destruct (lookup_lt_is_Some_2 buf2 i Hi) as [k Hk]. rewrite Hk. simpl.
    rewrite N.mod_small; [done|].
    apply lxor_byte.
    + eapply (Forall_lookup_1 _ _ _ _ H1 Hb).
    + eapply (Forall_lookup_1 _ _ _ _ H2 Hk).
  - simpl. apply lookup_ge_None. rewrite xorBuffers_length. by apply lookup_ge_None.
Qed.

Lemma xorBuffers_bytes buf1 buf2 : Forall isByte (xorBuffers buf1 buf2).
Proof.
  apply Forall_lookup. intros i x Hx.
  destruct (buf1 !! i) as [b|] eqn:Hb.
  - rewrite (xorBuffers_lookup _ _ _ _ Hb) in Hx. injection Hx as <-.
    apply N.mod_lt. lia.
  - apply lookup_ge_None in Hb. rewrite <- (xorBuffers_length buf1 buf2) in Hb.
    apply lookup_ge_None in Hb. congruence.
Qed.

Lemma hexToBytes_length hex :
  length (hexToBytes hex) = (length (filter isHexDigit hex) / 2)%nat.
Proof. unfold hexToBytes. by rewrite length_map, length_seq. Qed.

Lemma filter_all_hex s : forallb isHexDigit s = true -> filter isHexDigit s = s.
Proof.
  induction s as [|c s IH]; [done|]. simpl. intros [Hc Hs]%andb_prop.
  rewrite filter_cons_True by (by rewrite Hc). by rewrite IH.
Qed.

Lemma slice_halves (s : jsstring) :
  length s = 64%nat -> slice s 0 32 ++ slice s 32 64 = s.
Proof.
  intros H. unfold slice. cbn [drop Nat.sub].
  change (64 - 32)%nat with 32%nat.
  rewrite <- (take_drop 32 s) at 3. f_equal.
  apply take_ge. rewrite length_drop. lia.
Qed.

Lemma pairs_ind (P : jsstring -> Prop) :
  P [] -> (forall c, P [c]) -> (forall c1 c2 s, P s -> P (c1 :: c2 :: s)) ->
  forall s, P s.
Proof.
  intros H0 H1 H2 s. cut (P s /\ forall c, P (c :: s)); [tauto|].
  induction s as [|c s [IH1 IH2]]; [auto|]. split; [apply IH2|]. intros d. by apply H2.
Qed.

Lemma hexDigitValue_lt c : isHexDigit c = true -> hexDigitValue c < 16.
Proof.
  unfold isHexDigit, hexDigitValue. intros H.
  apply orb_prop in H as [[H|H]%orb_prop|H];
    apply andb_prop in H as [Ha%N.leb_le Hb%N.leb_le];
    repeat (match goal with |- context [?a <=? ?b] => destruct (N.leb_spec a b) end); lia.
Qed.

Lemma hexToBytes_pairs hex :
  hexToBytes hex = bytesOfDigits (filter isHexDigit hex).
Proof.
  unfold hexToBytes.
  assert (Hd : forallb isHexDigit (filter isHexDigit hex) = true).
  { apply forallb_forall. intros c Hc%list_elem_of_In%list_elem_of_filter. by destruct Hc as [Hc%Is_true_true _]. }
  revert Hd. generalize (filter isHexDigit hex) as clean. clear hex.
  induction clean as [|c|c1 c2 s IH] using pairs_ind; [done|done|].
  intros Hd. cbn [forallb] in Hd. apply andb_prop in Hd as [H1 [H2 Hs]%andb_prop].
  cbn [length]. replace (S (S (length s)) / 2)%nat with (S (length s / 2)).
  2:{ change (S (S (length s))) with (1 * 2 + length s)%nat.
      rewrite Nat.add_comm, Nat.div_add by lia. lia. }
  cbn [seq map bytesOfDigits]. f_equal.
  - unfold slice, parseInt16. simpl.
    apply N.mod_small. apply hexDigitValue_lt in H1, H2. lia.
  - rewrite <- fmap_S_seq, <- IH by exact Hs.
    rewrite <- list_fmap_compose. apply list_fmap_ext. intros _ i _. simpl.
    unfold slice.
    replace (S i * 2 + 2 - S i * 2)%nat with (i * 2 + 2 - i * 2)%nat by lia.
    replace (S i * 2)%nat with (S (S (i * 2))) by lia. reflexivity.
Qed.

Lemma hex_of_byte_pair b :
  b < 256 ->
  exists c1 c2, padStart (toString16 b) 2 48 = [c1; c2]
    /\ hexDigitValue c1 * 16 + hexDigitValue c2 = b.
Proof.
  intros Hb.
  apply (byte_forall (fun b =>
    match padStart (toString16 b) 2 48 with
    | [c1; c2] => hexDigitValue c1 * 16 + hexDigitValue c2 =? b
    | _ => false
    end)) in Hb; [|vm_compute; reflexivity].
  destruct (padStart _ _ _) as [|c1 [|c2 [|? ?]]]; try discriminate.
  exists c1, c2. split; [done|]. by apply N.eqb_eq.
Qed.

Lemma bytesOfDigits_bytesToHex bytes :
  Forall isByte bytes -> bytesOfDigits (bytesToHex bytes) = bytes.
Proof.
  unfold bytesToHex. induction 1 as [|b bs Hb _ IH]; [done|].
  cbn [map concat]. destruct (hex_of_byte_pair b Hb) as (c1 & c2 & -> & Hv).
  cbn [app bytesOfDigits]. by rewrite IH, Hv.
Qed.

Lemma hexToBytes_of_hex bytes :
  Forall isByte bytes -> hexToBytes (bytesToHex bytes) = bytes.
Proof.
  intros H. rewrite hexToBytes_pairs, filter_all_hex by (by apply bytesToHex_digits).
  by apply bytesOfDigits_bytesToHex.
Qed.

(** [bytesToHex] renders every byte as the specification asks. *)
Lemma bytesToHex_rendering bytes :
  Forall isByte bytes -> bytesToHex bytes = hexOfBytes bytes.
Proof.
  unfold bytesToHex, hexOfBytes. induction 1 as [|b bs Hb _ IH]; [done|].
  cbn [map concat flat_map]. rewrite IH. f_equal.
  apply (byte_forall (fun b =>
    bool_decide (padStart (toString16 b) 2 48 = [hexDigit (b / 16); hexDigit (b mod 16)])))
    in Hb; [by apply bool_decide_eq_true in Hb|].
  vm_compute. reflexivity.
Qed.

Lemma hexOfBytes_app x y : hexOfBytes (x ++ y) = hexOfBytes x ++ hexOfBytes y.
Proof. unfold hexOfBytes. apply flat_map_app. Qed.

Lemma hexOfBytes_length bytes : length (hexOfBytes bytes) = (2 * length bytes)%nat.
Proof.
  unfold hexOfBytes. induction bytes as [|b bs IH]; [done|].
  cbn [flat_map]. rewrite length_app, IH. cbn [length]. lia.
Qed.

Lemma hexOfBytes_halves bytes n :
  take (2 * n) (hexOfBytes bytes) = hexOfBytes (take n bytes)
  /\ drop (2 * n) (hexOfBytes bytes) = hexOfBytes (drop n bytes).
Proof.
  rewrite <- (take_drop n bytes) at 1 3. rewrite hexOfBytes_app.
  destruct (decide (n <= length bytes)%nat) as [Hle|Hgt].
  - assert (Hl : length (hexOfBytes (take n bytes)) = (2 * n)%nat)
      by (by rewrite hexOfBytes_length, length_take_le).
    rewrite <- Hl at 1 2. by rewrite take_app_length, drop_app_length.
  - rewrite (take_ge bytes n), (drop_ge bytes n) by lia. rewrite app_nil_r.
    rewrite take_ge, drop_ge by (rewrite hexOfBytes_length; lia). done.
Qed.

Lemma masterKey_decoded :
  atob masterKeyBase64 = Ok masterKeyHex /\ hexToBytes masterKeyHex = masterKey.
Proof. split; vm_compute; reflexivity. Qed.

Lemma masterKey_bytes : Forall isByte masterKey.
Proof. unfold masterKey. repeat (apply Forall_cons; split; [reflexivity|]). apply Forall_nil_2. Qed.

(** C1. For every pubCard, [getDeriveKeyAndIv] returns a key and an IV of
    32 hexadecimal characters (16 bytes) each: the base64 constant decodes
    to the hexadecimal text of the 32-byte master key, the 32-byte SHA-256
    digest of the UTF-8 pubCard is xored with it byte for byte (the second
    buffer of [xorBuffers] being read cyclically), and the 64 hexadecimal
    characters of the result, two digits a byte with the high one first,
    are cut into the key (the first 32, the text of the first 16 bytes)
    and the IV (the next 32, the text of the last 16 bytes). *)
Theorem getDeriveKeyAndIv_derivation (pubCard : jsstring) :
  let digest := Sha256.digest (TextEncoder_encode pubCard) in
  let xored := zip_with N.lxor digest masterKey in
  let full := bytesToHex (zip_with N.lxor digest masterKey) in
  atob masterKeyBase64 = Ok masterKeyHex
  /\ hexToBytes masterKeyHex = masterKey
  /\ length masterKey = 32%nat
  /\ length digest = 32%nat
  /\ (forall buf1 buf2 i b, buf1 !! i = Some b ->
        xorBuffers buf1 buf2 !! i
        = Some (N.lxor b (default 0 (buf2 !! (i mod length buf2)%nat)) mod 256))
  /\ length full = 64%nat
  /\ getDeriveKeyAndIv pubCard
     = Ok {| key := take 32 full; iv := take 32 (drop 32 full) |}
  /\ length (take 32 full) = 32%nat
  /\ length (take 32 (drop 32 full)) = 32%nat
  /\ length (hexToBytes (take 32 full)) = 16%nat
  /\ length (hexToBytes (take 32 (drop 32 full))) = 16%nat
  (* the text is the rendering of the bytes, and is read back as them *)
  /\ full = hexOfBytes xored
  /\ getDeriveKeyAndIv pubCard
     = Ok {| key := hexOfBytes (take 16 xored); iv := hexOfBytes (drop 16 xored) |}
  /\ hexToBytes (take 32 full) = take 16 xored
  /\ hexToBytes (take 32 (drop 32 full)) = drop 16 xored
  /\ take 16 xored ++ drop 16 xored = zip_with N.lxor digest masterKey.
Proof.
  intros digest xored full.
  destruct masterKey_decoded as [Hatob Hkey].
  assert (Hd : Forall isByte digest) by apply digest_bytes.
  assert (Hx : xorBuffers digest masterKey = zip_with N.lxor digest masterKey).
  { apply xorBuffers_zip; [exact Hd | exact masterKey_bytes | reflexivity]. }
  assert (Hxb : Forall isByte xored).
  { unfold xored. rewrite <- Hx. apply xorBuffers_bytes. }
  assert (Hfull : length full = 64%nat).
  { unfold full. rewrite bytesToHex_length by exact Hxb.
    rewrite length_zip_with. reflexivity. }
  assert (Hdig : forallb isHexDigit full = true) by (by apply bytesToHex_digits).
  assert (Hhalf : forall part, forallb isHexDigit part = true -> length part = 32%nat ->
                               length (hexToBytes part) = 16%nat).
  { intros part Hp Hl. rewrite hexToBytes_length, filter_all_hex, Hl by exact Hp. reflexivity. }
  assert (Hk : length (take 32 full) = 32%nat) by (rewrite length_take; lia).
  assert (Hi : length (take 32 (drop 32 full)) = 32%nat)
    by (rewrite length_take, length_drop; lia).
  assert (Hrender : full = hexOfBytes xored) by (by apply bytesToHex_rendering).
  assert (Hxl : length xored = 32%nat) by (unfold xored; by rewrite length_zip_with).
  assert (Hkey16 : take 32 full = hexOfBytes (take 16 xored)).
  { rewrite Hrender. apply (hexOfBytes_halves xored 16). }
  assert (Hiv16 : take 32 (drop 32 full) = hexOfBytes (drop 16 xored)).
  { rewrite take_ge by (rewrite length_drop; lia).
    rewrite Hrender. apply (hexOfBytes_halves xored 16). }
  assert (Hget : getDeriveKeyAndIv pubCard
                 = Ok {| key := take 32 full; iv := take 32 (drop 32 full) |}).
  { unfold getDeriveKeyAndIv. rewrite Hatob. cbn [bind]. rewrite Hkey.
    unfold generateSHA256. fold digest. rewrite Hx. fold full.
    unfold slice. reflexivity. }
  assert (Hback : forall part, Forall isByte part -> hexToBytes (hexOfBytes part) = part).
  { intros part Hp. rewrite <- bytesToHex_rendering by done. by apply hexToBytes_of_hex. }
  assert (Hget2 : getDeriveKeyAndIv pubCard
                  = Ok {| key := hexOfBytes (take 16 xored);
                          iv := hexOfBytes (drop 16 xored) |})
    by (by rewrite Hget, Hkey16, Hiv16).
  assert (Hkb : hexToBytes (take 32 full) = take 16 xored)
    by (rewrite Hkey16; apply Hback; by apply Forall_take).
  assert (Hib : hexToBytes (take 32 (drop 32 full)) = drop 16 xored)
    by (rewrite Hiv16; apply Hback; by apply Forall_drop).
  pose proof (take_drop 16 xored) as Htd.
  repeat split; try assumption; try reflexivity.
  - intros. by apply xorBuffers_lookup.
  - by rewrite Hkb, length_take_le by lia.
  - rewrite Hib, length_drop. lia.
Qed.
End CryptoProofs.

Section DecryptProofs.
Import JS Platform CryptoService CryptoSpec.
Variable aes_inv_cipher : list N -> list N -> list N.
Variable pako_stream : list N -> inflated.
Variable TextDecoder_decode : list N -> jsstring.

Local Abbreviation run := (decryptAndInflate aes_inv_cipher pako_stream TextDecoder_decode).

Lemma importKey_cases raw :
  importKey raw = Ok raw \/ importKey raw = Throw DataError.
Proof. unfold importKey. destruct (_ || _); auto. Qed.

Lemma decrypt_cases key iv data :
  (exists plaintext,
      decrypt aes_inv_cipher key iv data = Ok plaintext
      /\ length iv = 16%nat /\ (length data mod 16 = 0)%nat
      /\ unpad (cbc_decrypt aes_inv_cipher (length data / 16) key iv data)
         = Some plaintext)
  \/ (decrypt aes_inv_cipher key iv data = Throw OperationError
      /\ (length iv <> 16%nat \/ (length data mod 16 <> 0)%nat
          \/ unpad (cbc_decrypt aes_inv_cipher (length data / 16) key iv data) = None)).
Proof.
  unfold decrypt.
  destruct (Nat.eqb_spec (length iv) 16); cbn [negb]; [|right; auto].
  destruct (Nat.eqb_spec (length data mod 16) 0); cbn [negb]; [|right; auto].
  destruct (unpad _) as [plaintext|]; [left; eauto|right; auto].
Qed.


End DecryptProofs.

Section SearchProofs.
Import JS EpubSearchEngine SearchSpec.
Variables toLowerCase normalizeNFD : jsstring -> jsstring.
Hypothesis lower_plain : fixesPlainAscii toLowerCase.
Hypothesis nfd_plain : fixesPlainAscii normalizeNFD.

Lemma tokenize_plain s :
  forallb isPlainAscii s = true ->
  tokenize toLowerCase normalizeNFD s
  = filter (fun w => (2 <? length w)%nat)
      (splitSpaces false
         (filter (fun c => negb (isPunctuation c))
            (filter (fun c => negb (isCombiningMark c)) s))).
Proof using lower_plain nfd_plain.
  intros Hs. unfold tokenize. by rewrite lower_plain, nfd_plain.
Qed.

Lemma loveIndex_value :
  loveIndex toLowerCase normalizeNFD
  = {| index := <[js "and" := [js "1"]]> (<[js "love" := [js "1"; js "2"]]> empty);
       nodes := <[js "2" := node2]> (<[js "1" := node1]> empty) |}.
Proof using lower_plain nfd_plain.
  unfold loveIndex, addNode.
  rewrite !tokenize_plain by reflexivity.
  vm_compute. reflexivity.
Qed.

(** C2 (amended). After node 1 with html [<p>love and love</p>] and node 2
    with html [<p>love</p>], the search for [love] returns node 1 and then
    node 2, each with score 1: a posting list holds an id once, so the
    score counts the query tokens a node matches, not their occurrences. *)
Theorem search_love_scores_one_each :
  search toLowerCase normalizeNFD (loveIndex toLowerCase normalizeNFD) (js "love")
  = [ {| score := 1; node := Some node1 |}; {| score := 1; node := Some node2 |} ]
  /\ index (loveIndex toLowerCase normalizeNFD) !! js "love" = Some [js "1"; js "2"].
Proof using lower_plain nfd_plain.
  rewrite loveIndex_value. unfold search.
  rewrite tokenize_plain by reflexivity. split; vm_compute; reflexivity.
Qed.
End SearchProofs.

Section DiscoveryProofs.
Import JS DiscoveryService DiscoverySpec.
Variables (pub_ language_ : jsstring) (prototypeHas : value -> jsstring -> bool).

Lemma attempt_miss s r :
  countsAsMiss r = true ->
  attempt pub_ language_ prototypeHas s r = (discovered s, notFoundCount s + 1).
Proof.
  unfold countsAsMiss, attempt. destruct r as [|status body]; [done|].
  destruct (status =? 200)%Z; [|by destruct (status =? 404)%Z].
  destruct body as [data|]; [|done].
  by destruct (get data (js "files")).
Qed.

Lemma attempt_hit s r :
  countsAsMiss r = false ->
  exists found, attempt pub_ language_ prototypeHas s r = (found, 0)
    /\ (found = discovered s
        \/ exists d, found = discovered s ++ [d]
             /\ triple d = (pub_, issueDate s, language_)).
Proof.
  unfold countsAsMiss, attempt. destruct r as [|status body]; [done|].
  destruct (status =? 200)%Z; [|done].
  destruct body as [data|]; [|done].
  destruct (get data (js "files")) as [files|]; [|done]. intros _.
  destruct (truthy (get_computed_opt prototypeHas files language_)); eexists; (split; [reflexivity|]).
  - right. eexists. split; reflexivity.
  - by left.
Qed.

Lemma turn_fields s r :
  let month := if decide (pub_ = js "mwb") then currentMonth s + 2 else currentMonth s + 1 in
  discovered (turn pub_ language_ prototypeHas s r) = (attempt pub_ language_ prototypeHas s r).1
  /\ notFoundCount (turn pub_ language_ prototypeHas s r) = (attempt pub_ language_ prototypeHas s r).2
  /\ currentMonth (turn pub_ language_ prototypeHas s r) = (if 12 <? month then month - 12 else month)
  /\ currentYear (turn pub_ language_ prototypeHas s r) = (if 12 <? month then currentYear s + 1 else currentYear s).
Proof.
  unfold turn. destruct (attempt pub_ language_ prototypeHas s r) as [found count].
  simpl. by destruct (12 <? _).
Qed.

Section Run.
Variables (month : N) (responses : nat -> fetched).
Local Abbreviation st := (state_at pub_ language_ prototypeHas month responses).
Local Abbreviation run := (missRun responses).

Lemma notFoundCount_missRun n : notFoundCount (st n) = run n.
Proof.
  induction n as [|n IH]; [done|].
  cbn [state_at missRun].
  destruct (turn_fields (st n) (responses n)) as (_ & -> & _).
  destruct (countsAsMiss (responses n)) eqn:Hm.
  - rewrite attempt_miss by done. simpl. by rewrite IH.
  - destruct (attempt_hit (st n) _ Hm) as (found & -> & _). done.
Qed.

Lemma loop_stops m d : forall fuel i,
  (forall k, (i <= k < i + d)%nat -> run k < m) ->
  ~ run (i + d) < m -> (d <= fuel)%nat ->
  loop pub_ language_ prototypeHas m responses fuel i (st i) = Some (discovered (st (i + d))).
Proof.
  induction d as [|d IH]; intros fuel i Hlt Hge Hfuel.
  - rewrite Nat.add_0_r in *.
    destruct fuel; cbn [loop]; rewrite notFoundCount_missRun;
      (destruct (N.ltb_spec (run i) m); [contradiction|done]).
  - destruct fuel as [|fuel]; [lia|]. cbn [loop].
    rewrite notFoundCount_missRun.
    destruct (N.ltb_spec (run i) m) as [_|Hn].
    + change (turn pub_ language_ prototypeHas (st i) (responses i)) with (st (S i)).
      replace (i + S d)%nat with (S i + d)%nat in * by lia.
      apply IH; [|done|lia]. intros k Hk. apply Hlt. lia.
    + exfalso. specialize (Hlt i). lia.
Qed.

Lemma loop_runs_on m : forall fuel i,
  (forall k, (i <= k <= i + fuel)%nat -> run k < m) ->
  loop pub_ language_ prototypeHas m responses fuel i (st i) = None.
Proof.
  induction fuel as [|fuel IH]; intros i Hlt; cbn [loop];
    rewrite notFoundCount_missRun;
    (destruct (N.ltb_spec (run i) m) as [_|Hn];
     [|specialize (Hlt i); lia]); [done|].
  change (turn pub_ language_ prototypeHas (st i) (responses i)) with (st (S i)).
  apply IH. intros k Hk. apply Hlt. lia.
Qed.

Lemma missRun_window n : forall k, (n - N.to_nat (run n) <= k < n)%nat ->
  countsAsMiss (responses k) = true.
Proof.
  induction n as [|n IH]; intros k Hk; [lia|].
  cbn [missRun] in Hk. destruct (countsAsMiss (responses n)) eqn:Hm.
  - destruct (decide (k = n)) as [->|Hne]; [done|]. apply IH. lia.
  - simpl in Hk. lia.
Qed.

Lemma missRun_le n : (N.to_nat (run n) <= n)%nat.
Proof.
  induction n as [|n IH]; [done|]. cbn [missRun].
  destruct (countsAsMiss (responses n)); simpl; lia.
Qed.

Lemma missRun_zero n : run (S n) = 0 -> countsAsMiss (responses n) = false.
Proof. cbn [missRun]. destruct (countsAsMiss (responses n)); [lia|done]. Qed.

Lemma missRun_reset n :
  (0 < N.to_nat (run n) < n)%nat ->
  countsAsMiss (responses (n - N.to_nat (run n) - 1)) = false.
Proof.
  induction n as [|n IH]; [lia|]. cbn [missRun].
  destruct (countsAsMiss (responses n)) eqn:Hm; [|simpl; lia].
  intros Hn. destruct (decide (run n = 0)) as [Hz|Hnz].
  - destruct n as [|n']; [rewrite Hz in Hn; simpl in Hn; lia|].
    rewrite Hz. replace (S (S n') - N.to_nat (0 + 1) - 1)%nat with n' by lia.
    by apply missRun_zero.
  - replace (S n - N.to_nat (run n + 1) - 1)%nat
      with (n - N.to_nat (run n) - 1)%nat by lia.
    apply IH. lia.
Qed.
End Run.

(** C3. When request [n - 1] completes the first run of [m] consecutive
    misses, the loop with threshold [m] makes exactly [n] requests and
    returns the publications collected in them; [discover] is the case
    [m = maxNotFound = 1]. A rejected fetch and every status other than
    200, 404 included, each add one to the counter and leave the
    publications as they are. *)
Theorem discover_stops_after_maxNotFound_misses
        (month : N) (responses : nat -> fetched) (m : N) (n : nat) :
  missRun responses n = m ->
  (forall k, (k < n)%nat -> missRun responses k < m) ->
  (* every kind of failure is one miss and leaves the counter unreset *)
  (forall s r, (r = FetchRejects \/ exists status body, r = Response status body /\ status <> 200%Z) ->
     countsAsMiss r = true
     /\ attempt pub_ language_ prototypeHas s r = (discovered s, notFoundCount s + 1))
  (* the last [m] responses are misses, following a success if any response precedes them *)
  /\ (forall k, (n - N.to_nat m <= k < n)%nat -> countsAsMiss (responses k) = true)
  /\ (N.to_nat m <= n)%nat
  /\ ((0 < N.to_nat m < n)%nat -> countsAsMiss (responses (n - N.to_nat m - 1)%nat) = false)
  (* the loop makes exactly [n] requests and returns what it has collected *)
  /\ (forall fuel, (fuel < n)%nat -> loop pub_ language_ prototypeHas m responses fuel O (start pub_ month) = None)
  /\ (forall fuel, (n <= fuel)%nat ->
        loop pub_ language_ prototypeHas m responses fuel O (start pub_ month)
        = Some (discovered (state_at pub_ language_ prototypeHas month responses n)))
  /\ (m = maxNotFound -> forall fuel, (n <= fuel)%nat ->
        discover pub_ language_ prototypeHas month responses fuel
        = Some (discovered (state_at pub_ language_ prototypeHas month responses n))).
Proof.
  intros Hn Hbefore.
  assert (Hret : forall fuel, (n <= fuel)%nat ->
        loop pub_ language_ prototypeHas m responses fuel O (start pub_ month)
        = Some (discovered (state_at pub_ language_ prototypeHas month responses n))).
  { intros fuel Hfuel.
    apply (loop_stops month responses m n fuel 0%nat); [|simpl; lia|done].
    intros k Hk. apply Hbefore. lia. }
  repeat split.
  - destruct H as [->|(status & body & -> & Hs)]; [done|].
    simpl. by destruct (Z.eqb_spec status 200).
  - apply attempt_miss.
    destruct H as [->|(status & body & -> & Hs)]; [done|].
    simpl. by destruct (Z.eqb_spec status 200).
  - subst m. apply missRun_window.
  - subst m. apply missRun_le.
  - subst m. apply missRun_reset.
  - intros fuel Hfuel.
    apply (loop_runs_on month responses m fuel 0%nat).
    intros k Hk. apply Hbefore. lia.
  - exact Hret.
  - intros -> fuel Hfuel. unfold discover. by apply Hret.
Qed.

(** *** Issue codes *)

Lemma js_inj s t : js s = js t -> s = t.
Proof.
  unfold js. intros H.
  rewrite <- (string_of_list_ascii_of_string s), <- (string_of_list_ascii_of_string t).
  f_equal. revert H. generalize (list_ascii_of_string s) (list_ascii_of_string t).
  induction l as [|a l IH]; intros [|b l'] H; try done.
  simpl in H. injection H as Hab Hl. f_equal; [|by apply IH].
  by rewrite <- (ascii_N_embedding a), <- (ascii_N_embedding b), Hab.
Qed.

Lemma String_inj n n' : String_ n = String_ n' -> n = n'.
Proof.
  unfold String_. intros H%js_inj.
  assert (Hnn : forall k, N.to_uint k <> Decimal.Nil).
  { intros [|p]; [done|]. apply DecimalPos.Unsigned.to_uint_nonnil. }
  apply DecimalN.Unsigned.to_uint_inj.
  assert (Some (N.to_uint n) = Some (N.to_uint n')) as [= ->]; [|done].
  rewrite <- (DecimalString.NilZero.usu _ (Hnn n)), <- (DecimalString.NilZero.usu _ (Hnn n')).
  by rewrite H.
Qed.

Lemma month_enum m : 1 <= m <= 12 -> In m months.
Proof.
  intros Hm. apply list_elem_of_In, list_elem_of_fmap. exists (N.to_nat m).
  split; [lia|]. apply elem_of_seq. lia.
Qed.

Lemma month_code_length m : 1 <= m <= 12 -> length (padStart (String_ m) 2 48) = 2%nat.
Proof.
  intros Hm%month_enum.
  assert (H : forallb (fun m => Nat.eqb (length (padStart (String_ m) 2 48)) 2) months = true)
    by (vm_compute; reflexivity).
  rewrite forallb_forall in H. by apply Nat.eqb_eq, H.
Qed.

Lemma month_code_inj m m' :
  1 <= m <= 12 -> 1 <= m' <= 12 ->
  padStart (String_ m) 2 48 = padStart (String_ m') 2 48 -> m = m'.
Proof.
  intros Hm%month_enum Hm'%month_enum Heq.
  assert (H : forallb (fun a => forallb (fun b =>
                implb (bool_decide (padStart (String_ a) 2 48 = padStart (String_ b) 2 48))
                      (a =? b)) months) months = true)
    by (vm_compute; reflexivity).
  rewrite forallb_forall in H. specialize (H m Hm).
  rewrite forallb_forall in H. specialize (H m' Hm').
  rewrite bool_decide_eq_true_2 in H by exact Heq. by apply N.eqb_eq.
Qed.

Lemma issueDate_inj s s' :
  validMonth s -> validMonth s' -> issueDate s = issueDate s' ->
  currentYear s = currentYear s' /\ currentMonth s = currentMonth s'.
Proof.
  unfold issueDate. intros Hs Hs' H.
  apply app_inj_2 in H as [Hy Hm].
  - split; [by apply String_inj | by apply month_code_inj].
  - by rewrite !month_code_length.
Qed.

(** *** The calendar of the loop *)

Definition monthIndex (s : state) : N := 12 * currentYear s + currentMonth s.

Lemma start_valid month : 1 <= month <= 12 -> validMonth (start pub_ month).
Proof.
  unfold validMonth, start. cbn [currentMonth]. intros Hm.
  destruct (decide (pub_ = js "mwb")); [|done].
  destruct (N.eqb_spec (month mod 2) 0) as [He|]; [|done].
  assert (month <> 1) by (intros ->; done). lia.
Qed.

Lemma turn_calendar s r :
  validMonth s ->
  validMonth (turn pub_ language_ prototypeHas s r)
  /\ monthIndex s < monthIndex (turn pub_ language_ prototypeHas s r).
Proof.
  unfold validMonth, monthIndex. intros Hs.
  destruct (turn_fields s r) as (_ & _ & -> & ->).
  destruct (decide (pub_ = js "mwb"));
    [destruct (N.ltb_spec 12 (currentMonth s + 2))
    |destruct (N.ltb_spec 12 (currentMonth s + 1))]; lia.
Qed.

Section Invariant.
Variables (month : N) (responses : nat -> fetched).
Hypothesis month_range : 1 <= month <= 12.
Local Abbreviation st := (state_at pub_ language_ prototypeHas month responses).

Lemma state_valid n : validMonth (st n).
Proof using month_range.
  induction n as [|n IH]; [by apply start_valid|].
  cbn [state_at]. by apply turn_calendar.
Qed.

Lemma monthIndex_mono n k : (n < k)%nat -> monthIndex (st n) < monthIndex (st k).
Proof using month_range.
  induction 1 as [|k _ IH]; cbn [state_at];
    pose proof (turn_calendar (st n) (responses n) (state_valid n));
    [lia|].
  pose proof (turn_calendar (st k) (responses k) (state_valid k)). lia.
Qed.

Lemma issueDate_distinct n k : issueDate (st n) = issueDate (st k) -> n = k.
Proof using month_range.
  intros H. apply issueDate_inj in H as [Hy Hm]; try apply state_valid.
  destruct (Nat.lt_trichotomy n k) as [Hlt|[->|Hlt]]; [|done|];
    apply monthIndex_mono in Hlt; unfold monthIndex in Hlt; lia.
Qed.

(** The issues collected in [n] turns are, in order, issues the loop
    requested in those turns. *)
Lemma discovered_issues n :
  map triple (discovered (st n))
  `sublist_of` map (fun k => (pub_, issueDate (st k), language_)) (seq 0 n).
Proof.
  induction n as [|n IH]; [done|].
  rewrite seq_S, map_app. cbn [state_at map].
  destruct (turn_fields (st n) (responses n)) as (-> & _).
  destruct (countsAsMiss (responses n)) eqn:Hm.
  - rewrite attempt_miss by done. cbn [fst].
    by apply sublist_inserts_r.
  - destruct (attempt_hit (st n) _ Hm) as (found & -> & [->|(d & -> & Hd)]); cbn [fst].
    + by apply sublist_inserts_r.
    + rewrite map_app. cbn [map]. rewrite Hd. by apply sublist_app.
Qed.

Lemma requested_issues_NoDup n :
  NoDup (map (fun k => (pub_, issueDate (st k), language_)) (seq 0 n)).
Proof using month_range.
  apply NoDup_fmap_2_strong; [|apply NoDup_seq].
  intros a b _ _ [= H]. by apply issueDate_distinct.
Qed.

Lemma discovered_NoDup n : NoDup (map triple (discovered (st n))).
Proof using month_range.
  eapply sublist_NoDup; [apply requested_issues_NoDup|apply discovered_issues].
Qed.

Lemma loop_result m : forall fuel i l,
  loop pub_ language_ prototypeHas m responses fuel i (st i) = Some l ->
  exists n, l = discovered (st n).
Proof.
  induction fuel as [|fuel IH]; intros i l; cbn [loop];
    destruct (notFoundCount (st i) <? m); try done;
    try (intros [= <-]; by eexists).
  change (turn pub_ language_ prototypeHas (st i) (responses i)) with (st (S i)). apply IH.
Qed.
End Invariant.

(** C7. The list [discover] returns holds no two entries with the same
    (pub, issue, language). *)
Theorem discover_no_duplicate_triples
        (month : N) (responses : nat -> fetched) (fuel : nat)
        (l : list DiscoveredPublication) :
  1 <= month <= 12 ->
  discover pub_ language_ prototypeHas month responses fuel = Some l ->
  NoDup (map (fun d => (pub d, issue d, language d)) l).
Proof.
  intros Hm Hl. apply (loop_result month responses) in Hl as [n ->].
  by apply discovered_NoDup.
Qed.

(** A 200 response whose [files] object has no property of the
    language's name, neither its own nor one every object inherits, adds
    no publication, sets the counter to zero and moves to the next issue,
    so the loop goes on with the next request. *)
Lemma language_absent_counts_as_success
      (s : state) (data : value) (props : list (jsstring * value)) :
  get data (js "files") = Ok (VObject props) ->
  language_ ∉ props.*1 ->
  language_ ∉ objectPrototypeNames ->
  let r := Response 200 (Some data) in
  let s' := turn pub_ language_ prototypeHas s r in
  let month := if decide (pub_ = js "mwb") then currentMonth s + 2 else currentMonth s + 1 in
  countsAsMiss r = false
  /\ discovered s' = discovered s
  /\ notFoundCount s' = 0
  /\ currentMonth s' = (if 12 <? month then month - 12 else month)
  /\ currentYear s' = (if 12 <? month then currentYear s + 1 else currentYear s)
  /\ (forall m responses fuel i, notFoundCount s < m -> responses i = r ->
        loop pub_ language_ prototypeHas m responses (S fuel) i s
        = loop pub_ language_ prototypeHas m responses fuel (S i) s').
Proof.
  intros Hfiles Hown Hproto r s' month.
  assert (Hlang : get_computed_opt prototypeHas (VObject props) language_ = VUndefined).
  { unfold get_computed_opt, has_own, inherits. by rewrite !bool_decide_eq_false_2. }
  assert (Hatt : attempt pub_ language_ prototypeHas s r = (discovered s, 0)).
  { unfold attempt, r. cbn [Z.eqb Pos.eqb]. by rewrite Hfiles, Hlang. }
  destruct (turn_fields s r) as (Hd & Hc & Hmo & Hy). fold s' in Hd, Hc, Hmo, Hy.
  rewrite Hatt in Hd, Hc.
  repeat split; try assumption.
  - unfold r, countsAsMiss. change (200 =? 200)%Z with true. cbv iota.
    by rewrite Hfiles.
  - intros m responses fuel i Hlt Hr. cbn [loop].
    destruct (N.ltb_spec (notFoundCount s) m); [|lia]. by rewrite Hr.
Qed.

End DiscoveryProofs.

Section DomFacts.
Import JS Dom DomSpec.

Lemma node_nested_ind (P : node -> Prop) :
  (forall t, P (TextNode t)) ->
  (forall t a cs, Forall P cs -> P (HTMLElement t a cs)) ->
  forall n, P n.
Proof.
  intros Htext Helem. fix IH 1. intros [t|t a cs]; [apply Htext|].
  apply Helem. induction cs as [|c cs IHcs]; constructor; [apply IH|apply IHcs].
Qed.

Lemma element_paths_children t a cs :
  element_paths (HTMLElement t a cs) = child_paths 0 cs.
Proof. reflexivity. Qed.

Lemma child_paths_cons i c cs :
  child_paths i (c :: cs)
  = match c with HTMLElement _ _ _ => [[i]] | TextNode _ => [] end
      ++ map (cons i) (element_paths c) ++ child_paths (S i) cs.
Proof. reflexivity. Qed.

Lemma child_paths_head i cs p :
  p ∈ child_paths i cs -> exists j p', p = j :: p' /\ (i <= j)%nat.
Proof.
  revert i. induction cs as [|c cs IH]; intros i; [by intros ?%elem_of_nil|].
  rewrite child_paths_cons, !elem_of_app. intros [H|[H|H]].
  - destruct c; [by apply elem_of_nil in H|]. apply list_elem_of_singleton in H as ->. eauto.
  - apply list_elem_of_fmap in H as (p' & -> & _). eauto.
  - apply IH in H as (j & p' & -> & Hj). exists j, p'. split; [done|lia].
Qed.

Lemma element_paths_nonempty n : [] ∉ element_paths n.
Proof.
  destruct n as [t|t a cs]; [apply not_elem_of_nil|].
  rewrite element_paths_children. intros (j & p' & [=] & _)%child_paths_head.
Qed.

Lemma child_paths_NoDup i cs :
  Forall (fun c => NoDup (element_paths c)) cs -> NoDup (child_paths i cs).
Proof.
  intros H. revert i. induction H as [|c cs Hc _ IH]; intros i; [constructor|].
  rewrite child_paths_cons. apply NoDup_app. split; [|split].
  - destruct c; [constructor|apply NoDup_singleton].
  - intros p Hp. destruct c; [by apply elem_of_nil in Hp|].
    apply list_elem_of_singleton in Hp as ->. rewrite elem_of_app.
    intros [(p' & [= <-] & Hp')%list_elem_of_fmap|(j & p' & [= <- _] & Hj)%child_paths_head].
    + by apply element_paths_nonempty in Hp'.
    + lia.
  - apply NoDup_app. split; [|split].
    + apply NoDup_fmap_2; [|done]. by intros ?? [=].
    + intros p (p' & -> & _)%list_elem_of_fmap (j & p'' & [= <- _] & Hj)%child_paths_head. lia.
    + apply IH.
Qed.

Lemma element_paths_NoDup n : NoDup (element_paths n).
Proof.
  induction n as [t|t a cs IH] using node_nested_ind; [constructor|].
  rewrite element_paths_children. by apply child_paths_NoDup.
Qed.

Lemma child_paths_complete cs : forall i j c p',
  cs !! j = Some c ->
  (p' = [] /\ is_Some (tagName c)) \/ p' ∈ element_paths c ->
  (i + j)%nat :: p' ∈ child_paths i cs.
Proof.
  induction cs as [|c0 cs IH]; intros i j c p' Hj Hp; [done|].
  rewrite child_paths_cons, !elem_of_app. destruct j as [|j].
  - injection Hj as ->. rewrite Nat.add_0_r. destruct Hp as [[-> [t Ht]]|Hp].
    + left. destruct c; [done|]. apply list_elem_of_singleton. done.
    + right; left. apply list_elem_of_fmap. eauto.
  - right; right. replace (i + S j)%nat with (S i + j)%nat by lia. by eapply IH.
Qed.

Lemma element_paths_complete p : forall n el,
  p <> [] -> lookup_path n p = Some el -> is_Some (tagName el) ->
  p ∈ element_paths n.
Proof.
  induction p as [|i p IH]; intros n el Hne Hl Hel; [done|].
  destruct n as [t|t a cs]; [done|]. cbn [lookup_path] in Hl.
  destruct (cs !! i) as [c|] eqn:Hc; [|done].
  rewrite element_paths_children.
  apply (child_paths_complete cs 0 i c p Hc).
  destruct p as [|i' p'].
  - left. split; [done|]. cbn in Hl. by injection Hl as ->.
  - right. by eapply IH.
Qed.

Lemma querySelectorAll_complete root tag p a cs :
  p <> [] -> lookup_path root p = Some (HTMLElement tag a cs) ->
  p ∈ querySelectorAll root tag.
Proof.
  intros Hne Hl. unfold querySelectorAll. apply list_elem_of_filter. split.
  - unfold has_tag. apply bool_decide_pack. by rewrite Hl.
  - by eapply element_paths_complete.
Qed.

Lemma querySelectorAll_sound root tag p :
  p ∈ querySelectorAll root tag ->
  exists a cs, lookup_path root p = Some (HTMLElement tag a cs).
Proof.
  unfold querySelectorAll. intros [Ht _]%list_elem_of_filter.
  unfold has_tag in Ht. apply bool_decide_unpack in Ht.
  destruct (lookup_path root p) as [[t|t a cs]|]; try done.
  cbn in Ht. injection Ht as ->. eauto.
Qed.

Lemma querySelectorAll_NoDup root tag : NoDup (querySelectorAll root tag).
Proof. apply NoDup_filter, element_paths_NoDup. Qed.


(** *** In-place updates *)

Lemma lookup_update_same g p : forall n,
  lookup_path (update_path g n p) p = g <$> lookup_path n p.
Proof.
  induction p as [|i p IH]; intros n; [done|].
  destruct n as [t|t a cs]; [done|]. cbn [lookup_path update_path].
  rewrite list_lookup_alter_eq. destruct (cs !! i) as [c|]; [|done]. cbn. apply IH.
Qed.

Lemma update_invalid g p : forall n,
  lookup_path n p = None -> update_path g n p = n.
Proof.
  induction p as [|i p IH]; intros n; [done|].
  destruct n as [t|t a cs]; [done|]. cbn [lookup_path update_path].
  intros H. f_equal. apply list_eq. intros j.
  destruct (decide (i = j)) as [<-|Hne].
  - rewrite list_lookup_alter_eq. destruct (cs !! i) as [c|]; [|done].
    cbn. by rewrite IH.
  - by rewrite list_lookup_alter_ne.
Qed.

Lemma label_onAttrs h n :
  label (onAttrs h n)
  = match label n with
    | inl t => inl t
    | inr (t, a, k) => inr (t, h a, k)
    end.
Proof. by destruct n. Qed.

Lemma element_paths_onAttrs h n : element_paths (onAttrs h n) = element_paths n.
Proof. by destruct n. Qed.

Lemma lookup_onAttrs_child h n i p :
  lookup_path (onAttrs h n) (i :: p) = lookup_path n (i :: p).
Proof. by destruct n. Qed.

Lemma lookup_update_other h q : forall n p,
  p <> q ->
  label <$> lookup_path (update_path (onAttrs h) n q) p = label <$> lookup_path n p.
Proof.
  induction q as [|j q IH]; intros n p Hne.
  - destruct p as [|i p]; [done|]. cbn [update_path].
    by rewrite lookup_onAttrs_child.
  - destruct n as [t|t a cs]; [done|]. cbn [update_path].
    destruct p as [|i p].
    + cbn. by rewrite length_alter.
    + cbn [lookup_path]. destruct (decide (j = i)) as [->|Hji].
      * rewrite list_lookup_alter_eq. destruct (cs !! i) as [c|]; [|done].
        cbn. apply IH. congruence.
      * by rewrite list_lookup_alter_ne.
Qed.

Lemma child_paths_alter f j : forall cs i,
  (forall c, element_paths (f c) = element_paths c) ->
  (forall c, tagName (f c) = tagName c) ->
  child_paths i (alter f j cs) = child_paths i cs.
Proof.
  intros cs i Hp Ht. revert i j. induction cs as [|c cs IH]; intros i j; [done|].
  destruct j as [|j]; cbn [alter list_alter]; rewrite !child_paths_cons.
  - rewrite Hp. f_equal. specialize (Ht c). by destruct (f c), c.
  - do 2 f_equal. apply IH.
Qed.

Lemma element_paths_update h q : forall n,
  element_paths (update_path (onAttrs h) n q) = element_paths n.
Proof.
  induction q as [|j q IH]; intros n; [apply element_paths_onAttrs|].
  destruct n as [t|t a cs]; [done|]. cbn [update_path].
  rewrite !element_paths_children. apply child_paths_alter; [apply IH|].
  intros c. destruct q as [|j' q']; [by destruct c|]. by destruct c.
Qed.

Lemma tag_of_label n n' : label n = label n' -> tagName n = tagName n'.
Proof. destruct n, n'; cbn; congruence. Qed.

Lemma attrs_of_label n n' : label n = label n' -> attrs_of n = attrs_of n'.
Proof. destruct n, n'; cbn; congruence. Qed.

Lemma tag_update h q root p :
  lookup_path (update_path (onAttrs h) root q) p ≫= tagName
  = lookup_path root p ≫= tagName.
Proof.
  destruct (decide (p = q)) as [->|Hne].
  - rewrite lookup_update_same. by destruct (lookup_path root q) as [[]|].
  - pose proof (lookup_update_other h q root p Hne) as Hl.
    destruct (lookup_path (update_path (onAttrs h) root q) p),
             (lookup_path root p); cbn in *; try done.
    injection Hl as Hl. by apply tag_of_label.
Qed.

Lemma querySelectorAll_update h q root tag :
  querySelectorAll (update_path (onAttrs h) root q) tag = querySelectorAll root tag.
Proof.
  unfold querySelectorAll. rewrite element_paths_update.
  apply list_filter_iff. intros p. unfold has_tag. by rewrite tag_update.
Qed.

Lemma label_relabel h n : label (onAttrs h n) = relabel h (label n).
Proof. by destruct n. Qed.

Lemma update_all_label h ps : NoDup ps -> forall root p,
  label <$> lookup_path (update_all (onAttrs h) ps root) p
  = (if decide (p ∈ ps) then relabel h else id) <$> (label <$> lookup_path root p).
Proof.
  induction 1 as [|q ps Hq _ IH]; intros root p.
  - cbn. by rewrite option_fmap_id.
  - cbn [update_all fold_left]. fold (update_all (onAttrs h) ps (update_path (onAttrs h) root q)).
    rewrite IH. destruct (decide (p = q)) as [->|Hne].
    + rewrite decide_False by done. rewrite decide_True by left.
      rewrite lookup_update_same, option_fmap_id, <- !option_fmap_compose.
      apply option_fmap_ext. intros n. apply label_relabel.
    + rewrite lookup_update_other by done.
      destruct (decide (p ∈ ps)) as [Hin|Hnin].
      * rewrite decide_True by (by right). done.
      * rewrite decide_False; [done|]. by intros [?|?]%elem_of_cons.
Qed.

Lemma querySelectorAll_update_all h ps tag : forall root,
  querySelectorAll (update_all (onAttrs h) ps root) tag = querySelectorAll root tag.
Proof.
  induction ps as [|q ps IH]; intros root; [done|].
  cbn [update_all fold_left]. fold (update_all (onAttrs h) ps (update_path (onAttrs h) root q)).
  by rewrite IH, querySelectorAll_update.
Qed.

End DomFacts.

Section ParsingFacts.
Import JS Dom DomSpec ParsingService ParsingSpec.

Lemma named_cons k0 v0 a k :
  named ((k0, v0) :: a) k
  = if decide (lowerName k0 = k) then (k0, v0) :: named a k else named a k.
Proof. unfold named. rewrite filter_cons. cbn [fst]. by destruct (decide _). Qed.

(** What is read under a name is the last attribute written under it. *)
Lemma attr_get_named a k : attr_get a k = snd <$> last (named a k).
Proof.
  induction a as [|[k0 v0] a IH]; [done|]. cbn [attr_get]. rewrite named_cons, IH.
  destruct (decide (lowerName k0 = k)).
  - rewrite last_cons. by destruct (last (named a k)).
  - by destruct (last (named a k)).
Qed.

Lemma named_set a k v :
  named (attr_set a k v) (lowerName k)
  = match named a (lowerName k) with
    | [] => [(k, v)]
    | (k0, _) :: r => (k0, v) :: r
    end.
Proof.
  induction a as [|[k0 v0] a IH]; cbn [attr_set].
  - by rewrite named_cons, decide_True.
  - destruct (decide (lowerName k0 = lowerName k)) as [He|Hne].
    + by rewrite !named_cons, !decide_True.
    + rewrite !named_cons, !decide_False by done. exact IH.
Qed.

Lemma named_set_other a k v k' :
  lowerName k <> k' -> named (attr_set a k v) k' = named a k'.
Proof.
  intros Hk. induction a as [|[k0 v0] a IH]; cbn [attr_set].
  - by rewrite named_cons, decide_False.
  - destruct (decide (lowerName k0 = lowerName k)) as [He|Hne].
    + rewrite !named_cons. by rewrite !decide_False by congruence.
    + by rewrite !named_cons, IH.
Qed.

Lemma named_remove a k k' :
  lowerName k <> k' -> named (attr_remove a k) k' = named a k'.
Proof.
  intros Hk. unfold attr_remove. induction a as [|[k0 v0] a IH]; [done|].
  rewrite filter_cons. cbn [fst].
  destruct (decide (k0 <> k)) as [Hne|Heq%dec_stable].
  - by rewrite !named_cons, IH.
  - subst k0. by rewrite named_cons, decide_False.
Qed.

Lemma attr_get_set_other a k v k' :
  lowerName k <> k' -> attr_get (attr_set a k v) k' = attr_get a k'.
Proof. intros Hk. by rewrite !attr_get_named, named_set_other. Qed.

Lemma attr_get_remove a k k' :
  lowerName k <> k' -> attr_get (attr_remove a k) k' = attr_get a k'.
Proof. intros Hk. by rewrite !attr_get_named, named_remove. Qed.

(** The value just set is read back unless the name is written in two
    spellings: the first of them is set, the last of them is read. *)
Lemma attr_get_set a k v k' :
  lowerName k = k' ->
  attr_get (attr_set a k v) k'
  = if decide (1 < length (named a k'))%nat then attr_get a k' else Some v.
Proof.
  intros <-. rewrite !attr_get_named, named_set.
  destruct (named a (lowerName k)) as [|[k0 v0] [|x r]]; try done.
Qed.

Lemma markupAttribute_set a k v k' :
  lowerName k = k' -> markupAttribute (attr_set a k v) k' = Some v.
Proof.
  intros <-. unfold markupAttribute. rewrite named_set.
  by destruct (named a (lowerName k)) as [|[k0 v0] r].
Qed.

Lemma markupAttribute_set_other a k v k' :
  lowerName k <> k' -> markupAttribute (attr_set a k v) k' = markupAttribute a k'.
Proof. intros Hk. unfold markupAttribute. by rewrite named_set_other. Qed.

Lemma markupAttribute_remove a k k' :
  lowerName k <> k' -> markupAttribute (attr_remove a k) k' = markupAttribute a k'.
Proof. intros Hk. unfold markupAttribute. by rewrite named_remove. Qed.

(** A name written once is read as the markup shows it. *)
Lemma markupAttribute_once a k :
  (length (named a k) <= 1)%nat -> markupAttribute a k = attr_get a k.
Proof.
  intros Hlen. rewrite attr_get_named. unfold markupAttribute.
  destruct (named a k) as [|x [|y r]]; try done. cbn in Hlen. lia.
Qed.

(** What [attr_remove] and [attr_set] do to the names as they are
    spelled. *)
Lemma attr_remove_names a k : k ∉ (attr_remove a k).*1.
Proof.
  unfold attr_remove. intros ([k0 v0] & -> & [Hne _]%list_elem_of_filter)%list_elem_of_fmap.
  by apply Hne.
Qed.

Lemma attr_remove_keeps a k k' :
  k' ∉ a.*1 -> k' ∉ (attr_remove a k).*1.
Proof.
  unfold attr_remove. intros Hk ([k0 v0] & -> & [_ Hin]%list_elem_of_filter)%list_elem_of_fmap.
  apply Hk. apply list_elem_of_fmap. by exists (k0, v0).
Qed.


Lemma attr_set_names a k v k' :
  k' ∈ (attr_set a k v).*1 -> k' = k \/ k' ∈ a.*1.
Proof.
  induction a as [|[k0 v0] a IH]; cbn [attr_set].
  - intros [->|?%elem_of_nil]%elem_of_cons; [by left|done].
  - destruct (decide (lowerName k0 = lowerName k)); [by right|].
    rewrite !fmap_cons. intros [->|Hin]%elem_of_cons; [right; left|].
    destruct (IH Hin); [by left|right; by right].
Qed.


Lemma rewriteImage_onAttrs n : rewriteImage n = onAttrs rewriteAttrs n.
Proof. by destruct n. Qed.

Lemma assetOfImage_label n n' : label n = label n' -> assetOfImage n = assetOfImage n'.
Proof.
  intros H%attrs_of_label. unfold assetOfImage, getAttributeOrEmpty, getAttribute.
  by rewrite H.
Qed.

Lemma update_path_ext g g' p : (forall n, g n = g' n) ->
  forall n, update_path g n p = update_path g' n p.
Proof.
  intros Hg. induction p as [|i p IH]; intros n; [apply Hg|].
  destruct n as [t|t a cs]; [done|]. cbn [update_path]. f_equal.
  apply list_alter_ext; [|done]. intros c _. apply IH.
Qed.

Lemma forEachImage_fold root ps : forall T acc,
  NoDup ps ->
  (forall p, p ∈ ps -> label <$> lookup_path T p = label <$> lookup_path root p) ->
  fold_left
    (fun '(root, assets) p =>
       match lookup_path root p with
       | Some img => (update_path rewriteImage root p, assets ++ [assetOfImage img])
       | None => (root, assets)
       end) ps (T, acc)
  = (update_all (onAttrs rewriteAttrs) ps T,
     acc ++ omap (fun p => assetOfImage <$> lookup_path root p) ps).
Proof.
  induction ps as [|q ps IH]; intros T acc Hnd HT.
  - cbn. by rewrite app_nil_r.
  - apply NoDup_cons in Hnd as [Hq Hnd].
    cbn [fold_left update_all omap list_omap].
    fold (update_all (onAttrs rewriteAttrs) ps (update_path (onAttrs rewriteAttrs) T q)).
    pose proof (HT q ltac:(left)) as Hlq.
    destruct (lookup_path T q) as [img|] eqn:HTq.
    + destruct (lookup_path root q) as [img0|] eqn:Hrq; [|done].
      cbn in Hlq. injection Hlq as Hlq. cbn [fmap option_fmap option_map].
      rewrite (update_path_ext _ _ q rewriteImage_onAttrs).
      rewrite IH; [|done|].
      * rewrite (assetOfImage_label _ _ Hlq). by rewrite <- app_assoc.
      * intros p Hp. rewrite lookup_update_other by (intros ->; done).
        apply HT. by right.
    + destruct (lookup_path root q) as [img0|] eqn:Hrq; [done|].
      cbn [fmap option_fmap option_map].
      rewrite (update_invalid _ _ _ HTq).
      apply IH; [done|]. intros p Hp. apply HT. by right.
Qed.

Lemma forEachImage_spec root :
  forEachImage root (querySelectorAll root (js "img"))
  = (update_all (onAttrs rewriteAttrs) (querySelectorAll root (js "img")) root,
     omap (fun p => assetOfImage <$> lookup_path root p)
          (querySelectorAll root (js "img"))).
Proof.
  unfold forEachImage. rewrite (forEachImage_fold root); [done| |done].
  apply querySelectorAll_NoDup.
Qed.

(** Every image of the tree is recorded and rewritten; its children are
    the only thing the tree keeps of it besides the tag. *)
Lemma normalize_image root p a cs :
  p <> [] -> lookup_path root p = Some (HTMLElement (js "img") a cs) ->
  (exists cs', lookup_path (normalize root) p
               = Some (HTMLElement (js "img") (rewriteAttrs a) cs'))
  /\ assetOfImage (HTMLElement (js "img") a cs) ∈ imageAssets root.
Proof.
  intros Hne Hl. unfold normalize, imageAssets. rewrite forEachImage_spec. cbn [fst snd].
  pose proof (querySelectorAll_complete _ _ _ _ _ Hne Hl) as Hin.
  split.
  - pose proof (update_all_label rewriteAttrs _ (querySelectorAll_NoDup root (js "img")) root p) as H.
    rewrite decide_True, Hl in H by done. cbn in H.
    destruct (lookup_path (update_all _ _ root) p) as [[t|t a' cs']|]; cbn in H; try done.
    injection H as -> -> _. eauto.
  - apply list_elem_of_omap. exists p. split; [done|]. by rewrite Hl.
Qed.
End ParsingFacts.

Ltac key_neq := let H := fresh in intros H; vm_compute in H; discriminate H.

Section ParseDocumentProofs.
Import JS Dom DomSpec ParsingService ParsingSpec.
Variable parse : jsstring -> node.
Variable toString : node -> jsstring.
Variable decode : jsstring -> jsstring.

Local Abbreviation parseDoc := (parseDocument parse toString decode).

Lemma parseDocument_fields html docId :
  let r := parseDoc html docId in
  let root := parse html in
  ParsingService.html r = toString (normalize root)
  /\ references r
     = concat (map (referencesOfAnchor decode)
                   (deref root (querySelectorAll root (js "a"))))
  /\ assets r
     = imageAssets root
         ++ map videoAsset (filter (fun v => ref_type v = video) (references r)).
Proof.
  cbv zeta. unfold parseDocument, normalize, imageAssets.
  by destruct (forEachImage (parse html) _) as [root1 assets0].
Qed.

(** The attributes of a rewritten image. *)
Lemma rewriteAttrs_spec a :
  let v := js "./assets/" ++ fileNameOf (default [] (attr_get a (js "src"))) in
  let a3 := attr_remove (attr_remove (attr_set a (js "src") v) (js "width")) (js "height") in
  rewriteAttrs a = attr_set a3 (js "class") (classWith a3 (js "jw-image"))
  /\ markupAttribute (rewriteAttrs a) (js "src") = Some v
  /\ (js "width" ∉ (rewriteAttrs a).*1)
  /\ (js "height" ∉ (rewriteAttrs a).*1)
  /\ markupAttribute (rewriteAttrs a) (js "class") = Some (classWith a3 (js "jw-image"))
  /\ attr_get a3 (js "class") = attr_get a (js "class")
  /\ forall k, k <> js "src" -> k <> js "width" -> k <> js "height" -> k <> js "class" ->
       attr_get (rewriteAttrs a) k = attr_get a k.
Proof.
  intros v a3. unfold rewriteAttrs. cbv zeta. fold v. fold a3.
  split; [done|]. split; [|split; [|split; [|split; [|split]]]].
  - rewrite markupAttribute_set_other by key_neq. unfold a3.
    rewrite !markupAttribute_remove by key_neq. by apply markupAttribute_set.
  - intros [Hk|Hin]%attr_set_names; [revert Hk; key_neq|].
    revert Hin. apply attr_remove_keeps, attr_remove_names.
  - intros [Hk|Hin]%attr_set_names; [revert Hk; key_neq|].
    revert Hin. apply attr_remove_names.
  - by apply markupAttribute_set.
  - unfold a3. rewrite !attr_get_remove by key_neq.
    by rewrite attr_get_set_other by key_neq.
  - intros k Hs Hw Hh Hc. rewrite attr_get_set_other by done. unfold a3.
    rewrite !attr_get_remove by done. by rewrite attr_get_set_other.
Qed.

(** The source that was set is read back when [src] is written once. *)
Lemma rewriteAttrs_src_once a :
  (length (named a (js "src")) <= 1)%nat ->
  attr_get (rewriteAttrs a) (js "src")
  = Some (js "./assets/" ++ fileNameOf (default [] (attr_get a (js "src")))).
Proof.
  intros Hlen. unfold rewriteAttrs. cbv zeta.
  rewrite attr_get_set_other by key_neq. rewrite !attr_get_remove by key_neq.
  rewrite attr_get_set by done. rewrite decide_False by lia. done.
Qed.

Lemma image_rewritten html docId p a cs :
  p <> [] -> lookup_path (parse html) p = Some (HTMLElement (js "img") a cs) ->
  let r := parseDoc html docId in
  exists root' cs',
    ParsingService.html r = toString root'
    /\ lookup_path root' p = Some (HTMLElement (js "img") (rewriteAttrs a) cs')
    /\ In {| fileName := fileNameOf (default [] (attr_get a (js "src")));
             altText := default [] (attr_get a (js "alt"));
             asset_kind := image |} (assets r).
Proof.
  intros Hne Hl r.
  destruct (parseDocument_fields html docId) as (Hhtml & _ & Hassets).
  destruct (normalize_image _ _ _ _ Hne Hl) as [[cs' Hcs'] Hin].
  exists (normalize (parse html)), cs'. repeat split; [done..|].
  fold r in Hassets. rewrite Hassets. apply in_or_app. left.
  by apply list_elem_of_In.
Qed.

(** C10. An [img] element without [src], or with an empty one, yields an
    image asset with the empty file name and the [alt] text of the
    element, and is written with the [src] [./assets/], which is also
    what is read from the element again unless [src] is written in two
    spellings. *)
Theorem parseDocument_image_without_src html docId p a cs :
  p <> [] -> lookup_path (parse html) p = Some (HTMLElement (js "img") a cs) ->
  attr_get a (js "src") = None \/ attr_get a (js "src") = Some [] ->
  let r := parseDoc html docId in
  exists root' a' cs',
    ParsingService.html r = toString root'
    /\ lookup_path root' p = Some (HTMLElement (js "img") a' cs')
    /\ markupAttribute a' (js "src") = Some (js "./assets/")
    /\ ((length (named a (js "src")) <= 1)%nat ->
        attr_get a' (js "src") = Some (js "./assets/"))
    /\ In {| fileName := [];
             altText := default [] (attr_get a (js "alt"));
             asset_kind := image |} (assets r).
Proof.
  intros Hne Hl Hsrc r.
  destruct (image_rewritten html docId p a cs Hne Hl) as (root' & cs' & Hh & Hl' & Hin).
  destruct (rewriteAttrs_spec a) as (_ & Hs & _).
  pose proof (rewriteAttrs_src_once a) as Honce.
  assert (Hd : default [] (attr_get a (js "src")) = []) by (by destruct Hsrc as [-> | ->]).
  rewrite Hd in Hs, Hin, Honce.
  exists root', (rewriteAttrs a), cs'. repeat split; try done.
Qed.

(** C6 (amended). An anchor whose [href] or [data-video] starts with
    [webpubvid://] yields a video reference whose link is the
    [data-video] value unless that is empty, and the [href] value then,
    and whose text is the trimmed text of the anchor, or [Video] when
    that is empty; every video reference is also an asset of kind video
    with the link as its file name. *)
Theorem parseDocument_video_reference html docId p a cs :
  let href := default [] (attr_get a (js "href")) in
  let dataVideo := default [] (attr_get a (js "data-video")) in
  let text := trim (decode (rawText (HTMLElement (js "a") a cs))) in
  let r := parseDoc html docId in
  p <> [] -> lookup_path (parse html) p = Some (HTMLElement (js "a") a cs) ->
  startsWith href (js "webpubvid://") = true
    \/ startsWith dataVideo (js "webpubvid://") = true ->
  In {| ref_type := video;
        link := match dataVideo with [] => href | _ => dataVideo end;
        ref_text := match text with [] => js "Video" | _ => text end |}
     (references r)
  /\ forall v, In v (references r) -> ref_type v = video ->
       In {| fileName := link v; altText := ref_text v; asset_kind := video_asset |}
          (assets r).
Proof.
  intros href dataVideo text r Hne Hl Hvid.
  destruct (parseDocument_fields html docId) as (_ & Hrefs & Hassets).
  fold r in Hrefs, Hassets. split.
  - rewrite Hrefs. apply in_concat.
    exists (referencesOfAnchor decode (HTMLElement (js "a") a cs)). split.
    + apply in_map. apply list_elem_of_In. unfold deref. apply list_elem_of_omap.
      exists p. split; [|done]. by eapply querySelectorAll_complete.
    + unfold referencesOfAnchor, getAttributeOrEmpty, getAttribute, textContent.
      cbn [attrs_of].
      change (lowerName (js "href")) with (js "href").
      change (lowerName (js "data-video")) with (js "data-video").
      fold href dataVideo text. apply in_or_app. right.
      assert (startsWith href (js "webpubvid://") || startsWith dataVideo (js "webpubvid://") = true) as ->
        by (by apply orb_true_iff).
      left. done.
  - intros v Hv Hty. rewrite Hassets. apply in_or_app. right.
    change {| fileName := link v; altText := ref_text v; asset_kind := video_asset |}
      with (videoAsset v).
    apply in_map. apply list_elem_of_In, list_elem_of_filter. split; [done|].
    by apply list_elem_of_In.
Qed.
End ParseDocumentProofs.

Section StringFacts.
Import JS.

Lemma startsWith_prefix s p : startsWith s p = true -> exists s', s = p ++ s'.
Proof.
  revert s. induction p as [|c p IH]; intros s; [by exists s|].
  destruct s as [|d s]; [done|]. cbn [startsWith].
  intros [Hc Hs]%andb_prop. apply N.eqb_eq in Hc as ->.
  destruct (IH _ Hs) as [s' ->]. by exists s'.
Qed.

Lemma replace_absent s pat rep c :
  c ∈ pat -> c ∉ s -> replace s pat rep = s.
Proof.
  intros Hc. induction s as [|d s IH]; intros Hs.
  - cbn [replace]. destruct (startsWith [] pat) eqn:Hp; [|done].
    apply startsWith_prefix in Hp as [s' Hp]. destruct pat; [by apply elem_of_nil in Hc|done].
  - cbn [replace]. destruct (startsWith (d :: s) pat) eqn:Hp.
    + apply startsWith_prefix in Hp as [s' Hp]. exfalso. apply Hs.
      rewrite Hp. apply elem_of_app. by left.
    + rewrite IH; [done|]. intros ?. apply Hs. by right.
Qed.

Lemma split_absent s sep : sep ∉ s -> split s sep = [s].
Proof.
  induction s as [|c s IH]; intros Hs; [done|]. cbn [split].
  destruct (N.eqb_spec c sep) as [->|Hne]; [exfalso; apply Hs; by left|].
  rewrite IH; [done|]. intros ?. apply Hs. by right.
Qed.

Lemma startsWith_app p s : startsWith (p ++ s) p = true.
Proof. induction p as [|c p IH]; [by destruct s|]. simpl. by rewrite N.eqb_refl, IH. Qed.

Lemma split_not_nil s sep : split s sep <> [].
Proof.
  induction s as [|c s IH]; cbn [split]; [done|].
  destruct (c =? sep); [done|]. by destruct (split s sep).
Qed.

Lemma split_app_sep a b sep : split (a ++ sep :: b) sep = split a sep ++ split b sep.
Proof.
  induction a as [|c a IH]; cbn [app split].
  - by rewrite N.eqb_refl.
  - rewrite IH. destruct (c =? sep); [done|].
    pose proof (split_not_nil a sep). by destruct (split a sep).
Qed.

Lemma replace_prefix p s : replace (p ++ s) p [] = s.
Proof.
  pose proof (startsWith_app p s) as Hp. pose proof (drop_app_length p s) as Hd.
  destruct (p ++ s) as [|d r]; cbn [replace]; by rewrite Hp.
Qed.

End StringFacts.

Section TokenFacts.
Import JS Dom ParsingSpec.





Lemma splitSpaces_initial_flag s c b :
  isWhiteSpace c = false -> splitSpaces b (c :: s) = splitSpaces false (c :: s).
Proof. intros Hc. cbn [splitSpaces]. by rewrite Hc. Qed.

Lemma splitSpaces_token t : forall rest,
  noSpace t ->
  splitSpaces false (t ++ 32 :: rest) = t :: splitSpaces true rest.
Proof.
  induction t as [|c t IH]; intros rest Ht; [done|].
  cbn [app splitSpaces]. rewrite (Ht c) by left.
  rewrite IH; [done|]. intros d Hd. apply Ht. by right.
Qed.

Lemma splitSpaces_single t : noSpace t -> splitSpaces false t = [t].
Proof.
  induction t as [|c t IH]; intros Ht; [done|].
  cbn [splitSpaces]. rewrite (Ht c) by left.
  rewrite IH; [done|]. intros d Hd. apply Ht. by right.
Qed.

Lemma join_space_cons t ts :
  join_space (t :: ts) = match ts with [] => t | _ => t ++ 32 :: join_space ts end.
Proof. by destruct ts. Qed.

Lemma splitSpaces_join ts :
  ts <> [] -> (forall t, t ∈ ts -> t <> [] /\ noSpace t) ->
  splitSpaces false (join_space ts) = ts.
Proof.
  induction ts as [|t ts IH]; intros Hne Hts; [done|].
  rewrite join_space_cons. destruct ts as [|t2 ts].
  - apply splitSpaces_single. apply Hts. by left.
  - rewrite splitSpaces_token by (apply Hts; by left). f_equal.
    destruct (Hts t2) as [Hne2 Hns2]; [right; by left|].
    destruct t2 as [|c t2]; [done|].
    assert (exists rest, join_space ((c :: t2) :: ts) = c :: rest) as [rest Hrest]
      by (rewrite join_space_cons; destruct ts; eauto).
    rewrite Hrest, splitSpaces_initial_flag, <- Hrest by (apply Hns2; by left).
    apply IH; [done|]. intros t' Ht'. apply Hts. by right.
Qed.

(** *** Token sets *)

Lemma set_add_elem c x set : x ∈ set_add c set <-> x = c \/ x ∈ set.
Proof.
  unfold set_add. case_bool_decide as Hc.
  - split; [by right|]. by intros [->|?].
  - rewrite elem_of_app, list_elem_of_singleton. tauto.
Qed.

Lemma set_add_NoDup c set : NoDup set -> NoDup (set_add c set).
Proof.
  intros Hnd. unfold set_add. case_bool_decide as Hc; [done|].
  apply NoDup_app. split; [done|]. split; [|apply NoDup_singleton].
  by intros x Hx ->%list_elem_of_singleton.
Qed.


Lemma set_fold_spec tokens : forall acc,
  let set := fold_left (fun set c => set_add c set) tokens acc in
  (NoDup acc -> NoDup set) /\ (forall x, x ∈ set -> x ∈ acc \/ x ∈ tokens).
Proof.
  induction tokens as [|t tokens IH]; intros acc; cbn [fold_left].
  - split; [done|]. by left.
  - destruct (IH (set_add t acc)) as [IHnd IHin]. split.
    + intros Hnd. by apply IHnd, set_add_NoDup.
    + intros x [Hx|Hx]%IHin; [|right; by right].
      apply set_add_elem in Hx as [->|Hx]; [right; by left|by left].
Qed.







Lemma set_of_NoDup tokens : NoDup (set_of tokens).
Proof. apply (proj1 (set_fold_spec tokens [])). constructor. Qed.



(** *** Where the empty tokens of a split are *)




(** *** Reading a joined token list back *)








End TokenFacts.

Section ImageStable.
Import JS Dom DomSpec ParsingService ParsingSpec.












End ImageStable.

Section Idempotence.
Import JS Dom DomSpec ParsingService ParsingSpec.


Variable parse : jsstring -> node.
Variable toString : node -> jsstring.
Variable decode : jsstring -> jsstring.

End Idempotence.

(** * Further properties of the services *)

Section HexProofs.
Import JS Platform CryptoService CryptoSpec HexSpec.

(** X1. [hexToBytes] undoes [bytesToHex]: the bytes of a buffer are read
    back from its hexadecimal text. *)
Theorem hexToBytes_bytesToHex (bytes : list N) :
  Forall isByte bytes -> hexToBytes (bytesToHex bytes) = bytes.
Proof.
  intros Hbytes.
  rewrite hexToBytes_pairs, filter_all_hex by (by apply bytesToHex_digits).
  unfold bytesToHex. induction Hbytes as [|b bs Hb _ IH]; [done|].
  cbn [map concat]. destruct (hex_of_byte_pair b Hb) as (c1 & c2 & -> & Hv).
  cbn [app bytesOfDigits]. by rewrite IH, Hv.
Qed.

Lemma hex_pair_text c1 c2 :
  isHexDigit c1 = true -> isHexDigit c2 = true ->
  padStart (toString16 (hexDigitValue c1 * 16 + hexDigitValue c2)) 2 48
  = [lowerHex c1; lowerHex c2].
Proof.
  intros H1 H2.
  assert (Hall : forallb (fun c1 => forallb (fun c2 =>
            implb (isHexDigit c1 && isHexDigit c2)
              (if decide (padStart (toString16 (hexDigitValue c1 * 16 + hexDigitValue c2)) 2 48
                  = [lowerHex c1; lowerHex c2]) then true else false))
            (map N.of_nat (seq 0 128))) (map N.of_nat (seq 0 128)) = true)
    by (vm_compute; reflexivity).
  assert (Hs : forall c, isHexDigit c = true -> In c (map N.of_nat (seq 0 128))).
  { intros c Hc. apply list_elem_of_In, list_elem_of_fmap. exists (N.to_nat c).
    split; [lia|]. apply elem_of_seq. unfold isHexDigit in Hc.
    apply orb_prop in Hc as [[H|H]%orb_prop|H];
    apply andb_prop in H as [Ha%N.leb_le Hb%N.leb_le]; lia. }
  rewrite forallb_forall in Hall. specialize (Hall c1 (Hs c1 H1)).
  rewrite forallb_forall in Hall. specialize (Hall c2 (Hs c2 H2)).
  rewrite H1, H2 in Hall. simpl in Hall. by destruct (decide _).
Qed.

Lemma bytesToHex_bytesOfDigits s :
  forallb isHexDigit s = true ->
  bytesToHex (bytesOfDigits s) = map lowerHex (evenPrefix s).
Proof.
  unfold evenPrefix. induction s as [|c|c1 c2 s IH] using pairs_ind; [done|done|].
  intros Hd. cbn [forallb] in Hd. apply andb_prop in Hd as [H1 [H2 Hs]%andb_prop].
  cbn [length]. replace (S (S (length s)) / 2)%nat with (S (length s / 2)).
  2:{ change (S (S (length s))) with (1 * 2 + length s)%nat.
      rewrite Nat.add_comm, Nat.div_add by lia. lia. }
  replace (2 * S (length s / 2))%nat with (S (S (2 * (length s / 2)))) by lia.
  cbn [take map bytesOfDigits]. rewrite <- IH by exact Hs.
  unfold bytesToHex. cbn [map concat]. by rewrite hex_pair_text.
Qed.

Lemma filter_hex_digits hex : forallb isHexDigit (filter isHexDigit hex) = true.
Proof.
  apply forallb_forall. intros c Hc%list_elem_of_In%list_elem_of_filter.
  by destruct Hc as [Hc%Is_true_true _].
Qed.

(** X2. [bytesToHex] after [hexToBytes] gives the hexadecimal digits of
    the text, in lower case, without the characters that are no digits and
    without a last digit that has no partner. *)
Theorem bytesToHex_hexToBytes (hex : jsstring) :
  bytesToHex (hexToBytes hex)
  = map lowerHex (evenPrefix (filter isHexDigit hex)).
Proof.
  rewrite hexToBytes_pairs. apply bytesToHex_bytesOfDigits, filter_hex_digits.
Qed.

Lemma bytesOfDigits_bytes s :
  forallb isHexDigit s = true -> Forall isByte (bytesOfDigits s).
Proof.
  induction s as [|c|c1 c2 s IH] using pairs_ind; [constructor|constructor|].
  intros Hd. cbn [forallb] in Hd. apply andb_prop in Hd as [H1 [H2 Hs]%andb_prop].
  cbn [bytesOfDigits]. constructor; [|by apply IH].
  apply hexDigitValue_lt in H1, H2. unfold isByte. lia.
Qed.

Lemma bytesOfDigits_snoc s c :
  Nat.Even (length s) -> bytesOfDigits (s ++ [c]) = bytesOfDigits s.
Proof.
  induction s as [|d|c1 c2 s IH] using pairs_ind; [done| |].
  - intros [k Hk]. simpl in Hk. lia.
  - intros [k Hk]. simpl in Hk. cbn [app bytesOfDigits]. rewrite IH; [done|].
    exists (k - 1)%nat. lia.
Qed.

(** X3. [hexToBytes] never fails: a character that is no hexadecimal
    digit is skipped wherever it stands, a digit left without a partner at
    the end is dropped, and the result holds one byte for every two
    digits. *)
Theorem hexToBytes_forgiving (s1 s2 : jsstring) (c : N) :
  (isHexDigit c = false -> hexToBytes (s1 ++ c :: s2) = hexToBytes (s1 ++ s2))
  /\ (Nat.Even (length (filter isHexDigit s1)) ->
      hexToBytes (s1 ++ [c]) = hexToBytes s1)
  /\ length (hexToBytes s1) = (length (filter isHexDigit s1) / 2)%nat
  /\ Forall isByte (hexToBytes s1).
Proof.
  repeat split.
  - intros Hc. rewrite !hexToBytes_pairs, !filter_app, filter_cons_False; [done|].
    rewrite Hc. simpl. tauto.
  - intros He. rewrite !hexToBytes_pairs, filter_app.
    destruct (isHexDigit c) eqn:Hc.
    + rewrite (filter_cons_True _ c []) by (by rewrite Hc). by apply bytesOfDigits_snoc.
    + rewrite (filter_cons_False _ c []) by (rewrite Hc; simpl; tauto). by rewrite app_nil_r.
  - apply hexToBytes_length.
  - rewrite hexToBytes_pairs. apply bytesOfDigits_bytes, filter_hex_digits.
Qed.

Lemma lxor_twice_byte b k :
  b < 256 -> N.lxor (N.lxor b k mod 256) k mod 256 = b.
Proof.
  intros Hb. change 256 with (2 ^ 8) in *.
  rewrite <- (N.mod_small b (2 ^ 8)) at 2 by exact Hb.
  apply N.bits_inj. intros n.
  destruct (N.lt_ge_cases n 8) as [Hn|Hn].
  - rewrite !N.mod_pow2_bits_low, !N.lxor_spec, !N.mod_pow2_bits_low, N.lxor_spec by exact Hn.
    by destruct (N.testbit b n), (N.testbit k n).
  - by rewrite !N.mod_pow2_bits_high by exact Hn.
Qed.

(** X4. Xoring a buffer of bytes twice with the same key gives the
    buffer back, whatever the key: shorter (read cyclically), longer or
    empty. *)
Theorem xorBuffers_involutive (buf key : list N) :
  Forall isByte buf -> xorBuffers (xorBuffers buf key) key = buf.
Proof.
  intros Hb. apply list_eq. intros i.
  destruct (buf !! i) as [b|] eqn:Hi.
  - rewrite (xorBuffers_lookup _ _ _ _ (xorBuffers_lookup _ _ _ _ Hi)).
    f_equal. apply lxor_twice_byte. eapply (Forall_lookup_1 _ _ _ _ Hb Hi).
  - apply lookup_ge_None. rewrite !xorBuffers_length. by apply lookup_ge_None.
Qed.
End HexProofs.

Section DerivedSecret.
Import JS Platform CryptoService CryptoSpec HexSpec.
Variable aes_inv_cipher : list N -> list N -> list N.
Variable pako_stream : list N -> inflated.
Variable TextDecoder_decode : list N -> jsstring.

Lemma bytesToHex_app a b : bytesToHex (a ++ b) = bytesToHex a ++ bytesToHex b.
Proof. unfold bytesToHex. by rewrite map_app, concat_app. Qed.

Lemma bytesToHex_take n bytes :
  Forall isByte bytes ->
  take (2 * n) (bytesToHex bytes) = bytesToHex (take n bytes).
Proof.
  intros H. rewrite <- (take_drop n bytes) at 1. rewrite bytesToHex_app.
  destruct (decide (n <= length bytes)%nat) as [Hn|Hn].
  - rewrite take_app_length'; [done|].
    rewrite bytesToHex_length by (by apply Forall_take). rewrite length_take. lia.
  - rewrite drop_ge, app_nil_r by lia. apply take_ge.
    rewrite bytesToHex_length by (by apply Forall_take). rewrite length_take. lia.
Qed.

Lemma bytesToHex_drop n bytes :
  Forall isByte bytes ->
  drop (2 * n) (bytesToHex bytes) = bytesToHex (drop n bytes).
Proof.
  intros H. rewrite <- (take_drop n bytes) at 1. rewrite bytesToHex_app.
  destruct (decide (n <= length bytes)%nat) as [Hn|Hn].
  - rewrite drop_app_length'; [done|].
    rewrite bytesToHex_length by (by apply Forall_take). rewrite length_take. lia.
  - rewrite !(drop_ge bytes) by lia. rewrite app_nil_r. apply drop_ge.
    rewrite bytesToHex_length by (by apply Forall_take). rewrite length_take. lia.
Qed.

(** The value of [getDeriveKeyAndIv], and the bytes its two halves denote. *)
Lemma derived_secret pubCard :
  let xored := zip_with N.lxor (Sha256.digest (TextEncoder_encode pubCard)) masterKey in
  exists k, getDeriveKeyAndIv pubCard = Ok k
    /\ hexToBytes (key k) = take 16 xored
    /\ hexToBytes (iv k) = drop 16 xored
    /\ length xored = 32%nat.
Proof.
  intros xored.
  destruct masterKey_decoded as [Hatob Hkey].
  assert (Hx : xorBuffers (Sha256.digest (TextEncoder_encode pubCard)) masterKey = xored).
  { apply xorBuffers_zip; [apply digest_bytes | exact masterKey_bytes | reflexivity]. }
  assert (Hxb : Forall isByte xored) by (rewrite <- Hx; apply xorBuffers_bytes).
  assert (Hlen : length xored = 32%nat) by (unfold xored; by rewrite length_zip_with).
  eexists. split; [|split; [|split; [|exact Hlen]]].
  - unfold getDeriveKeyAndIv. rewrite Hatob. cbn [bind]. rewrite Hkey.
    unfold generateSHA256. rewrite Hx. reflexivity.
  - cbn [key]. unfold slice. rewrite drop_0.
    change (32 - 0)%nat with (2 * 16)%nat. rewrite bytesToHex_take by exact Hxb.
    apply hexToBytes_of_hex. by apply Forall_take.
  - cbn [iv]. unfold slice. change (64 - 32)%nat with (2 * 16)%nat.
    change 32%nat with (2 * 16)%nat at 1.
    rewrite bytesToHex_drop, bytesToHex_take by (try apply Forall_drop; exact Hxb).
    rewrite hexToBytes_of_hex by (by apply Forall_take, Forall_drop).
    apply take_ge. rewrite length_drop. lia.
Qed.

(** X5. The key and the vector [getDeriveKeyAndIv] returns are the two
    halves of the digest xored with the master key, and [decryptAndInflate]
    accepts them for every ciphertext: the key import succeeds, the vector
    has 16 bytes, and the decryption fails exactly when the ciphertext
    length is no multiple of 16 or the padding is bad. *)
Theorem derived_key_and_iv_are_accepted (pubCard : jsstring) (data : list N) :
  exists k,
    getDeriveKeyAndIv pubCard = Ok k
    /\ hexToBytes (key k) ++ hexToBytes (iv k)
       = zip_with N.lxor (Sha256.digest (TextEncoder_encode pubCard)) masterKey
    /\ importKey (hexToBytes (key k)) = Ok (hexToBytes (key k))
    /\ length (hexToBytes (iv k)) = 16%nat
    /\ decryptAndInflate aes_inv_cipher pako_stream TextDecoder_decode data (key k) (iv k)
       <> Throw DataError
    /\ (decryptAndInflate aes_inv_cipher pako_stream TextDecoder_decode data (key k) (iv k)
        = Throw OperationError
        <-> (length data mod 16 <> 0)%nat
            \/ unpad (cbc_decrypt aes_inv_cipher (length data / 16)
                        (hexToBytes (key k)) (hexToBytes (iv k)) data) = None).
Proof.
  destruct (derived_secret pubCard) as (k & Hk & Hkey & Hiv & Hlen).
  exists k. split; [exact Hk|].
  assert (Hik : importKey (hexToBytes (key k)) = Ok (hexToBytes (key k))).
  { unfold importKey. rewrite Hkey, length_take, Hlen. reflexivity. }
  assert (Hil : length (hexToBytes (iv k)) = 16%nat).
  { rewrite Hiv, length_drop, Hlen. reflexivity. }
  split; [by rewrite Hkey, Hiv, take_drop|].
  split; [exact Hik|]. split; [exact Hil|].
  unfold decryptAndInflate. rewrite Hik. cbn [bind].
  destruct (decrypt_cases aes_inv_cipher (hexToBytes (key k)) (hexToBytes (iv k)) data)
    as [(pt & -> & _ & Hmod & Hpad)|[-> [Hbad|Hbad]]]; cbn [bind].
  - destruct (pako_inflate pako_stream pt);
      (split; [done|]; split; [done|]; intros [?|?]; congruence).
  - congruence.
  - split; [done|]. split; [intros _; exact Hbad|done].
Qed.

Hypothesis aes_block :
  forall key c, length c = 16%nat -> length (aes_inv_cipher key c) = 16%nat.

Lemma cbc_decrypt_length n key prev data :
  length prev = 16%nat -> (16 * n <= length data)%nat ->
  length (cbc_decrypt aes_inv_cipher n key prev data) = (16 * n)%nat.
Proof using aes_block.
  revert prev data. induction n as [|n IH]; intros prev data Hp Hd; [done|].
  assert (Hc : length (take 16 data) = 16%nat) by (rewrite length_take; lia).
  cbn [cbc_decrypt]. rewrite length_app. unfold xor_block.
  rewrite length_zip_with, aes_block, Hp, IH by (try rewrite length_drop; lia || done).
  lia.
Qed.

Lemma unpad_length padded plaintext :
  unpad padded = Some plaintext ->
  (length plaintext < length padded <= length plaintext + 16)%nat.
Proof.
  unfold unpad. destruct (last padded) as [p|]; [|done].
  destruct (_ && _) eqn:H; [|done]. intros [= <-].
  apply andb_prop in H as [[[H1%N.leb_le H2%N.leb_le]%andb_prop _]%andb_prop H3%Nat.leb_le].
  rewrite length_take. lia.
Qed.

(** X6. When [decryptAndInflate] returns a text, the ciphertext is a
    positive multiple of 16 bytes long and what is inflated is 1 to 16
    bytes shorter than it; in particular an empty ciphertext never
    decrypts. The text is the decoding of what pako inflates, or empty
    when pako gives no result. The block cipher is assumed to map 16 bytes
    to 16 bytes. *)
Theorem decryptAndInflate_strips_padding (data : list N) (keyHex ivHex text : jsstring) :
  decryptAndInflate aes_inv_cipher pako_stream TextDecoder_decode data keyHex ivHex = Ok text ->
  exists plaintext,
    ((exists decompressed,
         pako_inflate pako_stream plaintext = Inflated decompressed
         /\ text = TextDecoder_decode decompressed)
     \/ (pako_inflate pako_stream plaintext = NoResult /\ text = []))
    /\ (length plaintext < length data <= length plaintext + 16)%nat
    /\ (length data mod 16 = 0)%nat.
Proof using aes_block.
  unfold decryptAndInflate.
  destruct (importKey_cases (hexToBytes keyHex)) as [-> | ->]; cbn [bind]; [|done].
  destruct (decrypt_cases aes_inv_cipher (hexToBytes keyHex) (hexToBytes ivHex) data)
    as [(pt & -> & Hiv & Hmod & Hpad)|[-> _]]; cbn [bind]; [|done].
  assert (Hlen : (length pt < length data <= length pt + 16)%nat).
  { apply unpad_length in Hpad. rewrite cbc_decrypt_length in Hpad; [| exact Hiv |].
    - assert (length data = 16 * (length data / 16))%nat.
      { rewrite (Nat.div_mod_eq (length data) 16) at 1. lia. }
      lia.
    - rewrite (Nat.div_mod_eq (length data) 16) at 2. lia. }
  destruct (pako_inflate pako_stream pt) as [out| |msg] eqn:Hinf; [| |done];
    intros [= <-]; exists pt; (split; [|by split]); [left; by exists out|by right].
Qed.
End DerivedSecret.

Section ResultMapFacts.
Import JS ResultMap ResultMapSpec IndexSpec.
Context {K : Type} `{EqDecision K}.
Implicit Types (m : list (K * N)) (k i : K).

Lemma get_set k v m i :
  map_get_or_0 i (map_set k v m) = if decide (k = i) then v else map_get_or_0 i m.
Proof.
  induction m as [|[k' v'] m IH]; simpl.
  - repeat case_decide; congruence.
  - destruct (decide (k' = k)) as [->|Hk]; simpl.
    + repeat case_decide; congruence.
    + rewrite IH. repeat case_decide; congruence.
Qed.

Lemma keys_set_old k v m : k ∈ m.*1 -> (map_set k v m).*1 = m.*1.
Proof.
  induction m as [|[k' v'] m IH]; cbn [map_set]; [by intros ?%elem_of_nil|].
  rewrite fmap_cons. cbn [fst]. intros Hin.
  destruct (decide (k' = k)) as [->|Hk]; [done|].
  rewrite fmap_cons. cbn [fst]. f_equal. apply IH.
  apply elem_of_cons in Hin as [->|?]; done.
Qed.

Lemma keys_set_new k v m : k ∉ m.*1 -> (map_set k v m).*1 = m.*1 ++ [k].
Proof.
  induction m as [|[k' v'] m IH]; cbn [map_set]; [done|].
  rewrite fmap_cons. cbn [fst]. intros Hin.
  destruct (decide (k' = k)) as [->|Hk]; [by destruct Hin; left|].
  rewrite fmap_cons. cbn [fst app]. f_equal. apply IH.
  intros ?. apply Hin. by right.
Qed.

Lemma tallied_nil : tallied (K := K) [].
Proof. split; [constructor|]. intros i. simpl. rewrite elem_of_nil. lia. Qed.

Lemma tallied_bump m k :
  tallied m -> tallied (map_set k (map_get_or_0 k m + 1) m).
Proof.
  intros [Hnd Hpos]. split.
  - destruct (decide (k ∈ m.*1)) as [Hin|Hin].
    + by rewrite keys_set_old.
    + rewrite keys_set_new by done.
      apply NoDup_app. split; [done|]. split; [|apply NoDup_singleton].
      intros x Hx ->%list_elem_of_singleton. done.
  - intros i. rewrite get_set.
    assert (Hkeys : i ∈ (map_set k (map_get_or_0 k m + 1) m).*1 <-> i = k \/ i ∈ m.*1).
    { destruct (decide (k ∈ m.*1)) as [Hin|Hin].
      - rewrite keys_set_old by done. split; [auto|]. by intros [->|?].
      - rewrite keys_set_new by done. rewrite elem_of_app, list_elem_of_singleton. tauto. }
    rewrite Hkeys. destruct (decide (k = i)) as [->|Hk].
    + split; [lia|]. auto.
    + rewrite <- Hpos. split; [intros [?|?]; [congruence|done]|auto].
Qed.

Lemma bump_all m ids :
  tallied m ->
  tallied (fold_left (fun r id => map_set id (map_get_or_0 id r + 1) r) ids m)
  /\ forall i,
       map_get_or_0 i (fold_left (fun r id => map_set id (map_get_or_0 id r + 1) r) ids m)
       = map_get_or_0 i m + N.of_nat (occurrences i ids).
Proof.
  revert m. induction ids as [|k ids IH]; intros m Hm; simpl.
  - split; [done|]. intros i. unfold occurrences. simpl. lia.
  - destruct (IH _ (tallied_bump m k Hm)) as [Ht Hget]. split; [done|].
    intros i. rewrite Hget, get_set. unfold occurrences.
    destruct (decide (k = i)) as [->|Hk].
    + rewrite filter_cons_True by done. simpl. lia.
    + rewrite filter_cons_False by congruence. lia.
Qed.

Lemma tally_spec (postings : list N -> list K) tokens :
  tallied (tally postings tokens)
  /\ forall i, map_get_or_0 i (tally postings tokens)
               = N.of_nat (total (map (fun t => occurrences i (postings t)) tokens)).
Proof.
  unfold tally.
  cut (forall m, tallied m ->
         tallied (fold_left (fun results token =>
                    fold_left (fun r id => map_set id (map_get_or_0 id r + 1) r)
                      (postings token) results) tokens m)
         /\ forall i, map_get_or_0 i (fold_left (fun results token =>
                    fold_left (fun r id => map_set id (map_get_or_0 id r + 1) r)
                      (postings token) results) tokens m)
             = map_get_or_0 i m
               + N.of_nat (total (map (fun t => occurrences i (postings t)) tokens))).
  { intros Hc. destruct (Hc [] tallied_nil) as [Ht Hg]. split; [done|].
    intros i. rewrite Hg. simpl. lia. }
  induction tokens as [|t tokens IH]; intros m Hm; simpl.
  - split; [done|]. intros i. lia.
  - destruct (bump_all m (postings t) Hm) as [Ht Hg].
    destruct (IH _ Ht) as [Ht' Hg']. split; [done|].
    intros i. rewrite Hg', Hg. lia.
Qed.

Lemma tallied_entry m i s : tallied m -> (i, s) ∈ m -> map_get_or_0 i m = s /\ 0 < s.
Proof.
  intros [Hnd Hpos] Hin.
  assert (Hget : map_get_or_0 i m = s).
  { clear Hpos. induction m as [|[k v] m IH]; [by apply elem_of_nil in Hin|].
    simpl in *. apply NoDup_cons in Hnd as [Hk Hnd].
    apply elem_of_cons in Hin as [[= <- <-]|Hin].
    - by rewrite decide_True.
    - rewrite decide_False; [by apply IH|]. intros ->. apply Hk.
      apply list_elem_of_fmap. by exists (i, s). }
  split; [done|]. rewrite <- Hget. apply Hpos. apply list_elem_of_fmap. by exists (i, s).
Qed.

Lemma tallied_key m i :
  tallied m -> 0 < map_get_or_0 i m -> (i, map_get_or_0 i m) ∈ m.
Proof.
  intros Hm Hpos. destruct Hm as [Hnd Hkeys].
  apply Hkeys in Hpos. apply list_elem_of_fmap in Hpos as [[k v] [-> Hin]].
  simpl. by rewrite (proj1 (tallied_entry m k v (conj Hnd Hkeys) Hin)).
Qed.

Lemma insert_desc_perm (x : K * N) l : insert_desc x l ≡ₚ x :: l.
Proof.
  induction l as [|y l IH]; simpl; [done|].
  destruct (snd x <? snd y); [|done]. rewrite IH. apply Permutation_swap.
Qed.

Lemma sort_desc_perm (l : list (K * N)) : sort_desc l ≡ₚ l.
Proof.
  induction l as [|x l IH]; simpl; [done|]. by rewrite insert_desc_perm, IH.
Qed.

Lemma insert_desc_sorted (x : K * N) l :
  StronglySorted (fun a b => snd b <= snd a) l ->
  StronglySorted (fun a b => snd b <= snd a) (insert_desc x l).
Proof.
  induction 1 as [|y l Hs IH Hall]; simpl; [repeat constructor|].
  destruct (N.ltb_spec (snd x) (snd y)) as [Hlt|Hge].
  - constructor; [exact IH|].
    rewrite (insert_desc_perm x l). constructor; [lia|exact Hall].
  - constructor; [by constructor|]. constructor; [done|].
    eapply Forall_impl; [exact Hall|]. simpl. intros z Hz. lia.
Qed.

Lemma sort_desc_sorted (l : list (K * N)) :
  StronglySorted (fun a b => snd b <= snd a) (sort_desc l).
Proof.
  induction l as [|x l IH]; simpl; [constructor|]. by apply insert_desc_sorted.
Qed.

Lemma sort_desc_scores (l : list (K * N)) : descending (sort_desc l).*2.
Proof.
  unfold descending. generalize (sort_desc_sorted l).
  induction 1 as [|y l' Hs IH Hall]; simpl; constructor; [done|].
  apply Forall_fmap. exact Hall.
Qed.

Lemma total_positive (l : list nat) : (0 < total l)%nat -> exists n, n ∈ l /\ (0 < n)%nat.
Proof.
  induction l as [|n l IH]; simpl; [lia|]. intros Hpos.
  destruct (decide (0 < n)%nat) as [Hn|Hn].
  - exists n. split; [left|done].
  - destruct IH as (k & Hk & Hk0); [lia|]. exists k. split; [by right|done].
Qed.

Lemma total_member {A} (f : A -> nat) l a :
  a ∈ l -> (0 < f a)%nat -> (0 < total (map f l))%nat.
Proof.
  induction l as [|a0 l IH]; [by intros ?%elem_of_nil|].
  intros [->|Hin]%elem_of_cons Hpos; simpl; [lia|]. specialize (IH Hin Hpos). lia.
Qed.

Lemma occurrences_positive {A} `{EqDecision A} (x : A) l :
  (0 < occurrences x l)%nat <-> x ∈ l.
Proof.
  unfold occurrences. split.
  - intros Hpos. destruct (filter (eq x) l) as [|y f] eqn:Hf; [simpl in Hpos; lia|].
    assert (Hy : y ∈ filter (eq x) l) by (rewrite Hf; left).
    apply list_elem_of_filter in Hy as [<- Hy]. done.
  - intros Hin. assert (Hx : x ∈ filter (eq x) l) by (by apply list_elem_of_filter).
    destruct (filter (eq x) l); [by apply elem_of_nil in Hx|simpl; lia].
Qed.

(** The ranked entries of a search: an id is listed when some token's
    posting list holds it, once, with the number of its occurrences in
    the posting lists of the tokens. *)
Lemma ranked_entries (postings : list N -> list K) tokens :
  let ranked := sort_desc (tally postings tokens) in
  let hits i := total (map (fun t => occurrences i (postings t)) tokens) in
  (forall i s, (i, s) ∈ ranked <->
               s = N.of_nat (hits i) /\ exists t, t ∈ tokens /\ i ∈ postings t)
  /\ NoDup ranked.*1
  /\ descending ranked.*2.
Proof.
  intros ranked hits. subst ranked hits. cbn beta.
  destruct (tally_spec postings tokens) as [Ht Hget].
  assert (Hpos : forall i, 0 < map_get_or_0 i (tally postings tokens)
                           <-> exists t, t ∈ tokens /\ i ∈ postings t).
  { intros i. rewrite Hget. split.
    - intros Hp. destruct (total_positive (map (fun t => occurrences i (postings t)) tokens))
        as (n & Hn & Hn0); [lia|].
      apply list_elem_of_fmap in Hn as (t & -> & Hin). exists t. split; [done|].
      by apply occurrences_positive.
    - intros (t & Hin & Hi). apply occurrences_positive in Hi.
      pose proof (total_member (fun t => occurrences i (postings t)) _ t Hin Hi).
      lia. }
  split; [|split].
  - intros i s. rewrite sort_desc_perm. split.
    + intros Hin. destruct (tallied_entry _ i s Ht Hin) as [Hs Hs0]. split.
      * by rewrite <- Hget, Hs.
      * apply Hpos. by rewrite Hs.
    + intros [-> Hex]. rewrite <- Hget. apply tallied_key; [done|]. by apply Hpos.
  - rewrite sort_desc_perm. apply Ht.
  - apply sort_desc_scores.
Qed.
End ResultMapFacts.

Section EpubIndexProofs.
Import JS EpubSearchEngine IndexSpec.
Variables toLowerCase normalizeNFD : jsstring -> jsstring.

Local Abbreviation tokenize := (EpubSearchEngine.tokenize toLowerCase normalizeNFD).
Local Abbreviation addNode := (EpubSearchEngine.addNode toLowerCase normalizeNFD).
Local Abbreviation search := (EpubSearchEngine.search toLowerCase normalizeNFD).

Lemma search_tally e query :
  search e query
  = match tokenize query with
    | [] => []
    | _ => map (fun '(id, score) => {| score := score; node := nodes e !! id |})
             (ResultMap.sort_desc (ResultMap.tally (postings (index e)) (tokenize query)))
    end.
Proof. reflexivity. Qed.

Lemma addOnce_idem {A} `{EqDecision A} (x : A) l : addOnce x (addOnce x l) = addOnce x l.
Proof.
  unfold addOnce. destruct (decide (x ∈ l)) as [Hin|Hin].
  - by rewrite decide_True.
  - rewrite decide_True; [done|]. apply elem_of_app. right. by left.
Qed.

Lemma addOnce_NoDup {A} `{EqDecision A} (x : A) l : NoDup l -> NoDup (addOnce x l).
Proof.
  unfold addOnce. intros Hl. case_decide as Hin; [done|].
  apply NoDup_app. split; [done|]. split; [|apply NoDup_singleton].
  by intros y Hy ->%list_elem_of_singleton.
Qed.

Lemma elem_of_addOnce {A} `{EqDecision A} (x y : A) l :
  y ∈ addOnce x l <-> y = x \/ y ∈ l.
Proof.
  unfold addOnce. case_decide as Hin.
  - split; [auto|]. by intros [->|?].
  - rewrite elem_of_app, list_elem_of_singleton. tauto.
Qed.

Lemma postings_addWord i idx w w' :
  postings (addWord i idx w) w'
  = if decide (w = w') then addOnce i (postings idx w) else postings idx w'.
Proof.
  unfold addWord, postings, addOnce.
  destruct (idx !! w) as [ids|] eqn:Hw.
  - rewrite Hw. cbn [default from_option Datatypes.id].
    destruct (bool_decide_reflect (i ∈ ids)) as [Hin|Hin].
    + rewrite (decide_True (P := i ∈ ids)) by done.
      case_decide as Hww; [by subst; rewrite Hw|done].
    + rewrite (decide_False (P := i ∈ ids)) by done. case_decide as Hww.
      * subst. by rewrite lookup_insert_eq.
      * by rewrite lookup_insert_ne.
  - rewrite lookup_insert_eq. cbn [default from_option Datatypes.id].
    rewrite bool_decide_eq_false_2 by apply not_elem_of_nil.
    rewrite (decide_False (P := i ∈ [])) by apply not_elem_of_nil.
    case_decide as Hww.
    + subst. by rewrite lookup_insert_eq.
    + by rewrite !lookup_insert_ne.
Qed.

Lemma postings_addWords i ws idx w :
  postings (fold_left (addWord i) ws idx) w
  = if decide (w ∈ ws) then addOnce i (postings idx w) else postings idx w.
Proof.
  revert idx. induction ws as [|w0 ws IH]; intros idx; cbn [fold_left].
  - rewrite decide_False by apply not_elem_of_nil. done.
  - rewrite IH, postings_addWord. destruct (decide (w0 = w)) as [->|Hne].
    + rewrite addOnce_idem. rewrite (decide_True (P := w ∈ w :: ws)) by left.
      by destruct (decide (w ∈ ws)).
    + destruct (decide (w ∈ ws)) as [Hin|Hin].
      * rewrite decide_True by (by right). done.
      * rewrite decide_False; [done|]. intros [->|?]%elem_of_cons; done.
Qed.

(** X8. [addNode] stores the node under its id, leaves the other nodes
    alone, and appends the id to the posting list of each token of the
    node's text unless the list holds it already; no posting list loses
    or reorders an entry, and the lists of other words stay as they
    are. *)
Theorem addNode_updates_index (e : engine) (id title html w : jsstring) :
  let text := trim (replaceSpaces false (replaceTags O html)) in
  postings (index (addNode e id title html)) w
  = (if decide (w ∈ tokenize text) then addOnce id (postings (index e) w)
     else postings (index e) w)
  /\ nodes (addNode e id title html) !! id
     = Some {| EpubSearchEngine.id := id; title := title; text := text; html := html |}
  /\ (forall other, other <> id ->
        nodes (addNode e id title html) !! other = nodes e !! other).
Proof.
  intros text. unfold EpubSearchEngine.addNode. cbn [index nodes]. fold text.
  split; [apply postings_addWords|]. split; [apply lookup_insert_eq|].
  intros other Hne. by apply lookup_insert_ne.
Qed.

Lemma wellFormed_empty : wellFormed empty_engine.
Proof.
  unfold wellFormed, postings. cbn [empty_engine index nodes]. split; [|split].
  - intros w. rewrite lookup_empty. constructor.
  - intros w i. rewrite lookup_empty. by intros ?%elem_of_nil.
  - intros i n. by rewrite lookup_empty.
Qed.

Lemma wellFormed_addNode e id title html :
  wellFormed e -> wellFormed (addNode e id title html).
Proof.
  intros (Hnd & Hreg & Hid). unfold EpubSearchEngine.addNode. cbn [index nodes].
  split; [|split].
  - intros w. cbn [index]. rewrite postings_addWords. case_decide; [|done]. by apply addOnce_NoDup.
  - intros w i. cbn [index nodes]. rewrite postings_addWords. intros Hin.
    destruct (decide (i = id)) as [->|Hne]; [by rewrite lookup_insert_eq|].
    rewrite lookup_insert_ne by done. apply (Hreg w).
    case_decide; [|done]. apply elem_of_addOnce in Hin as [?|?]; done.
  - intros i n. cbn [nodes]. destruct (decide (i = id)) as [->|Hne].
    + rewrite lookup_insert_eq. by intros [= <-].
    + rewrite lookup_insert_ne by done. apply Hid.
Qed.

Lemma wellFormed_built e : built toLowerCase normalizeNFD e -> wellFormed e.
Proof.
  induction 1 as [|e id title html _ IH]; [apply wellFormed_empty|by apply wellFormed_addNode].
Qed.

(** X9. In every engine made by [addNode] calls from the empty one no
    posting list names an id twice, every id a posting list names has a
    node, and every node is stored under its own id. *)
Theorem built_engine_wellFormed (e : engine) :
  built toLowerCase normalizeNFD e -> wellFormed e.
Proof.
  induction 1 as [|e id title html _ (Hnd & Hreg & Hid)]; [apply wellFormed_empty|].
  unfold EpubSearchEngine.addNode. split; [|split]; cbn [index nodes].
  - intros w. rewrite postings_addWords. case_decide; [|done]. by apply addOnce_NoDup.
  - intros w i. rewrite postings_addWords. intros Hin.
    destruct (decide (i = id)) as [->|Hne]; [by rewrite lookup_insert_eq|].
    rewrite lookup_insert_ne by done. apply (Hreg w).
    case_decide; [|done]. apply elem_of_addOnce in Hin as [?|?]; done.
  - intros i n. destruct (decide (i = id)) as [->|Hne].
    + rewrite lookup_insert_eq. by intros [= <-].
    + rewrite lookup_insert_ne by done. apply Hid.
Qed.

Lemma occurrences_NoDup {A} `{EqDecision A} (x : A) l :
  NoDup l -> occurrences x l = if decide (x ∈ l) then 1%nat else 0%nat.
Proof.
  unfold occurrences. induction 1 as [|y l Hy Hl IH]; [done|].
  destruct (decide (x = y)) as [->|Hne].
  - rewrite filter_cons_True by done. simpl. rewrite IH, decide_False by done.
    by rewrite decide_True by left.
  - rewrite filter_cons_False by done. rewrite IH.
    destruct (decide (x ∈ l)) as [Hin|Hin].
    + by rewrite decide_True by (by right).
    + rewrite decide_False; [done|]. intros [->|?]%elem_of_cons; done.
Qed.

Lemma total_indicator {A} (P : A -> Prop) `{forall a, Decision (P a)} (l : list A) :
  total (map (fun a => if decide (P a) then 1%nat else 0%nat) l) = length (filter P l).
Proof.
  induction l as [|a l IH]; [done|]. cbn [map total foldr]. fold (total (map (fun a => if decide (P a) then 1%nat else 0%nat) l)).
  rewrite IH. destruct (decide (P a)).
  - by rewrite filter_cons_True.
  - by rewrite filter_cons_False.
Qed.


Lemma search_entries e query h :
  h ∈ search e query <->
  exists i s, h = {| score := s; node := nodes e !! i |}
    /\ tokenize query <> []
    /\ (i, s) ∈ ResultMap.sort_desc (ResultMap.tally (postings (index e)) (tokenize query)).
Proof.
  rewrite search_tally. destruct (tokenize query) as [|t0 ts] eqn:Htok.
  - split; [by intros ?%elem_of_nil|]. by intros (i & s & _ & ? & _).
  - rewrite list_elem_of_fmap. split.
    + intros ([i s] & -> & Hin). by exists i, s.
    + intros (i & s & -> & _ & Hin). by exists (i, s).
Qed.

(** X10. [search] lists its hits by descending score, and it returns
    nothing exactly when no token of the query has a posting; a query
    without tokens is one such case. *)
Theorem search_ranks_by_score (e : engine) (query : jsstring) :
  descending (map score (search e query))
  /\ (search e query = [] <->
      forall t, t ∈ tokenize query -> postings (index e) t = []).
Proof.
  destruct (ranked_entries (K := jsstring) (postings (index e)) (tokenize query))
    as (Hent & _ & Hdesc).
  split.
  - rewrite search_tally. destruct (tokenize query); [constructor|].
    rewrite map_map. erewrite map_ext; [exact Hdesc|]. by intros [i s].
  - split.
    + intros Hnil t Hin. destruct (postings (index e) t) as [|i l] eqn:Hp; [done|].
      assert (Hh : {| score := N.of_nat (total (map (fun t => occurrences i (postings (index e) t)) (tokenize query)));
                      node := nodes e !! i |} ∈ search e query).
      { apply search_entries. eexists i, _. split; [done|]. split.
        - intros Hn. rewrite Hn in Hin. by apply elem_of_nil in Hin.
        - apply Hent. split; [done|]. exists t. split; [done|]. rewrite Hp. left. }
      rewrite Hnil in Hh. by apply elem_of_nil in Hh.
    + intros Hnone. destruct (search e query) as [|h hs] eqn:Hs; [done|].
      assert (Hh : h ∈ search e query) by (rewrite Hs; left).
      apply search_entries in Hh as (i & s & _ & _ & Hin).
      apply Hent in Hin as (_ & t & Ht & Hi). rewrite (Hnone t Ht) in Hi.
      by apply elem_of_nil in Hi.
Qed.

Lemma total_matching i (post : jsstring -> list jsstring) tokens :
  (forall t, NoDup (post t)) ->
  total (map (fun t => occurrences i (post t)) tokens)
  = length (filter (fun t => i ∈ post t) tokens).
Proof.
  intros Hnd. induction tokens as [|t tokens IH]; [done|].
  cbn [map total foldr]. fold (total (map (fun t => occurrences i (post t)) tokens)).
  rewrite IH, occurrences_NoDup by apply Hnd. destruct (decide (i ∈ post t)).
  - by rewrite filter_cons_True.
  - by rewrite filter_cons_False.
Qed.

(** X11. In an engine made by [addNode] calls every hit of [search]
    carries the node stored under its id, its score is the number of query
    tokens (repetitions counted) whose posting list holds that id, between
    1 and the number of tokens; every node of a matching posting list is
    among the hits, and no node is listed twice. *)
Theorem search_score_counts_matching_tokens (e : engine) (query : jsstring) :
  built toLowerCase normalizeNFD e ->
  (forall h, h ∈ search e query ->
     exists n, node h = Some n
       /\ nodes e !! id n = Some n
       /\ score h = N.of_nat (length (filter (fun t => id n ∈ postings (index e) t)
                                        (tokenize query)))
       /\ 1 <= score h <= N.of_nat (length (tokenize query)))
  /\ (forall t i, t ∈ tokenize query -> i ∈ postings (index e) t ->
        exists h n, h ∈ search e query /\ node h = Some n /\ id n = i)
  /\ NoDup (map node (search e query)).
Proof.
  intros Hb. destruct (wellFormed_built e Hb) as (Hnd & Hreg & Hid).
  destruct (ranked_entries (K := jsstring) (postings (index e)) (tokenize query))
    as (Hent & Hkeys & _).
  split; [|split].
  - intros h (i & s & -> & _ & Hin)%search_entries.
    apply Hent in Hin as (-> & t & Ht & Hi).
    destruct (Hreg t i Hi) as [n Hn]. pose proof (Hid i n Hn) as <-.
    exists n. cbn [score node]. split; [done|]. split; [done|].
    rewrite total_matching by exact Hnd. split; [done|].
    split.
    + assert (Hm : t ∈ filter (fun t => id n ∈ postings (index e) t) (tokenize query))
        by (by apply list_elem_of_filter).
      destruct (filter _ _); [by apply elem_of_nil in Hm|simpl; lia].
    + pose proof (length_filter (fun t => id n ∈ postings (index e) t) (tokenize query)). lia.
  - intros t i Ht Hi. destruct (Hreg t i Hi) as [n Hn].
    eexists _, n. split; [|split; [|by apply Hid]].
    + apply search_entries. eexists i, _. split; [done|]. split.
      * intros Hnil. rewrite Hnil in Ht. by apply elem_of_nil in Ht.
      * apply Hent. split; [done|]. by exists t.
    + done.
  - rewrite search_tally. destruct (tokenize query) as [|t0 ts] eqn:Htok; [constructor|].
    rewrite <- Htok in *. rewrite map_map.
    apply (NoDup_fmap_2_strong (fun i : jsstring => nodes e !! i)) in Hkeys.
    + rewrite <- list_fmap_compose in Hkeys.
      erewrite map_ext; [exact Hkeys|]. by intros [i s].
    + intros i j Hi Hj Heq.
      apply list_elem_of_fmap in Hi as ([i' s] & -> & Hi).
      apply Hent in Hi as (_ & t & _ & Hi). destruct (Hreg t _ Hi) as [n Hn].
      cbn [fst] in *. rewrite Hn in Heq. symmetry in Heq.
      by rewrite <- (Hid _ _ Hn), <- (Hid _ _ Heq).
Qed.

Lemma splitSpaces_chars inws s w c :
  w ∈ splitSpaces inws s -> c ∈ w -> c ∈ s /\ isWhiteSpace c = false.
Proof.
  revert inws w. induction s as [|d s IH]; intros inws w; cbn [splitSpaces].
  - intros ->%list_elem_of_singleton. by intros ?%elem_of_nil.
  - destruct (isWhiteSpace d) eqn:Hd.
    + destruct inws.
      * intros Hw Hc. destruct (IH _ _ Hw Hc). split; [by right|done].
      * intros [->|Hw]%elem_of_cons Hc; [by apply elem_of_nil in Hc|].
        destruct (IH _ _ Hw Hc). split; [by right|done].
    + pose proof (IH false) as IHf. destruct (splitSpaces false s) as [|w0 ws].
      * intros ->%list_elem_of_singleton [->|?%elem_of_nil]%elem_of_cons; [|done].
        split; [left|done].
      * intros [->|Hw]%elem_of_cons Hc.
        -- apply elem_of_cons in Hc as [->|Hc]; [split; [left|done]|].
           destruct (IHf w0 (list_elem_of_here _ _) Hc). split; [by right|done].
        -- destruct (IHf w (list_elem_of_further _ _ _ Hw) Hc). split; [by right|done].
Qed.

(** X7. Every token of [tokenize] has more than two code units, all of
    them code units of the lower-cased and decomposed text, none a white
    space, a punctuation mark of the class or a combining mark. *)
Theorem tokenize_tokens (text w : jsstring) (c : N) :
  w ∈ tokenize text ->
  (2 < length w)%nat
  /\ (c ∈ w ->
      isWhiteSpace c = false /\ isPunctuation c = false /\ isCombiningMark c = false
      /\ c ∈ normalizeNFD (toLowerCase text)).
Proof.
  unfold EpubSearchEngine.tokenize. intros [Hlen Hw]%list_elem_of_filter.
  split; [by apply Is_true_true, Nat.ltb_lt in Hlen|].
  intros Hc. destruct (splitSpaces_chars _ _ _ _ Hw Hc) as [Hin Hws].
  apply list_elem_of_filter in Hin as [Hp Hin].
  apply list_elem_of_filter in Hin as [Hm Hin].
  split; [done|]. split; [by destruct (isPunctuation c)|].
  split; [by destruct (isCombiningMark c)|done].
Qed.
End EpubIndexProofs.

Section BibleIndexProofs.
Import JS BibleSearchEngine IndexSpec.
Variables toLowerCase normalizeNFD : jsstring -> jsstring.

Local Abbreviation tokenize := (BibleSearchEngine.tokenize toLowerCase normalizeNFD).
Local Abbreviation addVerse := (BibleSearchEngine.addVerse toLowerCase normalizeNFD).
Local Abbreviation search := (BibleSearchEngine.search toLowerCase normalizeNFD).

Lemma postings_push i idx w w' :
  postings (addWord i idx w) w'
  = if decide (w = w') then postings idx w ++ [i] else postings idx w'.
Proof.
  unfold addWord, postings.
  destruct (idx !! w) as [ids|] eqn:Hw.
  - rewrite Hw. cbn [default from_option Datatypes.id]. case_decide as Hww.
    + subst. by rewrite lookup_insert_eq.
    + by rewrite lookup_insert_ne.
  - rewrite lookup_insert_eq. cbn [default from_option Datatypes.id]. case_decide as Hww.
    + subst. by rewrite lookup_insert_eq.
    + by rewrite !lookup_insert_ne.
Qed.

(** X12. [BibleSearchEngine.addVerse] has no guard against repetition:
    the posting list of a word grows by the verse id once for every
    occurrence of the word among the tokens of the text. *)
Theorem addVerse_pushes_every_occurrence
  (e : engine) (id : N) (book chapter verse text html w : jsstring) :
  postings (index (addVerse e id book chapter verse text html)) w
  = postings (index e) w ++ repeat id (occurrences w (tokenize text)).
Proof.
  unfold BibleSearchEngine.addVerse. cbn [index].
  generalize (index e) as idx. induction (tokenize text) as [|w0 ws IH]; intros idx.
  - unfold occurrences. cbn [fold_left filter list_filter length repeat]. by rewrite app_nil_r.
  - cbn [fold_left]. rewrite IH, postings_push. unfold occurrences.
    destruct (decide (w0 = w)) as [->|Hne].
    + rewrite filter_cons_True by done. cbn [length repeat]. by rewrite <- app_assoc.
    + rewrite filter_cons_False by congruence. done.
Qed.

(** X13. The hits of [BibleSearchEngine.search] are the ids of the
    posting lists of the query tokens, each with the number of its
    occurrences in those lists as score: with [addVerse] this is the
    frequency of the query words in the verse. *)
Theorem bible_search_scores_count_occurrences (e : engine) (query : jsstring) (h : SearchResult) :
  h ∈ search e query <->
  exists i,
    h = {| score := N.of_nat (total (map (fun t => occurrences i (postings (index e) t))
                                       (tokenize query)));
           result_verse := verses e !! i |}
    /\ exists t, t ∈ tokenize query /\ i ∈ postings (index e) t.
Proof.
  destruct (ranked_entries (K := N) (postings (index e)) (tokenize query)) as (Hent & _ & _).
  unfold BibleSearchEngine.search. fold (postings (index e)).
  destruct (tokenize query) as [|t0 ts] eqn:Htok.
  { split; [by intros ?%elem_of_nil|]. intros (i & _ & t & Hin & _). by apply elem_of_nil in Hin. }
  rewrite <- Htok in *. rewrite list_elem_of_fmap. split.
  - intros ([i s] & -> & Hin). apply Hent in Hin as [-> Hex]. by exists i.
  - intros (i & -> & Hex). eexists (i, _). split; [done|]. by apply Hent.
Qed.
End BibleIndexProofs.

Section CalendarProofs.
Import JS DiscoveryService DiscoverySpec TextSpec.
Variables (pub_ language_ : jsstring) (prototypeHas : DiscoveryService.value -> jsstring -> bool).
Variables (month : N) (responses : nat -> fetched).
Local Abbreviation st := (state_at pub_ language_ prototypeHas month responses).
Local Abbreviation run := (missRun responses).

(** X14. After [n] turns of the loop the month is in 1..12 and the
    issue lies [n] steps after the first one, a step being two months for
    [mwb] and one month otherwise; for [mwb] every requested month is
    odd. *)
Theorem discover_calendar (n : nat) :
  1 <= month <= 12 ->
  let s := st n in
  let step := if decide (pub_ = js "mwb") then 2 else 1 in
  1 <= currentMonth s <= 12
  /\ 12 * currentYear s + currentMonth s
     = 12 * 2025 + currentMonth (start pub_ month) + step * N.of_nat n
  /\ (pub_ = js "mwb" -> currentMonth s mod 2 = 1).
Proof.
  intros Hm. cbv zeta.
  assert (Hparity : forall c, 1 <= c <= 12 ->
            (c mod 2 = 0 -> 1 <= c - 1 /\ (c - 1) mod 2 = 1)
            /\ (c mod 2 <> 0 -> c mod 2 = 1)
            /\ (c mod 2 = 1 -> (c + 2) mod 2 = 1 /\ (12 < c + 2 -> (c + 2 - 12) mod 2 = 1))).
  { intros c Hc%month_enum.
    assert (H : forallb (fun c =>
        implb (c mod 2 =? 0) ((1 <=? c - 1) && ((c - 1) mod 2 =? 1))
        && implb (negb (c mod 2 =? 0)) (c mod 2 =? 1)
        && implb (c mod 2 =? 1) (((c + 2) mod 2 =? 1)
                                 && implb (12 <? c + 2) ((c + 2 - 12) mod 2 =? 1))) months = true)
      by (vm_compute; reflexivity).
    rewrite forallb_forall in H. specialize (H c Hc).
    apply andb_prop in H as [[H1 H2]%andb_prop H3]. split; [|split].
    - intros He. rewrite (proj2 (N.eqb_eq _ _) He) in H1. cbn [implb] in H1.
      apply andb_prop in H1 as [?%N.leb_le ?%N.eqb_eq]. done.
    - intros Hne. rewrite (proj2 (N.eqb_neq _ _) Hne) in H2. by apply N.eqb_eq in H2.
    - intros Ho. rewrite (proj2 (N.eqb_eq _ _) Ho) in H3. cbn [implb] in H3.
      apply andb_prop in H3 as [?%N.eqb_eq H3]. split; [done|].
      intros Hlt. rewrite (proj2 (N.ltb_lt _ _) Hlt) in H3. by apply N.eqb_eq in H3. }
  induction n as [|n (Hrange & Hidx & Hodd)].
  - cbn [state_at]. split; [by apply start_valid|].
    split; [cbn [start currentYear currentMonth]; lia|].
    intros Hp. unfold start. cbn [currentMonth]. rewrite decide_True by done.
    destruct (Hparity month Hm) as (Heven & Hoddm & _).
    destruct (N.eqb_spec (month mod 2) 0) as [He|Hne]; [by apply Heven|by apply Hoddm].
  - cbn [state_at].
    destruct (turn_fields pub_ language_ prototypeHas (st n) (responses n)) as (_ & _ & -> & ->).
    destruct (decide (pub_ = js "mwb")) as [Hp|Hp].
    + specialize (Hodd Hp). destruct (Hparity _ Hrange) as (_ & _ & Hnext).
      destruct (Hnext Hodd) as [Hsame Hwrap].
      destruct (N.ltb_spec 12 (currentMonth (st n) + 2)).
      * split; [lia|]. split; [lia|]. intros _. by apply Hwrap.
      * split; [lia|]. split; [lia|]. by intros _.
    + destruct (N.ltb_spec 12 (currentMonth (st n) + 1)); (split; [lia|]); (split; [lia|done]).
Qed.

(** X17. As long as no response counts as a miss [discover] does not
    return, whatever the number of turns it is given. *)
Theorem discover_runs_on_without_a_miss (fuel : nat) :
  (forall i, countsAsMiss (responses i) = false) ->
  discover pub_ language_ prototypeHas month responses fuel = None.
Proof.
  intros Hok. unfold discover.
  apply (loop_runs_on pub_ language_ prototypeHas month responses maxNotFound fuel 0%nat).
  intros k _. destruct k as [|k]; cbn [missRun]; [done|]. by rewrite Hok.
Qed.

Lemma loop_first_stop m : forall fuel i l,
  loop pub_ language_ prototypeHas m responses fuel i (st i) = Some l ->
  exists d, (d <= fuel)%nat /\ l = discovered (st (i + d))
    /\ ~ run (i + d) < m
    /\ forall k, (i <= k < i + d)%nat -> run k < m.
Proof.
  induction fuel as [|fuel IH]; intros i l; cbn [loop];
    rewrite notFoundCount_missRun;
    destruct (N.ltb_spec (run i) m) as [Hlt|Hge]; try done.
  - intros [= <-]. exists 0%nat. rewrite Nat.add_0_r. repeat split; [lia| |lia]. lia.
  - change (turn pub_ language_ prototypeHas (st i) (responses i)) with (st (S i)).
    intros (d & Hd & -> & Hstop & Hbefore)%IH. exists (S d).
    replace (i + S d)%nat with (S i + d)%nat by lia. repeat split; [lia|done|].
    intros k Hk. destruct (decide (k = i)) as [->|Hne]; [done|]. apply Hbefore. lia.
  - intros [= <-]. exists 0%nat. rewrite Nat.add_0_r. repeat split; [lia| |lia]. lia.
Qed.

(** X16. When [discover] returns, some request [n] was the first to
    miss; the result is what the [n] requests before it collected, and its
    entries carry, in the order of the requests, the publication, the
    issue code of a request and the language asked for. *)
Theorem discover_returns_requested_issues (fuel : nat) (l : list DiscoveredPublication) :
  discover pub_ language_ prototypeHas month responses fuel = Some l ->
  exists n,
    (n < fuel)%nat
    /\ countsAsMiss (responses n) = true
    /\ (forall k, (k < n)%nat -> countsAsMiss (responses k) = false)
    /\ l = discovered (st (S n))
    /\ map triple l
       `sublist_of` map (fun k => (pub_, issueDate (st k), language_)) (seq 0 n).
Proof.
  unfold discover. intros (d & Hd & -> & Hstop & Hbefore)%(loop_first_stop maxNotFound fuel 0%nat).
  cbn [Nat.add] in *. unfold maxNotFound in *.
  destruct d as [|n]; [cbn [missRun] in Hstop; lia|].
  assert (Hmiss : countsAsMiss (responses n) = true).
  { cbn [missRun] in Hstop. destruct (countsAsMiss (responses n)); [done|lia]. }
  exists n. split; [lia|]. split; [done|]. split; [|split; [done|]].
  - intros k Hk. specialize (Hbefore (S k)). cbn [missRun] in Hbefore.
    destruct (countsAsMiss (responses k)); [lia|done].
  - cbn [state_at].
    destruct (turn_fields pub_ language_ prototypeHas (st n) (responses n)) as (-> & _).
    rewrite attempt_miss by done. cbn [fst]. apply discovered_issues.
Qed.
End CalendarProofs.

Section IssueCodes.
Import JS DiscoveryService DiscoverySpec TextSpec Pipeline.

Lemma digits_of_uint d : forallb isDigit (js (DecimalString.NilEmpty.string_of_uint d)) = true.
Proof. induction d; simpl; try done. Qed.

Lemma String_digits n : forallb isDigit (String_ n) = true.
Proof.
  unfold String_, DecimalString.NilZero.string_of_uint.
  destruct (N.to_uint n); try done; apply (digits_of_uint (_ _)).
Qed.

Lemma year_length y : 1000 <= y <= 9999 -> length (String_ y) = 4%nat.
Proof.
  intros Hy.
  assert (Hin : In y fourDigitYears).
  { apply list_elem_of_In, list_elem_of_fmap. exists (N.to_nat (y - 1000)). split; [lia|].
    apply elem_of_seq. lia. }
  assert (H : forallb (fun y => Nat.eqb (length (String_ y)) 4) fourDigitYears = true)
    by (vm_compute; reflexivity).
  rewrite forallb_forall in H. by apply Nat.eqb_eq, H.
Qed.

Lemma month_code_digits m : forallb isDigit (padStart (String_ m) 2 48) = true.
Proof.
  unfold padStart. rewrite forallb_app, String_digits, andb_true_r.
  apply forallb_forall. by intros c ->%repeat_spec.
Qed.

(** X15. For a month in 1..12 and a year of four digits the issue code
    is six decimal digits, the year followed by the month in two digits,
    and the [substring(0, 4)] the orchestrator takes of it is the year. *)
Theorem issueDate_format (s : state) :
  validMonth s -> 1000 <= currentYear s <= 9999 ->
  length (issueDate s) = 6%nat
  /\ forallb isDigit (issueDate s) = true
  /\ issueYear (issueDate s) = String_ (currentYear s)
  /\ slice (issueDate s) 4 6 = padStart (String_ (currentMonth s)) 2 48.
Proof.
  intros Hm Hy. unfold issueYear, substring, issueDate, slice. cbn [Nat.min Nat.max].
  pose proof (year_length _ Hy) as Hlen. pose proof (month_code_length _ Hm) as Hml.
  split; [by rewrite length_app, Hlen, Hml|].
  split; [by rewrite forallb_app, String_digits, month_code_digits|].
  split.
  - rewrite drop_0. change (4 - 0)%nat with 4%nat. rewrite <- Hlen. by rewrite take_app_length.
  - change (6 - 4)%nat with 2%nat.
    replace (drop 4 (String_ (currentYear s) ++ padStart (String_ (currentMonth s)) 2 48))
      with (padStart (String_ (currentMonth s)) 2 48).
    + apply take_ge. rewrite Hml. lia.
    + rewrite <- Hlen. by rewrite drop_app_length.
Qed.
End IssueCodes.

Section TextFacts.
Import JS Dom DomSpec ParsingSpec.

Lemma rawText_onAttrs h n : rawText (onAttrs h n) = rawText n.
Proof. by destruct n. Qed.

Lemma rawText_update h q : forall n, rawText (update_path (onAttrs h) n q) = rawText n.
Proof.
  induction q as [|i q IH]; intros n; [apply rawText_onAttrs|].
  destruct n as [t|t a cs]; [done|]. cbn [update_path rawText].
  destruct (decide (t = js "br")); [done|]. f_equal.
  change (map rawText (alter (fun c => update_path (onAttrs h) c q) i cs))
    with (rawText <$> alter (fun c => update_path (onAttrs h) c q) i cs).
  rewrite (list_fmap_alter rawText (fun c => update_path (onAttrs h) c q) Datatypes.id).
  - by rewrite list_alter_id.
  - apply Forall_forall. intros c _. apply IH.
Qed.

Lemma rawText_lookup_update h q : forall n p,
  rawText <$> lookup_path (update_path (onAttrs h) n q) p = rawText <$> lookup_path n p.
Proof.
  induction q as [|j q IH]; intros n p.
  - cbn [update_path]. destruct p as [|i p]; [cbn; by rewrite rawText_onAttrs|].
    by rewrite lookup_onAttrs_child.
  - destruct n as [t|t a cs]; [done|]. destruct p as [|i p].
    + cbn [lookup_path fmap option_fmap option_map]. f_equal.
      apply (rawText_update h (j :: q) (HTMLElement t a cs)).
    + cbn [update_path lookup_path]. destruct (decide (i = j)) as [->|Hne].
      * rewrite list_lookup_alter_eq. destruct (cs !! j) as [c|]; [apply IH|done].
      * by rewrite list_lookup_alter_ne.
Qed.

Lemma rawText_lookup_update_all h ps : forall root p,
  rawText <$> lookup_path (update_all (onAttrs h) ps root) p = rawText <$> lookup_path root p.
Proof.
  unfold update_all. induction ps as [|q ps IH]; intros root p; [done|].
  cbn [fold_left]. by rewrite IH, rawText_lookup_update.
Qed.

Lemma trimStart_suffix s : exists k, trimStart s = drop k s.
Proof.
  induction s as [|c s [k IH]]; [by exists 0%nat|]. cbn [trimStart].
  destruct (isWhiteSpace c); [by exists (S k)|by exists 0%nat].
Qed.

Lemma trimStart_head s c : head (trimStart s) = Some c -> isWhiteSpace c = false.
Proof.
  induction s as [|d s IH]; [done|]. cbn [trimStart].
  destruct (isWhiteSpace d) eqn:Hd; [done|]. by intros [= <-].
Qed.

Lemma head_rev {A} (l : list A) : head (rev l) = last l.
Proof.
  induction l as [|a l IH] using rev_ind; [done|].
  by rewrite rev_app_distr, last_snoc.
Qed.

Lemma head_take {A} k (l : list A) x : head (take k l) = Some x -> head l = Some x.
Proof. destruct k, l; done. Qed.

Lemma trim_noSpaceAtEnds s : noSpaceAtEnds (trim s).
Proof.
  unfold trim, trimEnd. split; intros c Hc.
  - destruct (trimStart_suffix (rev (trimStart s))) as [k Hk].
    rewrite Hk, skipn_rev, rev_involutive in Hc.
    apply head_take in Hc. by apply (trimStart_head s c).
  - apply (trimStart_head (rev (trimStart s)) c). by rewrite <- head_rev, rev_involutive in Hc.
Qed.
End TextFacts.

Section ParseDocumentMore.
Import JS Dom DomSpec ParsingService ParsingSpec.
Variable parse : jsstring -> node.
Variable toString : node -> jsstring.
Variable decode : jsstring -> jsstring.

Local Abbreviation parseDoc := (parseDocument parse toString decode).

Lemma parseDocument_texts html docId :
  let r := parseDoc html docId in
  let root := parse html in
  title r = orElse (firstText decode root (js "h1")) (firstText decode root (js "h2"))
  /\ paragraphs r
     = filter (fun t => (0 < length t)%nat)
         (map (fun p => trim (textContent decode p))
              (deref (normalize root) (querySelectorAll (normalize root) (js "p")))).
Proof.
  cbv zeta. unfold parseDocument, normalize.
  by destruct (forEachImage (parse html) _) as [root1 assets0].
Qed.

Lemma normalize_spec root :
  normalize root
  = update_all (onAttrs rewriteAttrs) (querySelectorAll root (js "img")) root.
Proof. unfold normalize. by rewrite forEachImage_spec. Qed.

Lemma querySelectorAll_normalize root tag :
  querySelectorAll (normalize root) tag = querySelectorAll root tag.
Proof. rewrite normalize_spec. apply querySelectorAll_update_all. Qed.

Lemma deref_length root ps : (length (deref root ps) <= length ps)%nat.
Proof.
  unfold deref. induction ps as [|p ps IH]; [done|]. cbn [omap list_omap].
  destruct (lookup_path root p); simpl; lia.
Qed.

Lemma texts_of_normalized root ps :
  map (fun p => trim (textContent decode p)) (deref (normalize root) ps)
  = map (fun p => trim (textContent decode p)) (deref root ps).
Proof.
  unfold deref. induction ps as [|p ps IH]; [done|]. cbn [omap list_omap].
  pose proof (rawText_lookup_update_all rewriteAttrs (querySelectorAll root (js "img")) root p) as H.
  rewrite <- normalize_spec in H.
  destruct (lookup_path (normalize root) p) as [n'|], (lookup_path root p) as [n|];
    cbn in H; try done.
  injection H as H. cbn [map]. unfold textContent at 1 3. rewrite H. f_equal. apply IH.
Qed.

(** X20. The paragraphs [parseDocument] returns, although read after the
    images were rewritten in place, are the trimmed non-empty texts of the
    [p] elements of the parsed document, in document order. *)
Theorem parseDocument_paragraphs_of_source (html docId : jsstring) :
  let root := parse html in
  paragraphs (parseDoc html docId)
  = filter (fun t => (0 < length t)%nat)
      (map (fun p => trim (textContent decode p))
           (deref root (querySelectorAll root (js "p"))))
  /\ (length (paragraphs (parseDoc html docId))
      <= length (querySelectorAll root (js "p")))%nat.
Proof.
  intros root. destruct (parseDocument_texts html docId) as [_ Hp]. fold root in Hp.
  assert (Heq : paragraphs (parseDoc html docId)
    = filter (fun t => (0 < length t)%nat)
      (map (fun p => trim (textContent decode p))
           (deref root (querySelectorAll root (js "p"))))).
  { by rewrite Hp, querySelectorAll_normalize, texts_of_normalized. }
  split; [exact Heq|]. rewrite Heq.
  etrans; [apply length_filter|]. rewrite length_map. apply deref_length.
Qed.

Lemma references_from_anchors html docId v :
  v ∈ references (parseDoc html docId) ->
  exists p a cs,
    p <> [] /\ lookup_path (parse html) p = Some (HTMLElement (js "a") a cs)
    /\ v ∈ referencesOfAnchor decode (HTMLElement (js "a") a cs).
Proof.
  destruct (parseDocument_fields parse toString decode html docId) as (_ & -> & _).
  intros (refs & Hin & Hv)%list_elem_of_In%in_concat.
  apply list_elem_of_In in Hv.
  apply list_elem_of_In, list_elem_of_fmap in Hin as (n & -> & Hn).
  unfold deref in Hn. apply list_elem_of_omap in Hn as (p & Hp & Hl).
  destruct (querySelectorAll_sound _ _ _ Hp) as (a & cs & Hl').
  assert (n = HTMLElement (js "a") a cs) as -> by congruence.
  exists p, a, cs. split; [|done].
  intros ->. revert Hp. unfold querySelectorAll. intros [_ Hp]%list_elem_of_filter.
  by apply element_paths_nonempty in Hp.
Qed.

(** X19. No text [parseDocument] returns begins or ends with white
    space: the title, the paragraphs and the texts of the references; no
    paragraph is empty, and the text of a video reference is never
    empty. *)
Theorem parseDocument_texts_are_trimmed (html docId : jsstring) :
  let r := parseDoc html docId in
  noSpaceAtEnds (title r)
  /\ (forall t, t ∈ paragraphs r -> t <> [] /\ noSpaceAtEnds t)
  /\ (forall v, v ∈ references r ->
        noSpaceAtEnds (ref_text v) /\ (ref_type v = video -> ref_text v <> [])).
Proof.
  intros r. destruct (parseDocument_texts html docId) as [Ht Hp]. fold r in Ht, Hp.
  assert (Hnil : noSpaceAtEnds []) by (split; intros c; done).
  assert (Hfirst : forall root tag, noSpaceAtEnds (firstText decode root tag)).
  { intros root tag. unfold firstText. destruct (_ ≫= _); [apply trim_noSpaceAtEnds|done]. }
  split; [|split].
  - rewrite Ht. unfold orElse. destruct (firstText decode (parse html) (js "h1")) eqn:H1.
    + apply Hfirst.
    + rewrite <- H1. apply Hfirst.
  - intros t. rewrite Hp. intros [Hlen Hin]%list_elem_of_filter.
    split; [intros ->; simpl in Hlen; lia|].
    apply list_elem_of_fmap in Hin as (n & -> & _). apply trim_noSpaceAtEnds.
  - intros v (p & a & cs & _ & _ & Hv)%references_from_anchors.
    unfold referencesOfAnchor in Hv.
    set (href := getAttributeOrEmpty _ (js "href")) in Hv.
    set (dataVideo := getAttributeOrEmpty _ (js "data-video")) in Hv.
    apply elem_of_app in Hv as [Hv|Hv].
    + assert (Hv' : v = {| ref_type := bible; link := href;
                           ref_text := trim (textContent decode (HTMLElement (js "a") a cs)) |}
                    \/ v = {| ref_type := publication; link := href;
                              ref_text := trim (textContent decode (HTMLElement (js "a") a cs)) |}).
      { destruct (startsWith href (js "bible://")).
        - apply list_elem_of_singleton in Hv. by left.
        - destruct (startsWith href (js "jwpub://")); [|by apply elem_of_nil in Hv].
          apply list_elem_of_singleton in Hv. by right. }
      destruct Hv' as [-> | ->]; cbn [ref_text ref_type]; (split; [apply trim_noSpaceAtEnds|done]).
    + destruct (_ || _); [|by apply elem_of_nil in Hv].
      apply list_elem_of_singleton in Hv as ->. cbn [ref_text ref_type].
      unfold orElse. destruct (trim (textContent decode (HTMLElement (js "a") a cs))) eqn:Htx.
      * split; [|done]. split; intros c; vm_compute; by intros [= <-].
      * rewrite <- Htx. split; [apply trim_noSpaceAtEnds|]. by rewrite Htx.
Qed.

(** X18. An anchor whose [href] starts with [bible://] yields a
    reference of kind bible, one whose [href] starts with [jwpub://] a
    reference of kind publication, each with the [href] as link and the
    trimmed text of the anchor; and every reference of these kinds has a
    link with that prefix. *)
Theorem parseDocument_bible_and_publication_references (html docId : jsstring) :
  let r := parseDoc html docId in
  (forall p a cs,
      p <> [] -> lookup_path (parse html) p = Some (HTMLElement (js "a") a cs) ->
      let href := default [] (attr_get a (js "href")) in
      let text := trim (decode (rawText (HTMLElement (js "a") a cs))) in
      (startsWith href (js "bible://") = true ->
         In {| ref_type := bible; link := href; ref_text := text |} (references r))
      /\ (startsWith href (js "jwpub://") = true ->
         In {| ref_type := publication; link := href; ref_text := text |} (references r)))
  /\ (forall v, In v (references r) ->
        (ref_type v = bible -> startsWith (link v) (js "bible://") = true)
        /\ (ref_type v = publication -> startsWith (link v) (js "jwpub://") = true)).
Proof.
  intros r. split.
  - intros p a cs Hne Hl href text.
    destruct (parseDocument_fields parse toString decode html docId) as (_ & Hrefs & _).
    fold r in Hrefs.
    assert (Hin : forall v, v ∈ referencesOfAnchor decode (HTMLElement (js "a") a cs) ->
                            In v (references r)).
    { intros v Hv. rewrite Hrefs. apply in_concat.
      exists (referencesOfAnchor decode (HTMLElement (js "a") a cs)).
      split; [|by apply list_elem_of_In].
      apply list_elem_of_In, list_elem_of_fmap. eexists. split; [done|].
      unfold deref. apply list_elem_of_omap. exists p. split; [|done].
      by eapply querySelectorAll_complete. }
    assert (Hbj : startsWith href (js "bible://") = true ->
                  startsWith href (js "jwpub://") = false).
    { intros [s' Hs]%startsWith_prefix. by rewrite Hs. }
    split; intros Hs; apply Hin; unfold referencesOfAnchor, getAttributeOrEmpty, getAttribute,
      textContent; cbn [attrs_of]; change (lowerName (js "href")) with (js "href");
      fold href text; apply elem_of_app; left.
    + rewrite Hs. left.
    + destruct (startsWith href (js "bible://")) eqn:Hb; [by rewrite Hbj in Hs|].
      rewrite Hs. left.
  - intros v (p & a & cs & _ & _ & Hv)%list_elem_of_In%references_from_anchors.
    unfold referencesOfAnchor in Hv.
    set (href := getAttributeOrEmpty _ (js "href")) in Hv.
    apply elem_of_app in Hv as [Hv|Hv].
    + destruct (startsWith href (js "bible://")) eqn:Hb.
      * apply list_elem_of_singleton in Hv as ->. by split.
      * destruct (startsWith href (js "jwpub://")) eqn:Hj; [|by apply elem_of_nil in Hv].
        apply list_elem_of_singleton in Hv as ->. by split.
    + destruct (_ || _); [|by apply elem_of_nil in Hv].
      apply list_elem_of_singleton in Hv as ->. by split.
Qed.
End ParseDocumentMore.

Section ParseDocumentImages.
Import JS Dom DomSpec ParsingService ParsingSpec.
Variable parse : jsstring -> node.
Variable toString : node -> jsstring.
Variable decode : jsstring -> jsstring.

Local Abbreviation parseDoc := (parseDocument parse toString decode).

Lemma normalize_label root p :
  label <$> lookup_path (normalize root) p
  = (if decide (p ∈ querySelectorAll root (js "img")) then relabel rewriteAttrs else Datatypes.id)
      <$> (label <$> lookup_path root p).
Proof.
  rewrite normalize_spec. apply update_all_label, querySelectorAll_NoDup.
Qed.

Lemma normalize_lookup root p :
  match lookup_path root p with
  | None => lookup_path (normalize root) p = None
  | Some n =>
      exists n', lookup_path (normalize root) p = Some n'
        /\ label n' = (if decide (p ∈ querySelectorAll root (js "img"))
                       then relabel rewriteAttrs else Datatypes.id) (label n)
  end.
Proof.
  pose proof (normalize_label root p) as H.
  destruct (lookup_path root p) as [n|], (lookup_path (normalize root) p) as [n'|];
    cbn [fmap option_fmap option_map] in H; try done.
  exists n'. split; [done|]. congruence.
Qed.

Lemma normalized_image root p a' cs' :
  p <> [] -> lookup_path (normalize root) p = Some (HTMLElement (js "img") a' cs') ->
  exists a cs, lookup_path root p = Some (HTMLElement (js "img") a cs)
               /\ a' = rewriteAttrs a.
Proof.
  intros Hne Hl. pose proof (normalize_label root p) as H. rewrite Hl in H.
  destruct (lookup_path root p) as [n|] eqn:Hn; [|done].
  destruct (decide (p ∈ querySelectorAll root (js "img"))) as [Hin|Hout].
  - destruct (querySelectorAll_sound _ _ _ Hin) as (a & cs & Hl').
    assert (n = HTMLElement (js "img") a cs) as -> by congruence.
    exists a, cs. split; [done|].
    cbn [fmap option_fmap option_map label relabel] in H. congruence.
  - exfalso. apply Hout. destruct n as [t|t a cs]; [done|].
    cbn [fmap option_fmap option_map label Datatypes.id] in H.
    assert (t = js "img") as -> by congruence. by eapply querySelectorAll_complete.
Qed.

(** X22. Every [img] element of the tree [parseDocument] serializes is
    written with a [src] of the form [./assets/<fileName>], with no
    attribute spelled [width] or [height] in small letters, and with a
    [class] made of distinct tokens with [jw-image] among them; the assets
    hold an image with that file name and the [alt] text of the
    element. *)
Theorem parseDocument_output_images (html docId : jsstring) (p : path)
        (a' : attributes) (cs' : list node) :
  let r := parseDoc html docId in
  p <> [] ->
  lookup_path (normalize (parse html)) p = Some (HTMLElement (js "img") a' cs') ->
  ParsingService.html r = toString (normalize (parse html))
  /\ exists f tokens,
       markupAttribute a' (js "src") = Some (js "./assets/" ++ f)
       /\ startsWith (js "./assets/" ++ f) (js "./assets/") = true
       /\ (js "width" ∉ a'.*1)
       /\ (js "height" ∉ a'.*1)
       /\ markupAttribute a' (js "class") = Some (join_space tokens)
       /\ js "jw-image" ∈ tokens
       /\ NoDup tokens
       /\ In {| fileName := f; altText := default [] (attr_get a' (js "alt"));
                asset_kind := image |} (assets r).
Proof.
  intros r Hne Hl.
  destruct (parseDocument_fields parse toString decode html docId) as (Hhtml & _ & Hassets).
  fold r in Hhtml, Hassets. split; [exact Hhtml|].
  destruct (normalized_image _ _ _ _ Hne Hl) as (a & cs & Hsrc & ->).
  destruct (rewriteAttrs_spec a) as (_ & Hs & Hw & Hh & Hc & _ & Hother).
  eexists _, _. split; [exact Hs|]. split; [apply startsWith_app|].
  split; [exact Hw|]. split; [exact Hh|]. split; [exact Hc|].
  split; [apply set_add_elem; by left|].
  split.
  - apply set_add_NoDup, set_of_NoDup.
  - rewrite Hassets. apply in_or_app. left. apply list_elem_of_In.
    rewrite Hother by key_neq.
    destruct (normalize_image _ _ _ _ Hne Hsrc) as [_ Hin]. exact Hin.
Qed.

Lemma element_paths_update_all h ps : forall root,
  element_paths (update_all (onAttrs h) ps root) = element_paths root.
Proof.
  unfold update_all. induction ps as [|q ps IH]; intros root; [done|].
  cbn [fold_left]. by rewrite IH, element_paths_update.
Qed.

Lemma element_paths_normalize root : element_paths (normalize root) = element_paths root.
Proof. rewrite normalize_spec. apply element_paths_update_all. Qed.

(** X21. The tree [parseDocument] serializes differs from the parsed one
    in the attributes [src], [width], [height] and [class] of [img]
    elements only: the elements are at the same places, every node keeps
    its tag and its text, a node that is no [img] keeps all it shows, and
    every other attribute keeps its value. *)
Theorem parseDocument_changes_images_only (html docId : jsstring) (p : path) :
  let root := parse html in
  let root' := normalize root in
  ParsingService.html (parseDoc html docId) = toString root'
  /\ element_paths root' = element_paths root
  /\ rawText <$> lookup_path root' p = rawText <$> lookup_path root p
  /\ tagName <$> lookup_path root' p = tagName <$> lookup_path root p
  /\ (p ∉ querySelectorAll root (js "img") ->
      label <$> lookup_path root' p = label <$> lookup_path root p)
  /\ (forall k, k <> js "src" -> k <> js "width" -> k <> js "height" -> k <> js "class" ->
      (fun n => attr_get (attrs_of n) k) <$> lookup_path root' p
      = (fun n => attr_get (attrs_of n) k) <$> lookup_path root p).
Proof.
  intros root root'.
  destruct (parseDocument_fields parse toString decode html docId) as (Hhtml & _ & _).
  split; [exact Hhtml|].
  split; [apply element_paths_normalize|].
  split; [unfold root'; rewrite normalize_spec; apply rawText_lookup_update_all|].
  pose proof (normalize_lookup root p) as Hlook. fold root' in Hlook.
  destruct (lookup_path root p) as [n|]; [|rewrite Hlook; by repeat split].
  destruct Hlook as (n' & -> & Hlab). cbn [fmap option_fmap option_map].
  split; [|split].
  - f_equal. destruct (decide _); destruct n' as [?|? ? ?], n as [?|? ? ?];
      cbn [label relabel Datatypes.id tagName] in Hlab |- *; congruence.
  - intros Hout. rewrite decide_False in Hlab by done. by rewrite Hlab.
  - intros k H1 H2 H3 H4. f_equal. destruct (decide _).
    + destruct n' as [?|? a' ?], n as [?|? a ?];
        cbn [label relabel attrs_of] in Hlab |- *; try done.
      assert (a' = rewriteAttrs a) as -> by congruence. by apply rewriteAttrs_spec.
    + cbn [Datatypes.id] in Hlab. by rewrite (attrs_of_label _ _ Hlab).
Qed.

Lemma omap_fmap_lookup {A B C} (f : B -> C) (g : A -> option B) (l : list A) :
  omap (fun x => f <$> g x) l = map f (omap g l).
Proof.
  induction l as [|x l IH]; [done|]. cbn [omap list_omap].
  destruct (g x); cbn; by rewrite IH.
Qed.

Lemma deref_selected root tag :
  length (deref root (querySelectorAll root tag)) = length (querySelectorAll root tag).
Proof.
  unfold deref.
  assert (Hall : Forall (fun p => is_Some (lookup_path root p)) (querySelectorAll root tag)).
  { apply Forall_forall. intros p (a & cs & Hl)%querySelectorAll_sound. by rewrite Hl. }
  induction Hall as [|p ps [n Hn] _ IH]; [done|]. cbn [omap list_omap]. rewrite Hn.
  cbn [length]. f_equal. exact IH.
Qed.

(** X23. The assets of [parseDocument] are one image asset for every
    [img] element, in document order and as read from the parsed document,
    followed by one video asset for every video reference, in the order of
    the references. *)
Theorem parseDocument_assets_in_order (html docId : jsstring) :
  let r := parseDoc html docId in
  let root := parse html in
  let videos := filter (fun v => ref_type v = video) (references r) in
  assets r
  = map assetOfImage (deref root (querySelectorAll root (js "img")))
    ++ map videoAsset videos
  /\ length (deref root (querySelectorAll root (js "img")))
     = length (querySelectorAll root (js "img"))
  /\ length (assets r)
     = (length (querySelectorAll root (js "img")) + length videos)%nat.
Proof.
  intros r root videos.
  destruct (parseDocument_fields parse toString decode html docId) as (_ & _ & Hassets).
  fold r root in Hassets. unfold imageAssets in Hassets.
  rewrite forEachImage_spec in Hassets. cbn [snd] in Hassets.
  rewrite omap_fmap_lookup in Hassets. fold (deref root (querySelectorAll root (js "img"))) in Hassets.
  pose proof (deref_selected root (js "img")) as Hlen.
  split; [exact Hassets|]. split; [exact Hlen|].
  by rewrite Hassets, length_app, !length_map, Hlen.
Qed.
End ParseDocumentImages.

Section FileNames.
Import JS Dom DomSpec ParsingService ParsingSpec.

Lemma fileNameOf_plain name : name <> [] -> 47 ∉ name -> 58 ∉ name -> fileNameOf name = name.
Proof.
  intros Hne Hs Hc. unfold fileNameOf, pop.
  rewrite (replace_absent name (js "jwpub-media://") [] 58); [|apply list_elem_of_In; vm_compute; tauto|done].
  rewrite split_absent by done. cbn [last default from_option Datatypes.id].
  unfold orElse. by destruct name.
Qed.

(** X24. For a source [jwpub-media://<name>] or
    [jwpub-media://<dir>/<name>], and for a plain [<name>] without a
    colon, the file name is [<name>] when that is not empty and holds no
    slash; such an image is written with the source [./assets/<name>],
    which is also what is read from it again unless [src] is written in
    two spellings. *)
Theorem fileNameOf_media_source (dir name : jsstring) (a : attributes) :
  name <> [] -> 47 ∉ name ->
  fileNameOf (js "jwpub-media://" ++ name) = name
  /\ fileNameOf (js "jwpub-media://" ++ dir ++ 47 :: name) = name
  /\ (58 ∉ name -> fileNameOf name = name)
  /\ (attr_get a (js "src") = Some (js "jwpub-media://" ++ dir ++ 47 :: name) ->
      markupAttribute (rewriteAttrs a) (js "src") = Some (js "./assets/" ++ name)
      /\ ((length (named a (js "src")) <= 1)%nat ->
          attr_get (rewriteAttrs a) (js "src") = Some (js "./assets/" ++ name))
      /\ fileName (assetOfImage (HTMLElement (js "img") a [])) = name).
Proof.
  intros Hne Hs.
  assert (H1 : fileNameOf (js "jwpub-media://" ++ name) = name).
  { unfold fileNameOf, pop. rewrite replace_prefix, split_absent by done.
    cbn [last default from_option Datatypes.id]. unfold orElse. by destruct name. }
  assert (H2 : fileNameOf (js "jwpub-media://" ++ dir ++ 47 :: name) = name).
  { unfold fileNameOf, pop. rewrite replace_prefix, split_app_sep, (split_absent name) by done.
    rewrite last_app. cbn [last default from_option Datatypes.id]. unfold orElse.
    by destruct name. }
  split; [exact H1|]. split; [exact H2|]. split; [by apply fileNameOf_plain|].
  intros Hsrc. split; [|split].
  - destruct (rewriteAttrs_spec a) as (_ & -> & _).
    by rewrite Hsrc; cbn [default from_option Datatypes.id]; rewrite H2.
  - intros Honce. rewrite rewriteAttrs_src_once by done.
    by rewrite Hsrc; cbn [default from_option Datatypes.id]; rewrite H2.
  - unfold assetOfImage, getAttributeOrEmpty, getAttribute. cbn [attrs_of fileName].
    change (lowerName (js "src")) with (js "src").
    by rewrite Hsrc; cbn [default from_option Datatypes.id]; rewrite H2.
Qed.
End FileNames.

Section DatabaseProofs.
Import JS DatabaseService PipelineSpec.
Variable assignUnderBlob :
  list N -> rowObject -> jsstring -> option SqlValue -> option rowObject.

Lemma insertColumns_absent cols : forall i row m c,
  c ∉ cols -> insertColumns i cols row m !! c = m !! c.
Proof.
  induction cols as [|col cols IH]; intros i row m c Hc; [done|].
  cbn [insertColumns]. rewrite IH by (intros ?; apply Hc; by right).
  apply lookup_insert_ne. intros ->. apply Hc. left.
Qed.

Lemma insertColumns_last cols : forall i j row m c,
  cols !! j = Some c -> c ∉ drop (S j) cols ->
  insertColumns i cols row m !! c = Some (row !! (i + j)%nat).
Proof.
  induction cols as [|col cols IH]; intros i j row m c Hj Hlast; [done|].
  cbn [insertColumns]. destruct j as [|j].
  - injection Hj as ->. cbn [drop] in Hlast. rewrite insertColumns_absent by done.
    rewrite Nat.add_0_r. apply lookup_insert_eq.
  - cbn [lookup] in Hj. replace (i + S j)%nat with (S i + j)%nat by lia.
    by apply IH.
Qed.

(** An object with the prototype of an object literal takes every
    assignment to a name other than [__proto__] as an own property. *)
Lemma assign_plain obj col v :
  proto obj = ObjectPrototype -> col <> js "__proto__" ->
  assign assignUnderBlob obj col v = Some (setOwn obj col v).
Proof.
  intros Hp Hc. unfold assign. rewrite Hp, (decide_False (P := col = js "__proto__")) by done.
  by destruct (decide (is_Some (own obj !! col))).
Qed.

Lemma setColumns_plain cols : forall i row obj,
  proto obj = ObjectPrototype -> js "__proto__" ∉ cols ->
  setColumns assignUnderBlob i cols row obj
  = Some {| own := insertColumns i cols row (own obj); proto := ObjectPrototype |}.
Proof.
  induction cols as [|col cols IH]; intros i row obj Hp Hc.
  - cbn. destruct obj as [m p]. cbn in Hp. by subst.
  - apply not_elem_of_cons in Hc as [Hne Hc]. cbn [setColumns insertColumns].
    rewrite assign_plain by done. by rewrite IH.
Qed.

Lemma mapM_fmap_Some {A B} (f : A -> B) (l : list A) :
  mapM (fun x => Some (f x)) l = Some (f <$> l).
Proof. apply mapM_Some. apply Forall2_fmap_r, Forall_Forall2_diag, Forall_true. done. Qed.

(** X25. [executeQuery] returns no record when [db.exec] gives no result
    set and, when no column is named [__proto__], one record for every row
    of the first result set otherwise, later result sets being ignored;
    the record has the prototype of an object literal, maps every column
    name to the cell of its last occurrence among the columns, and holds
    no other property. A column named [__proto__] makes no property of an
    object literal: a [null] or a blob under it becomes the prototype of
    the record and every other cell is ignored; once the prototype is
    [null], a second [__proto__] column is an own property. *)
Theorem executeQuery_records (db : jsstring -> option (list QueryExecResult))
        (query : jsstring) :
  (db query = None -> executeQuery assignUnderBlob db query = None)
  /\ (db query = Some [] -> executeQuery assignUnderBlob db query = Some [])
  /\ (forall first more, db query = Some (first :: more) ->
      js "__proto__" ∉ columns first ->
      exists records,
        executeQuery assignUnderBlob db query = Some records
        /\ length records = length (values first)
        /\ forall k row, values first !! k = Some row ->
             exists obj, records !! k = Some obj
               /\ proto obj = ObjectPrototype
               /\ (forall c, c ∉ columns first -> own obj !! c = None)
               /\ (forall i c, columns first !! i = Some c ->
                     c ∉ drop (S i) (columns first) ->
                     own obj !! c = Some (row !! i)))
  /\ (forall v,
        assign assignUnderBlob newObject (js "__proto__") v
        = Some {| own := empty;
                  proto := match v with
                           | Some SqlNull => NullPrototype
                           | Some (SqlBlob bytes) => BlobPrototype bytes
                           | _ => ObjectPrototype
                           end |})
  /\ setColumns assignUnderBlob 0 [js "__proto__"; js "__proto__"; js "b"]
       [SqlNull; SqlNumber 5; SqlNumber 2] newObject
     = Some {| own := <[js "b" := Some (SqlNumber 2)]>
                        (<[js "__proto__" := Some (SqlNumber 5)]> empty);
               proto := NullPrototype |}.
Proof.
  unfold executeQuery. split; [by intros ->|]. split; [by intros ->|].
  split; [|split].
  - intros first more -> Hproto.
    assert (Hrows : mapM (fun row => setColumns assignUnderBlob 0 (columns first) row newObject)
                         (values first)
                    = Some ((fun row => {| own := insertColumns 0 (columns first) row empty;
                                           proto := ObjectPrototype |}) <$> values first)).
    { rewrite <- mapM_fmap_Some. apply mapM_ext. intros row. by apply setColumns_plain. }
    rewrite Hrows. eexists. split; [done|]. split; [by rewrite length_fmap|].
    intros k row Hk. eexists. split; [by rewrite list_lookup_fmap, Hk|].
    split; [done|]. cbn [own]. split.
    + intros c Hc. by rewrite insertColumns_absent.
    + intros i c Hi Hlast. by rewrite (insertColumns_last _ 0 i).
  - intros v. unfold assign, newObject. cbn [own proto].
    rewrite decide_False by (rewrite lookup_empty; by intros [? ?]).
    rewrite decide_True by done. by destruct v as [[]|].
  - reflexivity.
Qed.
End DatabaseProofs.

Ltac key_absent :=
  let H := fresh in
  intros H; vm_compute in H;
  repeat (apply elem_of_cons in H as [H|H]; [discriminate H|]);
  by apply elem_of_nil in H.

Section PipelineProofs.
Import JS DatabaseService Pipeline PipelineSpec TextSpec.
Variable assignUnderBlob :
  list N -> rowObject -> jsstring -> option SqlValue -> option rowObject.
Variable Number_toString : Z -> jsstring.

Lemma publication_record lang symbol year tag :
  exists obj,
    setColumns assignUnderBlob 0 publicationColumns (publicationRow lang symbol year tag)
               newObject = Some obj
    /\ field obj (js "MepsLanguageIndex") = Some (SqlNumber (Z.of_N lang))
    /\ field obj (js "Symbol") = Some (SqlString symbol)
    /\ field obj (js "Year") = Some (SqlNumber (Z.of_N year))
    /\ field obj (js "IssueTagNumber") = Some (SqlNumber (Z.of_N tag)).
Proof.
  eexists. split; [apply setColumns_plain; [done|key_absent]|].
  unfold field. cbn [own].
  rewrite (insertColumns_last publicationColumns 0 0 _ _ (js "MepsLanguageIndex"));
    [|done|key_absent].
  rewrite (insertColumns_last publicationColumns 0 1 _ _ (js "Symbol"));
    [|done|key_absent].
  rewrite (insertColumns_last publicationColumns 0 2 _ _ (js "Year"));
    [|done|key_absent].
  rewrite (insertColumns_last publicationColumns 0 3 _ _ (js "IssueTagNumber"));
    [|done|key_absent].
  done.
Qed.

Lemma templateString_number n :
  n < 2 ^ 53 -> templateString Number_toString (Some (SqlNumber (Z.of_N n))) = String_ n.
Proof.
  intros Hn. unfold templateString.
  destruct (Z.ltb_spec (Z.abs (Z.of_N n)) (2 ^ 53)) as [_|Hbig]; [|lia].
  destruct (Z.ltb_spec (Z.of_N n) 0); [lia|]. by rewrite N2Z.id.
Qed.

Lemma digits_no_underscore n : 95 ∉ String_ n.
Proof.
  intros Hin. pose proof (String_digits n) as H. rewrite forallb_forall in H.
  apply list_elem_of_In, H in Hin. done.
Qed.

Lemma split_field a b sep :
  sep ∉ a -> split (a ++ sep :: b) sep = a :: split b sep.
Proof.
  intros Ha. induction a as [|c a IH]; cbn [app split].
  - by rewrite N.eqb_refl.
  - destruct (N.eqb_spec c sep) as [->|Hne]; [exfalso; apply Ha; left|].
    rewrite IH; [done|]. intros ?. apply Ha. by right.
Qed.

Lemma card_fields lang symbol year tag :
  95 ∉ symbol ->
  split (card lang symbol year tag) 95 = [String_ lang; symbol; String_ year; String_ tag].
Proof.
  intros Hs. unfold card.
  rewrite split_field by apply digits_no_underscore.
  rewrite split_field by done.
  rewrite split_field by apply digits_no_underscore.
  by rewrite split_absent by apply digits_no_underscore.
Qed.

(** The records of a result set without a [__proto__] column: one
    for every row, made by [setColumns]. *)
Lemma executeQuery_rows db query first more :
  db query = Some (first :: more) -> js "__proto__" ∉ columns first ->
  exists records,
    executeQuery assignUnderBlob db query = Some records
    /\ forall k row, values first !! k = Some row ->
         records !! k = setColumns assignUnderBlob 0 (columns first) row newObject.
Proof.
  intros Hdb Hproto. unfold executeQuery. rewrite Hdb.
  assert (Hrows : mapM (fun row => setColumns assignUnderBlob 0 (columns first) row newObject)
                       (values first)
                  = Some ((fun row => {| own := insertColumns 0 (columns first) row empty;
                                         proto := ObjectPrototype |}) <$> values first)).
  { rewrite <- mapM_fmap_Some. apply mapM_ext. intros row. by apply setColumns_plain. }
  rewrite Hrows. eexists. split; [done|].
  intros k row Hk. rewrite list_lookup_fmap, Hk. cbn.
  by rewrite setColumns_plain.
Qed.

(** X26. For a Publication row whose language index, year and issue tag
    are safe integers (below 2^53) the orchestrator's pubCard is the four
    values joined by underscores; when the symbol holds no underscore the
    four values are read back from it, so that different publications
    have different pubCards. *)
Theorem pubCard_of_publication
        (db : jsstring -> option (list QueryExecResult)) (query : jsstring)
        (lang : N) (symbol : jsstring) (year tag : N)
        (rows : list (list SqlValue)) (more : list QueryExecResult) :
  db query = Some ({| columns := publicationColumns;
                      values := publicationRow lang symbol year tag :: rows |} :: more) ->
  lang < 2 ^ 53 -> year < 2 ^ 53 -> tag < 2 ^ 53 ->
  (exists records,
      executeQuery assignUnderBlob db query = Some records
      /\ pubCard Number_toString records = Ok (card lang symbol year tag))
  /\ (95 ∉ symbol ->
      split (card lang symbol year tag) 95
      = [String_ lang; symbol; String_ year; String_ tag])
  /\ (forall lang' symbol' year' tag',
        95 ∉ symbol -> 95 ∉ symbol' ->
        card lang symbol year tag = card lang' symbol' year' tag' ->
        lang = lang' /\ symbol = symbol' /\ year = year' /\ tag = tag').
Proof.
  intros Hdb Hlang Hyear Htag. split; [|split].
  - destruct (executeQuery_rows db query _ _ Hdb ltac:(key_absent)) as (records & Hq & Hfirst).
    exists records. split; [exact Hq|].
    destruct (publication_record lang symbol year tag) as (obj & Hobj & H1 & H2 & H3 & H4).
    specialize (Hfirst 0%nat _ eq_refl). cbn [columns] in Hfirst. rewrite Hobj in Hfirst.
    destruct records as [|r records]; [done|]. injection Hfirst as ->.
    cbn [pubCard]. rewrite H1, H2, H3, H4.
    by rewrite !templateString_number.
  - apply card_fields.
  - intros lang' symbol' year' tag' Hs Hs' Heq.
    assert (Hf : split (card lang symbol year tag) 95 = split (card lang' symbol' year' tag') 95)
      by (by rewrite Heq).
    rewrite !card_fields in Hf by done.
    injection Hf as H1 H2 H3 H4. apply String_inj in H1, H3, H4. done.
Qed.
End PipelineProofs.

(** * The properties at concrete inputs *)

Section Witnesses.
Import JS Examples.

Lemma asciiLower_plain : SearchSpec.fixesPlainAscii HtmlReference.asciiLower.
Proof.
  intros s. unfold HtmlReference.asciiLower.
  induction s as [|c s IH]; [done|]. cbn [forallb map].
  intros [Hc Hs]%andb_prop. rewrite IH by done. f_equal.
  unfold SearchSpec.isPlainAscii in Hc. apply andb_prop in Hc as [_ Hc].
  by apply negb_true_iff in Hc as ->.
Defined.

Lemma identity_plain : SearchSpec.fixesPlainAscii (fun s => s).
Proof. by intros s _. Defined.

(** C2, witness. *)
Lemma search_love_witness :
  EpubSearchEngine.search HtmlReference.asciiLower (fun s => s)
    (SearchSpec.loveIndex HtmlReference.asciiLower (fun s => s)) (js "love")
  = [ {| EpubSearchEngine.score := 1; EpubSearchEngine.node := Some SearchSpec.node1 |};
      {| EpubSearchEngine.score := 1; EpubSearchEngine.node := Some SearchSpec.node2 |} ].
Proof.
  apply (search_love_scores_one_each HtmlReference.asciiLower (fun s => s)
           asciiLower_plain identity_plain).
Defined.

(** C2, counterexample: no implementation of [toLowerCase] and
    [normalize] that is right on Basic Latin gives the scores 2 and 1. *)
Lemma search_love_scores_not_two_and_one :
  ~ (forall toLowerCase normalizeNFD,
        SearchSpec.fixesPlainAscii toLowerCase ->
        SearchSpec.fixesPlainAscii normalizeNFD ->
        map EpubSearchEngine.score
          (EpubSearchEngine.search toLowerCase normalizeNFD
             (SearchSpec.loveIndex toLowerCase normalizeNFD) (js "love"))
        = [2; 1]).
Proof.
  intros H.
  specialize (H HtmlReference.asciiLower (fun s => s) asciiLower_plain identity_plain).
  vm_compute in H. discriminate H.
Qed.

(** C3, witness. *)
Lemma discover_stops_witness :
  DiscoveryService.discover (js "mwb") (js "S") noKindNames 9 responses 3
  = Some (DiscoveryService.discovered
            (DiscoverySpec.state_at (js "mwb") (js "S") noKindNames 9 responses 3))
  /\ DiscoveryService.loop (js "mwb") (js "S") noKindNames 1 responses 2 O
       (DiscoveryService.start (js "mwb") 9) = None.
Proof.
  assert (H1 : DiscoverySpec.missRun responses 3 = 1) by reflexivity.
  assert (H2 : forall k, (k < 3)%nat -> DiscoverySpec.missRun responses k < 1).
  { intros k Hk. destruct k as [|[|[|k]]]; [reflexivity..|lia]. }
  destruct (discover_stops_after_maxNotFound_misses (js "mwb") (js "S") noKindNames 9 responses 1 3 H1 H2)
    as (_ & _ & _ & _ & Hnone & _ & Hsome).
  split; [apply Hsome; [reflexivity|lia]|apply Hnone; lia].
Defined.

(** C7, witness. *)
Lemma discover_no_duplicates_witness :
  exists l, DiscoveryService.discover (js "mwb") (js "S") noKindNames 9 responses 5 = Some l
    /\ length l = 1%nat
    /\ NoDup (map (fun d => (DiscoveryService.pub d, DiscoveryService.issue d,
                             DiscoveryService.language d)) l).
Proof.
  eexists. split; [vm_compute; reflexivity|]. split; [reflexivity|].
  apply (discover_no_duplicate_triples (js "mwb") (js "S") noKindNames 9 responses 5);
    [lia|vm_compute; reflexivity].
Defined.

(** The cipher on the example of FIPS 197, Appendix C.1. *)
Lemma invCipher_example :
  Aes.invCipher (map N.of_nat (seq 0 16))
    [0x69; 0xC4; 0xE0; 0xD8; 0x6A; 0x7B; 0x04; 0x30;
     0xD8; 0xCD; 0xB7; 0x80; 0x70; 0xB4; 0xC5; 0x5A]
  = [0x00; 0x11; 0x22; 0x33; 0x44; 0x55; 0x66; 0x77;
     0x88; 0x99; 0xAA; 0xBB; 0xCC; 0xDD; 0xEE; 0xFF].
Proof. vm_compute. reflexivity. Qed.



(** C5 (the code against the claim). The image of
    [<p><img src='jwpub-media://x/y/z.jpg' alt='Z' WIDTH='3' HEIGHT='4'></p>]
    is written with the source [./assets/z.jpg] and recorded as the asset
    [z.jpg], but keeps its width and its height:
    [removeAttribute('width')] deletes an attribute spelled [width] and no
    other. With the two names in small letters both are removed. *)
Theorem parseDocument_keeps_capital_width :
  ParsingService.html (parseDoc capitalImage [])
  = quoted "<p><img src='./assets/z.jpg' alt='Z' WIDTH='3' HEIGHT='4' class='jw-image'></p>"
  /\ ParsingService.assets (parseDoc capitalImage [])
     = [ {| ParsingService.fileName := js "z.jpg"; ParsingService.altText := js "Z";
            ParsingService.asset_kind := ParsingService.image |} ]
  /\ ParsingService.html (parseDoc mediaImage [])
     = quoted "<p><img src='./assets/z.jpg' alt='Z' class='jw-image'></p>".
Proof. repeat split; vm_compute; reflexivity. Qed.

(** C10, witness. *)
Lemma image_without_src_witness :
  In {| ParsingService.fileName := []; ParsingService.altText := js "x";
        ParsingService.asset_kind := ParsingService.image |}
     (ParsingService.assets (parseDoc bareImage []))
  /\ exists root' a' cs',
       ParsingService.html (parseDoc bareImage []) = HtmlReference.toString root'
       /\ Dom.lookup_path root' [0]%nat = Some (Dom.HTMLElement (js "img") a' cs')
       /\ DomSpec.markupAttribute a' (js "src") = Some (js "./assets/")
       /\ Dom.attr_get a' (js "src") = Some (js "./assets/").
Proof.
  destruct (parseDocument_image_without_src
              HtmlReference.parse HtmlReference.toString HtmlReference.decode
              bareImage [] [0]%nat [(js "alt", js "x")] [])
    as (root' & a' & cs' & Hh & Hl & Hs & Honce & Hin).
  - discriminate.
  - vm_compute. reflexivity.
  - left. vm_compute. reflexivity.
  - split; [exact Hin|]. exists root', a', cs'.
    split; [exact Hh|]. split; [exact Hl|]. split; [exact Hs|].
    apply Honce. vm_compute. lia.
Defined.

(** An image whose source is written in two spellings: the first one is
    set, the last one is read. *)
Lemma two_spellings_of_src :
  Dom.lookup_path (HtmlReference.parse twoSources) [0]%nat
  = Some (Dom.HTMLElement (js "img") [(js "SRC", js "x.jpg"); (js "src", [])] [])
  /\ ParsingService.html (parseDoc twoSources [])
     = quoted "<img SRC='./assets/' src class='jw-image'>"
  /\ ParsingService.assets (parseDoc twoSources [])
     = [ {| ParsingService.fileName := []; ParsingService.altText := [];
            ParsingService.asset_kind := ParsingService.image |} ].
Proof. repeat split; vm_compute; reflexivity. Qed.

(** C6, witness. *)
Lemma video_reference_witness :
  In {| ParsingService.ref_type := ParsingService.video;
        ParsingService.link := js "webpubvid://v";
        ParsingService.ref_text := js "x" |}
     (ParsingService.references (parseDoc videoAnchor []))
  /\ In {| ParsingService.fileName := js "webpubvid://v";
           ParsingService.altText := js "x";
           ParsingService.asset_kind := ParsingService.video_asset |}
        (ParsingService.assets (parseDoc videoAnchor [])).
Proof.
  destruct (parseDocument_video_reference
              HtmlReference.parse HtmlReference.toString HtmlReference.decode
              videoAnchor [] [0]%nat [(js "data-video", js "webpubvid://v")]
              [Dom.TextNode (js "x")])
    as (Href & Hassets).
  - discriminate.
  - vm_compute. reflexivity.
  - right. vm_compute. reflexivity.
  - split; [exact Href|]. apply (Hassets _ Href). reflexivity.
Defined.

(** C6, counterexample: an anchor that carries [data-video] alone gets
    the [data-video] value as its link, not the (empty) [href] value. *)
Lemma video_link_not_as_specified :
  Dom.lookup_path (HtmlReference.parse videoAnchor) [0]%nat
  = Some (Dom.HTMLElement (js "a") [(js "data-video", js "webpubvid://v")]
                          [Dom.TextNode (js "x")])
  /\ ParsingService.references (parseDoc videoAnchor [])
     = [ {| ParsingService.ref_type := ParsingService.video;
            ParsingService.link := js "webpubvid://v";
            ParsingService.ref_text := js "x" |} ]
  /\ ~ In {| ParsingService.ref_type := ParsingService.video;
             ParsingService.link := ParsingSpec.linkAsSpecified [] (js "webpubvid://v");
             ParsingService.ref_text := js "x" |}
          (ParsingService.references (parseDoc videoAnchor [])).
Proof.
  split; [vm_compute; reflexivity|]. split; [vm_compute; reflexivity|].
  vm_compute. intros [H|[]]. discriminate H.
Qed.


End Witnesses.

(** * The further properties at concrete inputs *)

Section MoreWitnesses.
Import JS Examples MoreExamples.

(** X1, witness. *)
Lemma hexToBytes_bytesToHex_witness :
  CryptoService.hexToBytes (CryptoService.bytesToHex [0; 255; 16]) = [0; 255; 16].
Proof.
  apply hexToBytes_bytesToHex.
  repeat (apply Forall_cons; split; [reflexivity|]). apply Forall_nil_2.
Defined.

(** X3, witness: a stray character and an unpaired digit. *)
Lemma hexToBytes_forgiving_witness :
  CryptoService.hexToBytes (js "0a" ++ 122 :: js "ff")
  = CryptoService.hexToBytes (js "0a" ++ js "ff")
  /\ CryptoService.hexToBytes (js "0a" ++ [49]) = CryptoService.hexToBytes (js "0a").
Proof.
  split.
  - destruct (hexToBytes_forgiving (js "0a") (js "ff") 122) as (H & _).
    apply H. reflexivity.
  - destruct (hexToBytes_forgiving (js "0a") [] 49) as (_ & H & _).
    apply H. exists 1%nat. reflexivity.
Defined.

(** X4, witness: a key shorter than the buffer, with a value beyond a byte. *)
Lemma xorBuffers_involutive_witness :
  CryptoService.xorBuffers (CryptoService.xorBuffers [1; 2; 3; 250] [7; 300]) [7; 300]
  = [1; 2; 3; 250].
Proof.
  apply xorBuffers_involutive.
  repeat (apply Forall_cons; split; [reflexivity|]). apply Forall_nil_2.
Defined.

Lemma invCipher_block key c : length c = 16%nat -> length (Aes.invCipher key c) = 16%nat.
Proof. intros _. unfold Aes.invCipher, Aes.addRoundKey. by rewrite length_map, length_seq. Defined.

(** X6, witness: the ciphertext of the 13 bytes of a zlib stream. *)
Lemma decryptAndInflate_strips_padding_witness :
  exists plaintext,
    ((exists decompressed,
         CryptoService.pako_inflate storedInflate plaintext
         = CryptoService.Inflated decompressed
         /\ js "hi" = asciiDecode decompressed)
     \/ (CryptoService.pako_inflate storedInflate plaintext = CryptoService.NoResult
         /\ js "hi" = []))
    /\ (length plaintext < length cipherOfStream <= length plaintext + 16)%nat
    /\ (length cipherOfStream mod 16 = 0)%nat.
Proof.
  apply (decryptAndInflate_strips_padding Aes.invCipher storedInflate asciiDecode
           invCipher_block cipherOfStream keyHex ivHex (js "hi")).
  vm_compute. reflexivity.
Defined.

(** X7, witness. *)
Lemma tokenize_tokens_witness :
  (2 < length (js "and"))%nat
  /\ (100 ∈ js "and" ->
      isWhiteSpace 100 = false /\ EpubSearchEngine.isPunctuation 100 = false
      /\ EpubSearchEngine.isCombiningMark 100 = false
      /\ 100 ∈ js "love and love").
Proof.
  apply (tokenize_tokens (fun s => s) (fun s => s) (js "love and love") (js "and") 100).
  apply list_elem_of_In. vm_compute. tauto.
Defined.

(** X8, witness: the second node leaves the first one alone. *)
Lemma addNode_updates_index_witness :
  EpubSearchEngine.nodes twoNodes !! js "1"
  = EpubSearchEngine.nodes
      (EpubSearchEngine.addNode (fun s => s) (fun s => s) EpubSearchEngine.empty_engine
         (js "1") (js "t") (js "<p>love and love</p>")) !! js "1".
Proof.
  destruct (addNode_updates_index (fun s => s) (fun s => s)
              (EpubSearchEngine.addNode (fun s => s) (fun s => s)
                 EpubSearchEngine.empty_engine (js "1") (js "t") (js "<p>love and love</p>"))
              (js "2") (js "t2") (js "<p>love</p>") (js "love")) as (_ & _ & H).
  apply H. key_neq.
Defined.

Lemma twoNodes_built : IndexSpec.built (fun s => s) (fun s => s) twoNodes.
Proof. apply IndexSpec.built_addNode, IndexSpec.built_addNode, IndexSpec.built_empty. Defined.

(** X9, witness. *)
Lemma built_engine_wellFormed_witness : IndexSpec.wellFormed twoNodes.
Proof. apply (built_engine_wellFormed (fun s => s) (fun s => s)), twoNodes_built. Defined.

(** X11, witness. *)
Lemma search_score_witness :
  NoDup (map EpubSearchEngine.node
           (EpubSearchEngine.search (fun s => s) (fun s => s) twoNodes (js "love and"))).
Proof.
  destruct (search_score_counts_matching_tokens (fun s => s) (fun s => s)
              twoNodes (js "love and") twoNodes_built) as (_ & _ & H).
  exact H.
Defined.

(** X14, witness: August is read as July for [mwb]. *)
Lemma discover_calendar_witness :
  DiscoveryService.currentMonth (DiscoverySpec.state_at (js "mwb") (js "S") noKindNames 8 responses 3)
    mod 2 = 1.
Proof.
  destruct (discover_calendar (js "mwb") (js "S") noKindNames 8 responses 3) as (_ & _ & H); [lia|].
  apply H. reflexivity.
Defined.

(** X15, witness. *)
Lemma issueDate_format_witness :
  Pipeline.issueYear (DiscoveryService.issueDate september) = String_ 2025.
Proof.
  destruct (issueDate_format september) as (_ & _ & H & _).
  - unfold DiscoverySpec.validMonth. simpl. lia.
  - simpl. lia.
  - exact H.
Defined.

(** X16, witness. *)
Lemma discover_returns_witness :
  exists n, (n < 5)%nat /\ DiscoverySpec.countsAsMiss (responses n) = true.
Proof.
  edestruct (discover_returns_requested_issues (js "mwb") (js "S") noKindNames 9 responses 5)
    as (n & Hn & Hm & _); [vm_compute; reflexivity|].
  exists n. split; assumption.
Defined.

(** X17, witness. *)
Lemma discover_runs_on_witness :
  DiscoveryService.discover (js "w") (js "S") noKindNames 9 alwaysFound 40 = None.
Proof. apply discover_runs_on_without_a_miss. intros i. reflexivity. Defined.

(** X18, witness. *)
Lemma bible_reference_witness :
  In {| ParsingService.ref_type := ParsingService.bible;
        ParsingService.link := js "bible://1:1:1";
        ParsingService.ref_text := js "Gen 1:1" |}
     (ParsingService.references (parseDoc bibleAnchor [])).
Proof.
  destruct (parseDocument_bible_and_publication_references
              HtmlReference.parse HtmlReference.toString HtmlReference.decode
              bibleAnchor []) as [H _].
  destruct (H [0%nat] [(js "href", js "bible://1:1:1")] [Dom.TextNode (js "Gen 1:1")])
    as [Hb _]; [done|vm_compute; reflexivity|].
  apply Hb. vm_compute. reflexivity.
Defined.

(** X19, witness. *)
Lemma texts_are_trimmed_witness :
  js "a b" <> [] /\ ParsingSpec.noSpaceAtEnds (js "a b").
Proof.
  destruct (parseDocument_texts_are_trimmed
              HtmlReference.parse HtmlReference.toString HtmlReference.decode
              titled []) as (_ & H & _).
  apply H. apply list_elem_of_In. vm_compute. tauto.
Defined.

(** X21, witness: the paragraph around the image stays as it is. *)
Lemma changes_images_only_witness :
  DomSpec.label <$> Dom.lookup_path (ParsingSpec.normalize (HtmlReference.parse mediaImage)) [0%nat]
  = DomSpec.label <$> Dom.lookup_path (HtmlReference.parse mediaImage) [0%nat].
Proof.
  destruct (parseDocument_changes_images_only
              HtmlReference.parse HtmlReference.toString HtmlReference.decode
              mediaImage [] [0%nat]) as (_ & _ & _ & _ & H & _).
  apply H. key_absent.
Defined.

(** X22, witness. *)
Lemma output_images_witness :
  exists (f : jsstring) (tokens : list jsstring),
    In {| ParsingService.fileName := f; ParsingService.altText := js "Z";
          ParsingService.asset_kind := ParsingService.image |}
       (ParsingService.assets (parseDoc mediaImage []))
    /\ js "jw-image" ∈ tokens.
Proof.
  edestruct (parseDocument_output_images
               HtmlReference.parse HtmlReference.toString HtmlReference.decode
               mediaImage [] [0%nat; 0%nat])
    as (_ & f & tokens & _ & _ & _ & _ & _ & Hjw & _ & Hin);
    [done|vm_compute; reflexivity|].
  exists f, tokens. split; [exact Hin|exact Hjw].
Defined.

(** X24, witness. *)
Lemma fileNameOf_media_source_witness :
  ParsingService.fileNameOf (js "jwpub-media://" ++ js "x/y" ++ 47 :: js "z.jpg")
  = js "z.jpg".
Proof.
  destruct (fileNameOf_media_source (js "x/y") (js "z.jpg") []) as (_ & H & _);
    [key_neq|key_absent|exact H].
Defined.

(** X25, witness: of two columns of one name the last one wins. *)
Lemma executeQuery_records_witness :
  exists records obj,
    DatabaseService.executeQuery dropsUnderBlob repeatedColumn [] = Some records
    /\ records !! 0%nat = Some obj
    /\ DatabaseService.own obj !! js "a" = Some (Some (DatabaseService.SqlNumber 3))
    /\ DatabaseService.own obj !! js "b" = Some (Some (DatabaseService.SqlNumber 2)).
Proof.
  destruct (executeQuery_records dropsUnderBlob repeatedColumn []) as (_ & _ & H & _).
  destruct (H _ _ eq_refl) as (records & Hq & _ & Hrow); [key_absent|].
  destruct (Hrow 0%nat _ eq_refl) as (obj & Hobj & _ & _ & Hlast).
  exists records, obj. split; [exact Hq|]. split; [exact Hobj|]. split.
  - apply (Hlast 2%nat (js "a")); [reflexivity|key_absent].
  - apply (Hlast 1%nat (js "b")); [reflexivity|key_absent].
Defined.

(** X26, witness. *)
Lemma pubCard_of_publication_witness :
  (exists records,
      DatabaseService.executeQuery dropsUnderBlob publicationDb [] = Some records
      /\ Pipeline.pubCard noNumberText records = JS.Ok (js "1_mwb_2025_202509"))
  /\ split (PipelineSpec.card 1 (js "mwb") 2025 202509) 95
     = [String_ 1; js "mwb"; String_ 2025; String_ 202509].
Proof.
  destruct (pubCard_of_publication dropsUnderBlob noNumberText publicationDb []
              1 (js "mwb") 2025 202509 [] [] eq_refl)
    as (Hcard & H & _); [reflexivity..|].
  split; [exact Hcard|]. apply H. key_absent.
Defined.
End MoreWitnesses.
